(** * Survival credit model: hazard curves, validation and forecasting

    A shallow embedding of [survival_credit_model.py] (validator, hazard
    rate estimator, curve transfer engine, forecast generator and the
    pipeline's training gate), with the properties its specification
    states about them. *)

From Stdlib Require Import ZArith QArith Qcanon String List.
From stdpp Require Import base numbers list sorting strings gmap fin_maps.

Local Open Scope Z_scope.

(** ** Numbers

    The columns [payments], [chargeoffs] and [outstanding_balance] and every
    rate derived from them are float64 values.  They are modelled as exact
    rationals extended with the three special values of IEEE 754 arithmetic:
    the arithmetic on special values follows IEEE 754 (what NumPy, pandas and
    Python floats compute), rounding and overflow of finite values are not
    modelled, and zero carries no sign.

    A finite result is therefore the exact result where float64 gives the
    nearest representable one.  The general statements of this file use of
    the finite arithmetic only what rounding to nearest keeps: the sign and
    the order of results, what is raised and what is missing or infinite,
    and the equality of two results of the same operations on the same
    operands; none of them cancels a product against a quotient.  The
    examples on concrete tables give the exact values. *)
Module Num.

Inductive num : Type :=
  | Fin (q : Qc)
  | PInf
  | NInf
  | NaN.

Global Instance num_eq_dec : EqDecision num.
Proof. solve_decision. Defined.

Definition zero : num := Fin 0%Qc.
Definition one : num := Fin 1%Qc.
Definition of_Z (z : Z) : num := Fin (Qc_of_Z z).
Definition of_nat (n : nat) : num := of_Z (Z.of_nat n).

(** [n / d] as a finite literal, [d] nonzero. *)
Definition lit (n : Z) (d : positive) : num := Fin (Q2Qc (n # d)).

Definition is_nan (x : num) : bool :=
  match x with NaN => true | _ => false end.

Definition sign (q : Qc) : comparison := (q ?= 0)%Qc.

Definition opp (x : num) : num :=
  match x with
  | Fin q => Fin (- q)%Qc
  | PInf => NInf
  | NInf => PInf
  | NaN => NaN
  end.

Definition add (x y : num) : num :=
  match x, y with
  | NaN, _ | _, NaN => NaN
  | Fin a, Fin b => Fin (a + b)%Qc
  | PInf, NInf | NInf, PInf => NaN
  | PInf, _ | _, PInf => PInf
  | NInf, _ | _, NInf => NInf
  end.

Definition sub (x y : num) : num := add x (opp y).

(** An infinity of the sign of [c], [NaN] when [c] is [Eq]. *)
Definition inf_of (c : comparison) : num :=
  match c with Gt => PInf | Lt => NInf | Eq => NaN end.

Definition mul (x y : num) : num :=
  match x, y with
  | NaN, _ | _, NaN => NaN
  | Fin a, Fin b => Fin (a * b)%Qc
  | Fin a, PInf | PInf, Fin a => inf_of (sign a)
  | Fin a, NInf | NInf, Fin a => inf_of (CompOpp (sign a))
  | PInf, PInf | NInf, NInf => PInf
  | PInf, NInf | NInf, PInf => NInf
  end.

(** Division as NumPy computes it: a zero divisor yields an infinity of the
    sign of the dividend, and [0 / 0] is [NaN]; nothing is raised. *)
Definition div (x y : num) : num :=
  match x, y with
  | NaN, _ | _, NaN => NaN
  | Fin a, Fin b =>
      if decide (b = 0%Qc) then inf_of (sign a) else Fin (a / b)%Qc
  | Fin _, (PInf | NInf) => zero
  | PInf, Fin b => match sign b with Lt => NInf | _ => PInf end
  | NInf, Fin b => match sign b with Lt => PInf | _ => NInf end
  | (PInf | NInf), (PInf | NInf) => NaN
  end.

(** Comparisons: every comparison with [NaN] is false. *)
Definition ltb (x y : num) : bool :=
  match x, y with
  | NaN, _ | _, NaN => false
  | Fin a, Fin b => bool_decide (a < b)%Qc
  | Fin _, PInf | NInf, Fin _ | NInf, PInf => true
  | Fin _, NInf | PInf, _ | NInf, NInf => false
  end.

Definition leb (x y : num) : bool :=
  match x, y with
  | NaN, _ | _, NaN => false
  | Fin a, Fin b => bool_decide (a ≤ b)%Qc
  | NInf, _ | Fin _, PInf | PInf, PInf => true
  | Fin _, NInf | PInf, Fin _ | PInf, NInf => false
  end.

Definition gtb (x y : num) : bool := ltb y x.

Definition abs (x : num) : num :=
  match x with
  | Fin q => if bool_decide (q < 0)%Qc then Fin (- q)%Qc else Fin q
  | PInf | NInf => PInf
  | NaN => NaN
  end.

(** Python's [max(0, x)]: the first argument is kept unless the second
    compares greater, so a [NaN] operand yields [0]. *)
Definition max0 (x : num) : num := if gtb x zero then x else zero.

(** [Series.fillna(0)]. *)
Definition fillna0 (x : num) : num := if is_nan x then zero else x.

(** [Series.sum()]: missing values are skipped, the empty sum is [0]. *)
Definition sum (l : list num) : num :=
  foldl add zero (filter (λ x, is_nan x = false) l).

(** [Series.mean()]: the mean of the values that are not missing, [NaN] when
    there is none. *)
Definition mean (l : list num) : num :=
  let xs := filter (λ x, is_nan x = false) l in
  match xs with
  | [] => NaN
  | _ => div (foldl add zero xs) (of_nat (length xs))
  end.

End Num.
Export Num.

(** ** Tables *)

(** A row of a flow table. *)
Record FlowRecord : Type := {
  segment_id : string;
  month_on_book : Z;
  payments : num;
  chargeoffs : num;
  outstanding_balance : num
}.

Global Instance FlowRecord_eq_dec : EqDecision FlowRecord.
Proof. solve_decision. Defined.

(** A flow table: a frame that has the five required columns, as the list
    of its rows in order. *)
Definition FlowTable : Type := list FlowRecord.

(** A [DataFrame] as a caller hands it to the validator and the pipeline: the
    names of its columns and its rows.  Only [validate_data] looks at the
    column names; the cells of a required column that the frame lacks are
    never read, because validation returns before any check runs. *)
Record DataFrame : Type := {
  df_columns : list string;
  df_rows : FlowTable
}.

(** [range(lo, hi)]. *)
Definition range (lo hi : Z) : list Z := seqZ lo (hi - lo).

(** [Series.unique()]: the distinct values, in order of first appearance. *)
Definition unique {A} `{EqDecision A} (l : list A) : list A :=
  foldl (λ acc x, if decide (x ∈ acc) then acc else acc ++ [x]) [] l.

(** [Series.min()] and [Series.max()] of an integer column; [None] stands for
    the [NaN] of an empty column. *)
Definition series_min (l : list Z) : option Z :=
  match l with [] => None | x :: l' => Some (foldl Z.min x l') end.
Definition series_max (l : list Z) : option Z :=
  match l with [] => None | x :: l' => Some (foldl Z.max x l') end.

(** [DataFrame.sort_values('month_on_book')] on a list of rows.  pandas'
    default sort is not stable: the result is the rows in ascending age,
    and the order among rows of the same age is not fixed.  The function
    below is one such order (an insertion sort, rows of the same age in
    input order).  It stands for the sort only where the order among rows
    of the same age cannot matter: in statements about tables whose ages
    are distinct (where every sort returns the same list,
    [sort_values_unique]) or about the result up to permutation. *)
Fixpoint insert_by {A} (key : A → Z) (x : A) (l : list A) : list A :=
  match l with
  | [] => [x]
  | y :: l' =>
      if decide (key x ≤ key y) then x :: y :: l' else y :: insert_by key x l'
  end.

Definition sort_values {A} (key : A → Z) (l : list A) : list A :=
  foldr (insert_by key) [] l.

(** ** DataValidator *)

Inductive message : Type :=
  | MissingColumns (cols : list string)
      (* "Missing required columns: {missing_cols}" *)
  | NegativeMonth           (* "month_on_book cannot be negative" *)
  | NegativePayments        (* "Negative payments detected" *)
  | NegativeChargeoffs      (* "Negative chargeoffs detected" *)
  | NonPositiveBalance      (* "Zero or negative outstanding_balance detected" *)
  | PaymentRateOver         (* "Payment rates > 100% detected" *)
  | ChargeoffRateOver       (* "Chargeoff rates > 100% detected" *)
  | BalanceFlowInconsistency (segment : string) (month : Z)
      (* "Balance flow inconsistency in segment {s} at month {m}" *)
  | MissingMonths (segment : string) (months : list Z).
      (* "Missing months in segment {s}: {missing_months}" *)

Global Instance message_eq_dec : EqDecision message.
Proof. solve_decision. Defined.

(** The dictionary [validate_data] returns; its [summary] entry is never
    filled and is left out. *)
Record ValidationResult : Type := {
  valid : bool;
  errors : list message;
  warnings : list message
}.

Global Instance ValidationResult_eq_dec : EqDecision ValidationResult.
Proof. solve_decision. Defined.

Definition append_error (m : message) (r : ValidationResult) : ValidationResult :=
  {| valid := valid r; errors := errors r ++ [m]; warnings := warnings r |}.
Definition append_warning (m : message) (r : ValidationResult) : ValidationResult :=
  {| valid := valid r; errors := errors r; warnings := warnings r ++ [m] |}.
Definition set_invalid (r : ValidationResult) : ValidationResult :=
  {| valid := false; errors := errors r; warnings := warnings r |}.

Module DataValidator.

Definition REQUIRED_COLUMNS : list string :=
  ["segment_id"; "month_on_book"; "payments"; "chargeoffs";
   "outstanding_balance"]%string.

(** [if cond: results[...].append(m)]. *)
Definition when (cond : bool) (f : ValidationResult → ValidationResult)
    (r : ValidationResult) : ValidationResult :=
  if cond then f r else r.

Definition _check_data_quality (df : DataFrame) (results : ValidationResult)
    : ValidationResult :=
  let rows := df_rows df in
  let results :=
    when (match series_min (month_on_book <$> rows) with
          | Some m => bool_decide (m < 0)
          | None => false
          end)
         (append_error NegativeMonth) results in
  let results :=
    when (existsb (λ r, leb (outstanding_balance r) zero) rows)
         (append_warning NonPositiveBalance) results in
  let results :=
    when (existsb (λ r, ltb (payments r) zero) rows)
         (append_error NegativePayments) results in
  let results :=
    when (existsb (λ r, ltb (chargeoffs r) zero) rows)
         (append_error NegativeChargeoffs) results in
  let payment_rates :=
    (λ r, div (payments r) (outstanding_balance r)) <$> rows in
  let chargeoff_rates :=
    (λ r, div (chargeoffs r) (outstanding_balance r)) <$> rows in
  let results :=
    when (existsb (λ x, gtb x one) payment_rates)
         (append_warning PaymentRateOver) results in
  when (existsb (λ x, gtb x one) chargeoff_rates)
       (append_warning ChargeoffRateOver) results.

Definition rows_of_segment (s : string) (df : DataFrame) : list FlowRecord :=
  filter (λ r, segment_id r = s) (df_rows df).

Definition implied_next_balance (r : FlowRecord) : num :=
  sub (sub (outstanding_balance r) (payments r)) (chargeoffs r).

(** The inner loop of [_check_business_logic]: the month of the first row
    whose implied next balance is more than a cent away from the balance of
    the row after it. *)
Fixpoint first_inconsistency (l : list FlowRecord) : option Z :=
  match l with
  | r :: (r' :: _) as tl =>
      if gtb (abs (sub (implied_next_balance r) (outstanding_balance r')))
             (lit 1 100)
      then Some (month_on_book r)
      else first_inconsistency tl
  | _ => None
  end.

Definition _check_business_logic (df : DataFrame) (results : ValidationResult)
    : ValidationResult :=
  foldl (λ res s,
           let segment_df := sort_values month_on_book (rows_of_segment s df) in
           match first_inconsistency segment_df with
           | Some m => append_warning (BalanceFlowInconsistency s m) res
           | None => res
           end)
        results (unique (segment_id <$> df_rows df)).

Definition _check_completeness (df : DataFrame) (results : ValidationResult)
    : ValidationResult :=
  foldl (λ res s,
           let months :=
             merge_sort Z.le (unique (month_on_book <$> rows_of_segment s df)) in
           match series_min months, series_max months with
           | Some lo, Some hi =>
               let expected_months := range lo (hi + 1) in
               let missing_months :=
                 filter (λ m, m ∉ months) expected_months in
               when (bool_decide (missing_months ≠ []))
                    (append_warning (MissingMonths s missing_months)) res
           | _, _ => res
           end)
        results (unique (segment_id <$> df_rows df)).

Definition validate_data (df : DataFrame) : ValidationResult :=
  let results := {| valid := true; errors := []; warnings := [] |} in
  let missing_cols := filter (λ c, c ∉ df_columns df) REQUIRED_COLUMNS in
  if bool_decide (missing_cols ≠ []) then
    append_error (MissingColumns missing_cols) (set_invalid results)
  else
    let results := _check_data_quality df results in
    let results := _check_business_logic df results in
    _check_completeness df results.

End DataValidator.

(** ** Exceptions

    Every exception the module raises itself is a [ValueError]; the
    constructors name them by what they report. *)
Inductive exn : Type :=
  | NotFitted                      (* "Model must be fitted first" *)
  | InvalidKind (hazard_type : string)  (* "Invalid hazard_type: {hazard_type}" *)
  | NotTrained                     (* "Model must be trained before forecasting" *)
  | TrainingValidationFailed (errors : list message)
      (* "Training data validation failed: {errors}" *)
  | ActualsValidationFailed (errors : list message)
      (* "Known actuals validation failed: {errors}" *)
  | KeyError                       (* a missing dictionary key *)
  | IndexError                     (* [.iloc[0]] of an empty frame *)
  | TypeError                      (* an operand of the wrong type *)
  | EmptySequence                  (* [min()] or [max()] of an empty list *)
  | ZeroDivisionError.             (* [/] on Python numbers, zero divisor *)

Global Instance exn_eq_dec : EqDecision exn.
Proof. solve_decision. Defined.

Inductive result (A : Type) : Type :=
  | Ok (a : A)
  | Raise (e : exn).
Global Arguments Ok {A} a.
Global Arguments Raise {A} e.

Global Instance result_eq_dec {A} `{EqDecision A} : EqDecision (result A).
Proof. solve_decision. Defined.

Global Instance result_ret : MRet result := λ A a, Ok a.
Global Instance result_fmap : FMap result := λ A B f m,
  match m with
  | Ok a => Ok (f a)
  | Raise e => Raise e
  end.
Global Instance result_bind : MBind result := λ A B f m,
  match m with
  | Ok a => f a
  | Raise e => Raise e
  end.

(** [x / y] on Python numbers. *)
Definition py_div (x y : num) : result num :=
  if bool_decide (y = zero) then Raise ZeroDivisionError else Ok (div x y).

(** [min(l)] and [max(l)] on a Python list of integers. *)
Definition py_min (l : list Z) : result Z :=
  match l with [] => Raise EmptySequence | x :: l' => Ok (foldl Z.min x l') end.
Definition py_max (l : list Z) : result Z :=
  match l with [] => Raise EmptySequence | x :: l' => Ok (foldl Z.max x l') end.


Definition all_columns : list string := DataValidator.REQUIRED_COLUMNS.

Definition row (s : string) (m : Z) (bal pay co : num) : FlowRecord :=
  {| segment_id := s; month_on_book := m; payments := pay; chargeoffs := co;
     outstanding_balance := bal |}.


(** ** HazardRateEstimator *)

(** A row of the aggregate table [fit] keeps as [training_data]. *)
Record AggRow : Type := {
  agg_month_on_book : Z;
  agg_outstanding_balance : num;
  agg_payments : num;
  agg_chargeoffs : num;
  payment_hazard_rate : num;
  chargeoff_hazard_rate : num;
  payment_hazard_rate_smoothed : num;
  chargeoff_hazard_rate_smoothed : num
}.

Global Instance AggRow_eq_dec : EqDecision AggRow.
Proof. solve_decision. Defined.

(** The values of the [hazard_curves] dictionary: a rate dictionary under
    ["payment_hazard"] and ["chargeoff_hazard"], a frame under
    ["training_data"]. *)
Inductive curve_value : Type :=
  | Rates (rates : gmap Z num)
  | Frame (agg_df : list AggRow).

Global Instance curve_value_eq_dec : EqDecision curve_value.
Proof. solve_decision. Defined.

(** [dict(zip(keys, values))]: a later pair replaces an earlier one with the
    same key. *)
Definition dict_zip (keys : list Z) (values : list num) : gmap Z num :=
  foldl (λ d kv, <[kv.1 := kv.2]> d) ∅ (zip keys values).

(** [l[s:e]] for [0 <= s] and [0 <= e]. *)
Definition slice {A} (s e : Z) (l : list A) : list A :=
  take (Z.to_nat (e - s)) (drop (Z.to_nat s) l).

Definition clip (x lo hi : Z) : Z := Z.max lo (Z.min x hi).

(** The bounds [start, end) of the window pandas gives position [i] of [n]
    values under [rolling(window=w, center=True)]: the window ends
    [(w - 1) // 2] positions after [i], spans [w] positions, and is clipped
    to the series. *)
Definition window_bounds (w n i : Z) : Z * Z :=
  let offset := (w - 1) `div` 2 in
  let e := i + 1 + offset in
  let s := e - w in
  (clip s 0 n, clip e 0 n).

(** pandas' rolling windows take an infinite value for a missing one:
    before the window function runs, [+inf] and [-inf] are replaced by
    [NaN]. *)
Definition inf_to_nan (x : num) : num :=
  match x with
  | PInf | NInf => NaN
  | _ => x
  end.

(** [Series.rolling(window=w, center=True, min_periods=1).mean()]: at each
    position the mean of the values of its window that are neither missing
    nor infinite ([NaN] when there is none). *)
Definition rolling_mean (w : Z) (xs : list num) : list num :=
  let values := inf_to_nan <$> xs in
  imap (λ i _,
          let '(s, e) := window_bounds w (Z.of_nat (length xs)) (Z.of_nat i) in
          mean (slice s e values))
       xs.

(** [df.groupby('month_on_book').agg({... 'sum'}).reset_index()]: one row per
    distinct age, ages ascending, each with the sums of the three amount
    columns over the rows of that age. *)
Definition groupby_sum (df : FlowTable) : list (Z * (num * num * num)) :=
  (λ k, let g := filter (λ r, month_on_book r = k) df in
        (k, (Num.sum (outstanding_balance <$> g),
             Num.sum (payments <$> g),
             Num.sum (chargeoffs <$> g))))
  <$> merge_sort Z.le (unique (month_on_book <$> df)).

Module HazardRateEstimator.

Record t : Type := {
  smoothing_window : Z;
  hazard_curves : gmap string curve_value
}.

Definition __init__ (smoothing_window : Z) : t :=
  {| smoothing_window := smoothing_window; hazard_curves := ∅ |}.

(** The raw rate columns of the aggregate table: flow over balance, with
    [fillna(0)]. *)
Definition raw_rate (flow balance : num) : num := fillna0 (div flow balance).

(** The smoothed rate column. *)
Definition smooth (w : Z) (rates : list num) : list num :=
  if bool_decide (1 < w) then rolling_mean w rates else rates.

Definition make_agg_df (w : Z) (df : FlowTable) : list AggRow :=
  let agg := groupby_sum df in
  let p := (λ a, raw_rate a.2.1.2 a.2.1.1) <$> agg in
  let c := (λ a, raw_rate a.2.2 a.2.1.1) <$> agg in
  let ps := smooth w p in
  let cs := smooth w c in
  (λ x, let '(a, rp, rc, sp, sc) := x in
        {| agg_month_on_book := a.1;
           agg_outstanding_balance := a.2.1.1;
           agg_payments := a.2.1.2;
           agg_chargeoffs := a.2.2;
           payment_hazard_rate := rp;
           chargeoff_hazard_rate := rc;
           payment_hazard_rate_smoothed := sp;
           chargeoff_hazard_rate_smoothed := sc |})
  <$> zip (zip (zip (zip agg p) c) ps) cs.

Definition fit (self : t) (df : FlowTable) : t * gmap string curve_value :=
  let agg_df := make_agg_df (smoothing_window self) df in
  let curves : gmap string curve_value :=
    <["training_data" := Frame agg_df]>
    (<["chargeoff_hazard" :=
         Rates (dict_zip (agg_month_on_book <$> agg_df)
                         (chargeoff_hazard_rate_smoothed <$> agg_df))]>
    (<["payment_hazard" :=
         Rates (dict_zip (agg_month_on_book <$> agg_df)
                         (payment_hazard_rate_smoothed <$> agg_df))]> ∅)) in
  ({| smoothing_window := smoothing_window self; hazard_curves := curves |},
   curves).

(** [rates[k]]. *)
Definition getitem (rates : gmap Z num) (k : Z) : result num :=
  match rates !! k with Some r => Ok r | None => Raise KeyError end.

(** The body of [get_hazard_rate] once the rate dictionary is at hand. *)
Definition rate_at (rates : gmap Z num) (month : Z) : result num :=
  match rates !! month with
  | Some r => Ok r
  | None =>
      let available_months := merge_sort Z.le (elements (dom rates)) in
      match available_months with
      | [] => Ok zero
      | _ =>
          lo ← py_min available_months;
          hi ← py_max available_months;
          if bool_decide (month < lo) then getitem rates lo
          else if bool_decide (hi < month) then getitem rates hi
          else
            lower_month ←
              py_max (filter (λ m, m ≤ month) available_months);
            upper_month ←
              py_min (filter (λ m, month ≤ m) available_months);
            if bool_decide (lower_month = upper_month)
            then getitem rates lower_month
            else
              weight ← py_div (of_Z (month - lower_month))
                              (of_Z (upper_month - lower_month));
              r_lo ← getitem rates lower_month;
              r_hi ← getitem rates upper_month;
              Ok (add (mul r_lo (sub one weight)) (mul r_hi weight))
      end
  end.

Definition get_hazard_rate (self : t) (month : Z) (hazard_type : string)
    : result num :=
  if bool_decide (hazard_curves self = ∅) then Raise NotFitted
  else
    let curve_key := (hazard_type +:+ "_hazard")%string in
    match hazard_curves self !! curve_key with
    | None => Raise (InvalidKind hazard_type)
    | Some (Rates rates) => rate_at rates month
    | Some (Frame _) => Raise TypeError
    end.

End HazardRateEstimator.

(** ** CurveTransferEngine *)

(** An entry of [detailed_comparison]. *)
Record Comparison : Type := {
  c_month_on_book : Z;
  expected_payment_rate : num;
  actual_payment_rate : num;
  payment_variance : num;
  expected_chargeoff_rate : num;
  actual_chargeoff_rate : num;
  chargeoff_variance : num
}.

Global Instance Comparison_eq_dec : EqDecision Comparison.
Proof. solve_decision. Defined.

Inductive variance_warning : Type :=
  | LargePaymentVariance (month : Z) (variance : num)
      (* "Large payment variance at month {month}: {variance:.3f}" *)
  | LargeChargeoffVariance (month : Z) (variance : num).
      (* "Large chargeoff variance at month {month}: {variance:.3f}" *)

Global Instance variance_warning_eq_dec : EqDecision variance_warning.
Proof. solve_decision. Defined.

Record SummaryStats : Type := {
  mean_payment_variance : num;
  mean_chargeoff_variance : num;
  rmse_payment : num;
  rmse_chargeoff : num
}.

Global Instance SummaryStats_eq_dec : EqDecision SummaryStats.
Proof. solve_decision. Defined.

(** The dictionary [validate_known_actuals] returns; [None] is the empty
    [summary_stats] dictionary. *)
Record CurveValidation : Type := {
  detailed_comparison : list Comparison;
  summary_stats : option SummaryStats;
  cv_warnings : list variance_warning
}.

Global Instance CurveValidation_eq_dec : EqDecision CurveValidation.
Proof. solve_decision. Defined.

Module CurveTransferEngine.
Section engine.

(** [numpy.sqrt], left uninterpreted: a square root is not rational. *)
Variable np_sqrt : num → num.

Definition payment_threshold : num := lit 5 100.
Definition chargeoff_threshold : num := lit 2 100.

(** One pass of the loop over [df.iterrows()]: the comparison of a row and
    the warnings it adds.  The cells of a row are Python numbers, on which
    [/] raises when the divisor is zero. *)
Definition compare_row (rate_estimator : HazardRateEstimator.t) (r : FlowRecord)
    : result (Comparison * list variance_warning) :=
  let month := month_on_book r in
  expected_payment_rate ←
    HazardRateEstimator.get_hazard_rate rate_estimator month "payment";
  expected_chargeoff_rate ←
    HazardRateEstimator.get_hazard_rate rate_estimator month "chargeoff";
  actual_payment_rate ← py_div (payments r) (outstanding_balance r);
  actual_chargeoff_rate ← py_div (chargeoffs r) (outstanding_balance r);
  let payment_variance := sub actual_payment_rate expected_payment_rate in
  let chargeoff_variance := sub actual_chargeoff_rate expected_chargeoff_rate in
  Ok ({| c_month_on_book := month;
         expected_payment_rate := expected_payment_rate;
         actual_payment_rate := actual_payment_rate;
         payment_variance := payment_variance;
         expected_chargeoff_rate := expected_chargeoff_rate;
         actual_chargeoff_rate := actual_chargeoff_rate;
         chargeoff_variance := chargeoff_variance |},
      (if gtb (abs payment_variance) payment_threshold
       then [LargePaymentVariance month payment_variance] else [])
      ++ (if gtb (abs chargeoff_variance) chargeoff_threshold
          then [LargeChargeoffVariance month chargeoff_variance] else [])).

(** The loop: an exception in any pass leaves the call without a result. *)
Fixpoint compare_rows (rate_estimator : HazardRateEstimator.t)
    (rows : list FlowRecord)
    : result (list Comparison * list variance_warning) :=
  match rows with
  | [] => Ok ([], [])
  | r :: rows' =>
      cw ← compare_row rate_estimator r;
      rest ← compare_rows rate_estimator rows';
      Ok (cw.1 :: rest.1, cw.2 ++ rest.2)
  end.

Definition square (x : num) : num := mul x x.

Definition summarize (cs : list Comparison) : option SummaryStats :=
  match cs with
  | [] => None
  | _ =>
      Some {| mean_payment_variance := mean (payment_variance <$> cs);
              mean_chargeoff_variance := mean (chargeoff_variance <$> cs);
              rmse_payment :=
                np_sqrt (mean (square <$> (payment_variance <$> cs)));
              rmse_chargeoff :=
                np_sqrt (mean (square <$> (chargeoff_variance <$> cs))) |}
  end.

Definition validate_known_actuals (rate_estimator : HazardRateEstimator.t)
    (df : FlowTable) : result CurveValidation :=
  cw ← compare_rows rate_estimator df;
  Ok {| detailed_comparison := cw.1;
        summary_stats := summarize cw.1;
        cv_warnings := cw.2 |}.

End engine.
End CurveTransferEngine.

(** ** ForecastGenerator *)

Inductive flag : Type := Actual | Forecast.

Global Instance flag_eq_dec : EqDecision flag.
Proof. solve_decision. Defined.

Record ForecastRecord : Type := {
  f_segment_id : string;
  f_month_on_book : Z;
  f_outstanding_balance : num;
  f_payments : num;
  f_chargeoffs : num;
  forecast_flag : flag
}.

Global Instance ForecastRecord_eq_dec : EqDecision ForecastRecord.
Proof. solve_decision. Defined.

(** A known-actuals row with [forecast_flag = 'Actual']. *)
Definition actual (r : FlowRecord) : ForecastRecord :=
  {| f_segment_id := segment_id r;
     f_month_on_book := month_on_book r;
     f_outstanding_balance := outstanding_balance r;
     f_payments := payments r;
     f_chargeoffs := chargeoffs r;
     forecast_flag := Actual |}.

Module ForecastGenerator.

Definition floor : num := lit 1 100.

(** The loop over [range(last_known_month + 1, max_month + 1)]: [months] is
    what is left of the range, [current_balance] the running balance. *)
Fixpoint forecast_loop (rate_estimator : HazardRateEstimator.t)
    (segment : string) (months : list Z) (current_balance : num)
    : result (list ForecastRecord) :=
  match months with
  | [] => Ok []
  | month :: months' =>
      if leb current_balance floor then Ok []
      else
        payment_rate ←
          HazardRateEstimator.get_hazard_rate rate_estimator month "payment";
        chargeoff_rate ←
          HazardRateEstimator.get_hazard_rate rate_estimator month "chargeoff";
        let payment_amount := mul current_balance payment_rate in
        let chargeoff_amount := mul current_balance chargeoff_rate in
        let forecast_row :=
          {| f_segment_id := segment;
             f_month_on_book := month;
             f_outstanding_balance := current_balance;
             f_payments := payment_amount;
             f_chargeoffs := chargeoff_amount;
             forecast_flag := Forecast |} in
        let current_balance :=
          max0 (sub (sub current_balance payment_amount) chargeoff_amount) in
        rows ← forecast_loop rate_estimator segment months' current_balance;
        Ok (forecast_row :: rows)
  end.

Definition generate_forecast (rate_estimator : HazardRateEstimator.t)
    (known_actuals : FlowTable) (max_month : Z)
    : result (list ForecastRecord) :=
  let forecast_df := actual <$> known_actuals in
  match series_max (month_on_book <$> known_actuals) with
  | None => Raise IndexError
  | Some last_known_month =>
      match filter (λ r, month_on_book r = last_known_month) known_actuals with
      | [] => Raise IndexError
      | last_row :: _ =>
          let current_balance :=
            sub (sub (outstanding_balance last_row) (payments last_row))
                (chargeoffs last_row) in
          forecast_rows ←
            forecast_loop rate_estimator (segment_id last_row)
              (range (last_known_month + 1) (max_month + 1)) current_balance;
          Ok (sort_values f_month_on_book (forecast_df ++ forecast_rows))
      end
  end.

End ForecastGenerator.

(** ** OutputFormatter *)

Record OutputRecord : Type := {
  o_month_on_book : Z;
  outstanding_balance_ratio : num;
  payments_ratio : num;
  chargeoffs_ratio : num;
  o_payment_hazard_rate : num;
  o_chargeoff_hazard_rate : num;
  o_forecast_flag : flag
}.

Global Instance OutputRecord_eq_dec : EqDecision OutputRecord.
Proof. solve_decision. Defined.

Module OutputFormatter.

Definition format_curves_output (forecast_df : list ForecastRecord)
    (origination_amount : num) : list OutputRecord :=
  (λ r, {| o_month_on_book := f_month_on_book r;
           outstanding_balance_ratio :=
             div (f_outstanding_balance r) origination_amount;
           payments_ratio := div (f_payments r) origination_amount;
           chargeoffs_ratio := div (f_chargeoffs r) origination_amount;
           o_payment_hazard_rate :=
             div (f_payments r) (f_outstanding_balance r);
           o_chargeoff_hazard_rate :=
             div (f_chargeoffs r) (f_outstanding_balance r);
           o_forecast_flag := forecast_flag r |})
  <$> forecast_df.

End OutputFormatter.

(** ** SurvivalCreditModel *)

Record TrainingSummary : Type := {
  segments_processed : nat;
  max_month : option Z;
  total_volume : num
}.

Record TrainingResults : Type := {
  tr_validation_results : ValidationResult;
  tr_hazard_curves : gmap string curve_value;
  training_summary : TrainingSummary
}.

Record ForecastDiagnostics : Type := {
  data_validation : ValidationResult;
  curve_validation : CurveValidation
}.

Module SurvivalCreditModel.
Section pipeline.

Variable np_sqrt : num → num.

(** The pipeline's state: the estimator its engines share, and the flag that
    tells [Untrained] from [Trained]. *)
Record t : Type := {
  rate_estimator : HazardRateEstimator.t;
  is_trained : bool
}.

Definition __init__ (smoothing_window : Z) : t :=
  {| rate_estimator := HazardRateEstimator.__init__ smoothing_window;
     is_trained := false |}.

Definition train (self : t) (training_data : DataFrame)
    : result (t * TrainingResults) :=
  let validation_results := DataValidator.validate_data training_data in
  if negb (valid validation_results) then Raise (TrainingValidationFailed (errors validation_results))
  else
    let '(est, hazard_curves) :=
      HazardRateEstimator.fit (rate_estimator self) (df_rows training_data) in
    Ok ({| rate_estimator := est; is_trained := true |},
        {| tr_validation_results := validation_results;
           tr_hazard_curves := hazard_curves;
           training_summary :=
             {| segments_processed :=
                  length (unique (segment_id <$> df_rows training_data));
                max_month :=
                  series_max (month_on_book <$> df_rows training_data);
                total_volume :=
                  Num.sum (outstanding_balance <$> df_rows training_data) |} |}).

Definition forecast (self : t) (known_actuals : DataFrame)
    (origination_amount : num) (max_month : Z)
    : result (list OutputRecord * ForecastDiagnostics) :=
  if negb (is_trained self) then Raise NotTrained
  else
    let validation_results := DataValidator.validate_data known_actuals in
    if negb (valid validation_results) then Raise (ActualsValidationFailed (errors validation_results))
    else
      curve_validation ←
        CurveTransferEngine.validate_known_actuals np_sqrt
          (rate_estimator self) (df_rows known_actuals);
      forecast_df ←
        ForecastGenerator.generate_forecast (rate_estimator self)
          (df_rows known_actuals) max_month;
      Ok (OutputFormatter.format_curves_output forecast_df origination_amount,
          {| data_validation := validation_results;
             curve_validation := curve_validation |}).

(** [get_hazard_curves]: the curves of a trained pipeline; [None] is the
    dictionary [{"error": "Model not trained"}]. *)
Definition get_hazard_curves (self : t) : option (gmap string curve_value) :=
  if negb (is_trained self) then None
  else Some (HazardRateEstimator.hazard_curves (rate_estimator self)).

End pipeline.
End SurvivalCreditModel.
(** ** Specification-side definitions *)

(** The errors [_check_data_quality] records: one entry per kind of negative
    value found, and nothing that depends on a balance. *)
Definition quality_errors (rows : list FlowRecord) : list message :=
  (if existsb (λ r, bool_decide (month_on_book r < 0)) rows
   then [NegativeMonth] else [])
  ++ (if existsb (λ r, ltb (payments r) zero) rows
      then [NegativePayments] else [])
  ++ (if existsb (λ r, ltb (chargeoffs r) zero) rows
      then [NegativeChargeoffs] else []).


(** [lo] is the least known age of [rates]. *)
Definition min_age (rates : gmap Z num) (lo : Z) : Prop :=
  is_Some (rates !! lo) ∧ ∀ k, is_Some (rates !! k) → lo ≤ k.

(** [hi] is the greatest known age of [rates]. *)
Definition max_age (rates : gmap Z num) (hi : Z) : Prop :=
  is_Some (rates !! hi) ∧ ∀ k, is_Some (rates !! k) → k ≤ hi.


(** The estimator [self] holds the rate dictionary [rates] for the kind
    [kind], as it does for "payment" and "chargeoff" once fitted. *)
Definition stores_curve (self : HazardRateEstimator.t) (kind : string)
    (rates : gmap Z num) : Prop :=
  HazardRateEstimator.hazard_curves self !! (kind +:+ "_hazard")%string
  = Some (Rates rates).

(** The known ages of a training table: its distinct ages, ascending. *)
Definition ages (df : FlowTable) : list Z :=
  merge_sort Z.le (unique (month_on_book <$> df)).

(** The sum of a column over the rows of age [k], whatever their segment. *)
Definition age_sum (col : FlowRecord → num) (df : FlowTable) (k : Z) : num :=
  Num.sum (col <$> filter (λ r, month_on_book r = k) df).

(** The raw rates of a training table, one per known age and in the order
    of [ages]: summed flow over summed balance, a missing quotient replaced
    by zero. *)
Definition raw_rates (flow : FlowRecord → num) (df : FlowTable) : list num :=
  (λ k, fillna0 (div (age_sum flow df k) (age_sum outstanding_balance df k)))
  <$> ages df.

(** The positions of the centered window of width [w] around position [i]
    in a series of [n] values: at most [w `div` 2] positions before [i] and
    [(w - 1) `div` 2] after it, cut at the ends of the series. *)
Definition window_start (w i : Z) : Z := Z.max 0 (i - w `div` 2).
Definition window_end (w n i : Z) : Z := Z.min n (i + (w - 1) `div` 2 + 1).

(** The values of [xs] in the centered window of width [w] around position
    [i]. *)
Definition window (w : Z) (xs : list num) (i : Z) : list num :=
  slice (window_start w i) (window_end w (Z.of_nat (length xs)) i) xs.

(** The weight of a midpoint. *)
Definition half : num := lit 1 2.

(** The plain average: the total over the number of samples. *)
Definition average (l : list num) : num :=
  div (foldl add zero l) (of_nat (length l)).

(** The rate dictionaries [fit] stores. *)
Definition fitted_rates (flow : FlowRecord → num) (w : Z) (df : FlowTable)
    : gmap Z num :=
  dict_zip (ages df) (HazardRateEstimator.smooth w (raw_rates flow df)).


(** The estimator holds a rate dictionary for both kinds, as it does once
    [fit] has run. *)
Definition trained (est : HazardRateEstimator.t) : Prop :=
  ∃ rates_p rates_c,
    stores_curve est "payment" rates_p ∧ stores_curve est "chargeoff" rates_c.

(** The comparison entry [c] is the one of the row [r]: expected rates from
    the estimator at the row's age, actual rates amount over balance, and
    variances actual minus expected. *)
Definition compares (est : HazardRateEstimator.t) (r : FlowRecord)
    (c : Comparison) : Prop :=
  c_month_on_book c = month_on_book r
  ∧ HazardRateEstimator.get_hazard_rate est (month_on_book r) "payment"
    = Ok (expected_payment_rate c)
  ∧ HazardRateEstimator.get_hazard_rate est (month_on_book r) "chargeoff"
    = Ok (expected_chargeoff_rate c)
  ∧ actual_payment_rate c = div (payments r) (outstanding_balance r)
  ∧ actual_chargeoff_rate c = div (chargeoffs r) (outstanding_balance r)
  ∧ payment_variance c
    = sub (actual_payment_rate c) (expected_payment_rate c)
  ∧ chargeoff_variance c
    = sub (actual_chargeoff_rate c) (expected_chargeoff_rate c).

(** The warnings a comparison entry calls for: one for a payment variance
    beyond 0.05 in absolute value, one for a chargeoff variance beyond
    0.02. *)
Definition row_warnings (c : Comparison) : list variance_warning :=
  (if gtb (abs (payment_variance c)) (lit 5 100)
   then [LargePaymentVariance (c_month_on_book c) (payment_variance c)]
   else [])
  ++ (if gtb (abs (chargeoff_variance c)) (lit 2 100)
      then [LargeChargeoffVariance (c_month_on_book c) (chargeoff_variance c)]
      else []).

(** Ascending age. *)
Definition age_le (r r' : ForecastRecord) : Prop :=
  f_month_on_book r ≤ f_month_on_book r'.

(** The running balance after a forecast row: what is left of its balance,
    not below zero. *)
Definition ending_balance (r : ForecastRecord) : num :=
  max0 (sub (sub (f_outstanding_balance r) (f_payments r)) (f_chargeoffs r)).

(** The rows [gen] carry the running balance forward from [b]: each row
    starts from what the row before it left. *)
Fixpoint chained (b : num) (gen : list ForecastRecord) : Prop :=
  match gen with
  | [] => True
  | r :: gen' => f_outstanding_balance r = b ∧ chained (ending_balance r) gen'
  end.

(** The running balance once the rows [gen] are emitted. *)
Definition final_balance (b : num) (gen : list ForecastRecord) : num :=
  match last gen with Some r => ending_balance r | None => b end.

(** A generated row: flagged [Forecast], of the segment [seg], emitted with
    a balance that is not at or below the floor, its flows the balance times
    the rates of the curve at its age. *)
Definition generated_row (est : HazardRateEstimator.t) (seg : string)
    (r : ForecastRecord) : Prop :=
  forecast_flag r = Forecast
  ∧ f_segment_id r = seg
  ∧ leb (f_outstanding_balance r) ForecastGenerator.floor = false
  ∧ ∃ p c,
      HazardRateEstimator.get_hazard_rate est (f_month_on_book r) "payment"
      = Ok p
      ∧ HazardRateEstimator.get_hazard_rate est (f_month_on_book r) "chargeoff"
        = Ok c
      ∧ f_payments r = mul (f_outstanding_balance r) p
      ∧ f_chargeoffs r = mul (f_outstanding_balance r) c.

(** The rows of an output flagged [Forecast]. *)
Definition forecast_part (out : list ForecastRecord) : list ForecastRecord :=
  filter (λ r, forecast_flag r = Forecast) out.

(** Every rate the estimator returns is non-negative. *)
Definition nonnegative_rates (est : HazardRateEstimator.t) : Prop :=
  ∀ age kind r,
    HazardRateEstimator.get_hazard_rate est age kind = Ok r →
    leb zero r = true.

(** ** Example inputs *)

(** Two rows of one segment whose balance is zero. *)
Definition zero_balance_frame : DataFrame :=
  {| df_columns := all_columns;
     df_rows := [row "X" 0 (of_Z 0) (of_Z 100) (of_Z 0);
                 row "X" 1 (of_Z 0) (of_Z 0) (of_Z 0)] |}.


(** Two segments observed at ages 0 and 1, one of them again at age 3.  At
    age 0 the balances sum to 2000 and the payments to 100. *)
Definition two_segments : FlowTable :=
  [row "A" 0 (of_Z 1000) (of_Z 60) (of_Z 10);
   row "B" 0 (of_Z 1000) (of_Z 40) (of_Z 10);
   row "A" 1 (of_Z 900) (of_Z 45) (of_Z 9);
   row "B" 1 (of_Z 900) (of_Z 27) (of_Z 9);
   row "A" 3 (of_Z 800) (of_Z 16) (of_Z 8)].

(** The unsmoothed payment curve of [two_segments]. *)
Definition two_segments_payment_curve : gmap Z num :=
  <[3 := lit 1 50]> (<[1 := lit 1 25]> (<[0 := lit 1 20]> ∅)).

(** One row whose balance is zero and whose payments are not. *)
Definition zero_balance_training : FlowTable :=
  [row "X" 0 (of_Z 0) (of_Z 100) (of_Z 0)].

(** A training table whose first age has a zero balance and payments. *)
Definition zero_balance_first : FlowTable :=
  [row "X" 0 (of_Z 0) (of_Z 100) (of_Z 0);
   row "X" 1 (of_Z 1000) (of_Z 50) (of_Z 10);
   row "X" 2 (of_Z 900) (of_Z 27) (of_Z 9)].

(** A known-actuals table with a month whose balance is zero. *)
Definition paid_off_actuals : FlowTable :=
  [row "N" 0 (of_Z 1000) (of_Z 1000) (of_Z 0);
   row "N" 1 (of_Z 0) (of_Z 0) (of_Z 0)].

(** A known-actuals table of two months. *)
Definition two_months : FlowTable :=
  [row "N" 0 (of_Z 1000) (of_Z 150) (of_Z 10);
   row "N" 1 (of_Z 840) (of_Z 42) (of_Z 42)].

(** Known actuals whose first month has a credit balance and whose second
    month has drawn again. *)
Definition credit_then_draw : FlowTable :=
  [row "N" 0 (of_Z (-50)) (of_Z 0) (of_Z 0);
   row "N" 1 (of_Z 100) (of_Z 10) (of_Z 0)].

(** Known actuals that leave a little more than a cent. *)
Definition nearly_paid : FlowTable :=
  [row "N" 0 (of_Z 1) (lit 9899 10000) (of_Z 0)].

(** One segment observed at ages 0, 1 and 3, whose balance flow breaks
    after age 1. *)
Definition gappy_frame : DataFrame :=
  {| df_columns := all_columns;
     df_rows := [row "X" 0 (of_Z 1000) (of_Z 90) (of_Z 10);
                 row "X" 1 (of_Z 900) (of_Z 50) (of_Z 0);
                 row "X" 3 (of_Z 800) (of_Z 40) (of_Z 8)] |}.

(** ** Further specification-side definitions *)

(** The segments of a frame, in order of first appearance. *)
Definition segments (df : DataFrame) : list string :=
  unique (segment_id <$> df_rows df).

(** The rows of a segment in ascending age. *)
Definition segment_rows (s : string) (df : DataFrame) : list FlowRecord :=
  sort_values month_on_book (DataValidator.rows_of_segment s df).

(** The balance that [r] leaves is more than a cent away from the balance
    [r'] starts with. *)
Definition off_balance (r r' : FlowRecord) : Prop :=
  gtb (abs (sub (DataValidator.implied_next_balance r) (outstanding_balance r')))
      (lit 1 100) = true.

(** The first pair of neighbours of [l] that is off balance starts at a row
    of age [m]. *)
Definition first_break (l : list FlowRecord) (m : Z) : Prop :=
  ∃ (i : nat) r r',
    l !! i = Some r ∧ l !! S i = Some r' ∧ month_on_book r = m
    ∧ off_balance r r'
    ∧ ∀ (j : nat) r1 r2, (j < i)%nat → l !! j = Some r1 → l !! S j = Some r2 →
        ¬ off_balance r1 r2.

Definition is_flow_warning (w : message) : Prop :=
  match w with BalanceFlowInconsistency _ _ => True | _ => False end.

Global Instance is_flow_warning_dec (w : message) : Decision (is_flow_warning w).
Proof. destruct w; simpl; apply _. Defined.

(** The ages a segment skips: those strictly between two observed ages of
    the segment that no row of the segment has. *)
Definition skipped_age (s : string) (df : DataFrame) (m : Z) : Prop :=
  (∃ r r', r ∈ DataValidator.rows_of_segment s df
           ∧ r' ∈ DataValidator.rows_of_segment s df
           ∧ month_on_book r < m < month_on_book r')
  ∧ ∀ r, r ∈ DataValidator.rows_of_segment s df → month_on_book r ≠ m.

(** The warning of a segment about its balance flow, if any. *)
Definition flow_warning (df : DataFrame) (s : string) : option message :=
  BalanceFlowInconsistency s <$> DataValidator.first_inconsistency (segment_rows s df).

(** The ages missing between the least and greatest age of a segment, as
    [_check_completeness] lists them. *)
Definition missing_months (df : DataFrame) (s : string) : list Z :=
  let months := merge_sort Z.le (unique (month_on_book <$> DataValidator.rows_of_segment s df)) in
  match series_min months, series_max months with
  | Some lo, Some hi => filter (λ m, m ∉ months) (range lo (hi + 1))
  | _, _ => []
  end.

Definition gap_warning (df : DataFrame) (s : string) : option message :=
  match missing_months df s with
  | [] => None
  | ms => Some (MissingMonths s ms)
  end.


(** A row of finite amounts whose balance is not zero. *)
Definition finite_row (r : FlowRecord) : Prop :=
  match payments r, chargeoffs r, outstanding_balance r with
  | Fin _, Fin _, Fin b => b ≠ 0%Qc
  | _, _, _ => False
  end.

Global Instance finite_row_dec (r : FlowRecord) : Decision (finite_row r).
Proof. unfold finite_row. repeat case_match; apply _. Defined.

(** The warnings of the range checks, in the order [_check_data_quality]
    appends them. *)
Definition quality_warnings (rows : list FlowRecord) : list message :=
  (if existsb (λ r, leb (outstanding_balance r) zero) rows
   then [NonPositiveBalance] else [])
  ++ (if existsb (λ r, gtb (div (payments r) (outstanding_balance r)) one) rows
      then [PaymentRateOver] else [])
  ++ (if existsb (λ r, gtb (div (chargeoffs r) (outstanding_balance r)) one) rows
      then [ChargeoffRateOver] else []).

(** A row of finite amounts whose payments and chargeoffs are not negative
    and whose balance is positive. *)
Definition sound_row (r : FlowRecord) : Prop :=
  match payments r, chargeoffs r, outstanding_balance r with
  | Fin a, Fin c, Fin b => (0 ≤ a)%Qc ∧ (0 ≤ c)%Qc ∧ (0 < b)%Qc
  | _, _, _ => False
  end.

Global Instance sound_row_dec (r : FlowRecord) : Decision (sound_row r).
Proof. unfold sound_row. repeat case_match; apply _. Defined.

(** Finite values that are not negative. *)
Definition fin_nonneg (x : num) : Prop := ∃ q, x = Fin q ∧ (0 ≤ q)%Qc.

(** [l] holds the rows of segment [s] in ascending age: any order that
    [sort_values('month_on_book')] may give them. *)
Definition ascending_rows (s : string) (df : DataFrame) (l : list FlowRecord)
    : Prop :=
  l ≡ₚ DataValidator.rows_of_segment s df
  ∧ StronglySorted (λ r r', month_on_book r ≤ month_on_book r') l.

(** No segment of the frame has two rows of the same age. *)
Definition one_row_per_age (df : DataFrame) : Prop :=
  ∀ s, NoDup (month_on_book <$> DataValidator.rows_of_segment s df).
Example div_100_2000 : div (of_Z 100) (of_Z 2000) = lit 5 100.
Proof. compute_done. Qed.


(** ** Properties of the validator *)

Section validator_facts.
Import DataValidator.

Lemma foldl_invariant {A B} (P : A → Prop) (f : A → B → A) (l : list B) (a : A) :
  (∀ a b, P a → P (f a b)) → P a → P (foldl f a l).
Proof.
  intros Hstep. revert a.
  induction l as [|b l IH]; intros a Ha; simpl; [done|].
  apply IH, Hstep, Ha.
Qed.

Lemma series_min_spec (l : list Z) (m : Z) :
  series_min l = Some m → m ∈ l ∧ ∀ x, x ∈ l → m ≤ x.
Proof.
  destruct l as [|x l]; [done|]. simpl. intros [= <-].
  revert x. induction l as [|y l IH]; intros x; simpl.
  - split; [by left|]. intros z Hz. apply list_elem_of_singleton in Hz. lia.
  - destruct (IH (Z.min x y)) as [Hin Hle]. split.
    + apply elem_of_cons in Hin as [Heq|Hin]; [|by do 2 right].
      rewrite Heq. destruct (Z.min_spec x y) as [[_ ->]|[_ ->]];
        [left|right; left].
    + intros z Hz. pose proof (Hle (Z.min x y) ltac:(by left)).
      apply elem_of_cons in Hz as [->|Hz]; [lia|].
      apply elem_of_cons in Hz as [->|Hz]; [lia|].
      apply Hle. by right.
Qed.

Lemma series_max_spec (l : list Z) (m : Z) :
  series_max l = Some m → m ∈ l ∧ ∀ x, x ∈ l → x ≤ m.
Proof.
  destruct l as [|x l]; [done|]. simpl. intros [= <-].
  revert x. induction l as [|y l IH]; intros x; simpl.
  - split; [by left|]. intros z Hz. apply list_elem_of_singleton in Hz. lia.
  - destruct (IH (Z.max x y)) as [Hin Hle]. split.
    + apply elem_of_cons in Hin as [Heq|Hin]; [|by do 2 right].
      rewrite Heq. destruct (Z.max_spec x y) as [[_ ->]|[_ ->]];
        [right; left|left].
    + intros z Hz. pose proof (Hle (Z.max x y) ltac:(by left)).
      apply elem_of_cons in Hz as [->|Hz]; [lia|].
      apply elem_of_cons in Hz as [->|Hz]; [lia|].
      apply Hle. by right.
Qed.

(** The test [df['month_on_book'].min() < 0] holds exactly when some row has
    a negative age. *)
Lemma min_negative_iff (rows : list FlowRecord) :
  match series_min (month_on_book <$> rows) with
  | Some m => bool_decide (m < 0)
  | None => false
  end = true ↔ ∃ r, r ∈ rows ∧ month_on_book r < 0.
Proof.
  destruct (series_min (month_on_book <$> rows)) as [m|] eqn:Hm.
  - apply series_min_spec in Hm as [Hin Hle].
    rewrite bool_decide_eq_true. split.
    + intros Hneg. apply list_elem_of_fmap in Hin as (r & -> & Hr). eauto.
    + intros (r & Hr & Hneg).
      pose proof (Hle (month_on_book r) ltac:(by apply list_elem_of_fmap_2)).
      lia.
  - destruct rows; [|done]. split; [done|].
    intros (r & Hr & _). by apply elem_of_nil in Hr.
Qed.

Lemma existsb_elem_of {A} (p : A → bool) (l : list A) :
  existsb p l = true ↔ ∃ x, x ∈ l ∧ p x = true.
Proof.
  rewrite existsb_exists. setoid_rewrite list_elem_of_In. done.
Qed.

Lemma business_logic_keeps (df : DataFrame) (r : ValidationResult) :
  valid (_check_business_logic df r) = valid r
  ∧ errors (_check_business_logic df r) = errors r.
Proof.
  unfold _check_business_logic.
  apply (foldl_invariant (λ x, valid x = valid r ∧ errors x = errors r));
    [|done].
  intros a s Ha. by destruct (first_inconsistency _).
Qed.

Lemma completeness_keeps (df : DataFrame) (r : ValidationResult) :
  valid (_check_completeness df r) = valid r
  ∧ errors (_check_completeness df r) = errors r.
Proof.
  unfold _check_completeness.
  apply (foldl_invariant (λ x, valid x = valid r ∧ errors x = errors r));
    [|done].
  intros a s Ha. unfold when.
  repeat case_match; done.
Qed.

Lemma data_quality_result (df : DataFrame) (r : ValidationResult) :
  valid (_check_data_quality df r) = valid r
  ∧ errors (_check_data_quality df r) = errors r ++ quality_errors (df_rows df).
Proof.
  unfold _check_data_quality, quality_errors, when.
  assert (Hmin :
    match series_min (month_on_book <$> df_rows df) with
    | Some m => bool_decide (m < 0) | None => false end
    = existsb (λ r, bool_decide (month_on_book r < 0)) (df_rows df)).
  { apply eq_true_iff_eq. rewrite min_negative_iff, existsb_elem_of.
    by setoid_rewrite bool_decide_eq_true. }
  rewrite Hmin.
  repeat match goal with
         | |- context [if existsb ?p ?l then _ else _] => destruct (existsb p l)
         end; simpl; rewrite <- ?app_assoc, ?app_nil_r; done.
Qed.

Lemma required_columns_present (df : DataFrame) :
  REQUIRED_COLUMNS ⊆ df_columns df →
  filter (λ c, c ∉ df_columns df) REQUIRED_COLUMNS = [].
Proof.
  intros Hsub. induction REQUIRED_COLUMNS as [|c cs IH]; [done|].
  rewrite filter_cons. destruct (decide (c ∉ df_columns df)) as [Hc|_].
  - destruct Hc. apply Hsub. by left.
  - apply IH. intros x Hx. apply Hsub. by right.
Qed.

(** The later checks only add warnings. *)
Lemma business_logic_warnings (df : DataFrame) (r : ValidationResult) (m : message) :
  m ∈ warnings r → m ∈ warnings (_check_business_logic df r).
Proof.
  intros Hm. unfold _check_business_logic.
  apply (foldl_invariant (λ x, m ∈ warnings x)); [|done].
  intros a s Ha. destruct (first_inconsistency _); [|done].
  simpl. apply elem_of_app. by left.
Qed.

Lemma completeness_warnings (df : DataFrame) (r : ValidationResult) (m : message) :
  m ∈ warnings r → m ∈ warnings (_check_completeness df r).
Proof.
  intros Hm. unfold _check_completeness.
  apply (foldl_invariant (λ x, m ∈ warnings x)); [|done].
  intros a s Ha. unfold when.
  repeat case_match; try done. simpl. apply elem_of_app. by left.
Qed.

Lemma data_quality_balance_warning (df : DataFrame) (r : ValidationResult) :
  (∃ x, x ∈ df_rows df ∧ leb (outstanding_balance x) zero = true) →
  NonPositiveBalance ∈ warnings (_check_data_quality df r).
Proof.
  intros Hex. apply existsb_elem_of in Hex.
  unfold _check_data_quality, when. rewrite Hex.
  assert (Hkeep : ∀ (c : bool) m x,
            NonPositiveBalance ∈ warnings x →
            NonPositiveBalance ∈ warnings (if c then append_warning m x else x)).
  { intros [] m x Hx; [|done]. simpl. apply elem_of_app. by left. }
  assert (Hkeep' : ∀ (c : bool) m x,
            NonPositiveBalance ∈ warnings x →
            NonPositiveBalance ∈ warnings (if c then append_error m x else x)).
  { by intros [] m x Hx. }
  apply Hkeep, Hkeep, Hkeep', Hkeep'. simpl.
  apply elem_of_app. right. by left.
Qed.

Lemma validate_data_balance_warning (df : DataFrame) :
  REQUIRED_COLUMNS ⊆ df_columns df →
  (∃ x, x ∈ df_rows df ∧ leb (outstanding_balance x) zero = true) →
  NonPositiveBalance ∈ warnings (validate_data df).
Proof.
  intros Hcols Hex. unfold validate_data.
  rewrite required_columns_present by done.
  rewrite bool_decide_eq_false_2 by (by intros []).
  by apply completeness_warnings, business_logic_warnings,
    data_quality_balance_warning.
Qed.

Lemma validate_data_with_columns (df : DataFrame) :
  REQUIRED_COLUMNS ⊆ df_columns df →
  valid (validate_data df) = true
  ∧ errors (validate_data df) = quality_errors (df_rows df).
Proof.
  intros Hcols. unfold validate_data.
  rewrite required_columns_present by done.
  rewrite bool_decide_eq_false_2 by (by intros []).
  destruct (completeness_keeps df
    (_check_business_logic df (_check_data_quality df
       {| valid := true; errors := []; warnings := [] |}))) as [-> ->].
  destruct (business_logic_keeps df (_check_data_quality df
       {| valid := true; errors := []; warnings := [] |})) as [-> ->].
  destruct (data_quality_result df
       {| valid := true; errors := []; warnings := [] |}) as [-> ->].
  done.
Qed.

Lemma quality_errors_cause (rows : list FlowRecord) (m : message) :
  m ∈ quality_errors rows →
    (m = NegativeMonth ∧ ∃ r, r ∈ rows ∧ month_on_book r < 0)
  ∨ (m = NegativePayments ∧ ∃ r, r ∈ rows ∧ ltb (payments r) zero = true)
  ∨ (m = NegativeChargeoffs ∧ ∃ r, r ∈ rows ∧ ltb (chargeoffs r) zero = true).
Proof.
  unfold quality_errors. rewrite !elem_of_app.
  intros [Hm|[Hm|Hm]];
    match type of Hm with
    | _ ∈ (if existsb ?p ?l then _ else _) =>
        destruct (existsb p l) eqn:Hex;
          [apply list_elem_of_singleton in Hm as ->
          |by apply elem_of_nil in Hm]
    end;
    apply existsb_elem_of in Hex as (r & Hr & Hp).
  - left. split; [done|]. exists r. by apply bool_decide_eq_true in Hp.
  - right; left. eauto.
  - right; right. eauto.
Qed.

End validator_facts.

(** C1.  On the table of the repository's own negative-payment test (one row
    of segment "test", age 0, balance 1000, payments -100, chargeoffs 10)
    [validate_data] records "Negative payments detected" among the errors
    and still answers [valid = True]: only the missing-column path ever
    clears the flag. *)
Theorem validate_data_negative_payment_stays_valid :
  DataValidator.validate_data
    {| df_columns := all_columns;
       df_rows := [row "test" 0 (of_Z 1000) (of_Z (-100)) (of_Z 10)] |}
  = {| valid := true; errors := [NegativePayments]; warnings := [] |}.
Proof. compute_done. Qed.

(** C10.  On a frame that has the five required columns [validate_data]
    returns its result whatever the balances are: the rate checks divide
    column by column, which yields infinities and NaN and raises nothing.
    The errors recorded are those of [quality_errors], which does not read
    a balance, so every entry of the error list is caused by a negative age,
    payment or chargeoff; a row whose balance is zero (or negative) shows up
    as the warning "Zero or negative outstanding_balance detected". *)
Theorem validate_data_total_on_zero_balance (df : DataFrame) :
  DataValidator.REQUIRED_COLUMNS ⊆ df_columns df →
  ∃ res, DataValidator.validate_data df = res
    ∧ errors res = quality_errors (df_rows df)
    ∧ (∀ m, m ∈ errors res →
        (m = NegativeMonth ∧ ∃ r, r ∈ df_rows df ∧ month_on_book r < 0)
      ∨ (m = NegativePayments
         ∧ ∃ r, r ∈ df_rows df ∧ ltb (payments r) zero = true)
      ∨ (m = NegativeChargeoffs
         ∧ ∃ r, r ∈ df_rows df ∧ ltb (chargeoffs r) zero = true))
    ∧ ((∃ r, r ∈ df_rows df ∧ outstanding_balance r = zero) →
       NonPositiveBalance ∈ warnings res).
Proof.
  intros Hcols. eexists. split; [done|].
  destruct (validate_data_with_columns df Hcols) as [_ Herr].
  split; [done|]. split.
  - intros m. rewrite Herr. apply quality_errors_cause.
  - intros (r & Hr & Hz). apply validate_data_balance_warning; [done|].
    exists r. split; [done|]. by rewrite Hz.
Qed.

Lemma validate_data_total_on_zero_balance_witness :
  ∃ res, DataValidator.validate_data zero_balance_frame = res
    ∧ errors res = []
    ∧ NonPositiveBalance ∈ warnings res.
Proof.
  destruct (validate_data_total_on_zero_balance zero_balance_frame)
    as (res & Hres & Herr & _ & Hwarn).
  - vm_compute. intros x Hx. exact Hx.
  - exists res. split; [exact Hres|]. split; [exact Herr|].
    apply Hwarn. eexists. split; [left|].
    apply (bool_decide_unpack _). vm_compute. exact I.
Defined.

Example validate_zero_balance_frame :
  DataValidator.validate_data zero_balance_frame
  = {| valid := true; errors := [];
       warnings := [NonPositiveBalance; PaymentRateOver;
                    BalanceFlowInconsistency "X" 0] |}.
Proof. compute_done. Qed.

(** ** Properties of the call order and of rate queries *)

Section string_facts.

Lemma list_ascii_of_string_app (s t : string) :
  list_ascii_of_string (s +:+ t)
  = list_ascii_of_string s ++ list_ascii_of_string t.
Proof. induction s as [|a s IH]; simpl; [done|]. by rewrite IH. Qed.

Lemma list_ascii_of_string_inj (s t : string) :
  list_ascii_of_string s = list_ascii_of_string t → s = t.
Proof.
  intros H. rewrite <- (string_of_list_ascii_of_string s),
    <- (string_of_list_ascii_of_string t). by rewrite H.
Qed.

(** Appending a suffix is injective. *)
Lemma append_suffix_inj (s1 s2 t : string) :
  s1 +:+ t = s2 +:+ t → s1 = s2.
Proof.
  intros H. apply list_ascii_of_string_inj.
  apply (f_equal list_ascii_of_string) in H.
  rewrite !list_ascii_of_string_app in H.
  by apply app_inv_tail in H.
Qed.

(** No string ends both in "_hazard" and in "_data". *)
Lemma hazard_key_not_training_data (s : string) :
  s +:+ "_hazard" ≠ "training_data".
Proof.
  intros H. apply (f_equal list_ascii_of_string) in H.
  rewrite list_ascii_of_string_app in H.
  apply (f_equal (@rev _)) in H. rewrite rev_app_distr in H.
  simpl in H. discriminate H.
Qed.

End string_facts.

Section estimator_facts.
Import HazardRateEstimator.

Lemma fit_curves_nonempty (self : t) (df : FlowTable) :
  hazard_curves (fit self df).1 ≠ ∅.
Proof.
  simpl. intros H.
  apply (f_equal (λ m, m !! "training_data"%string)) in H.
  by rewrite lookup_insert_eq, lookup_empty in H.
Qed.

(** What [fit] stores under each key of [hazard_curves]. *)
Lemma fit_curves_lookup (self : t) (df : FlowTable) (key : string) :
  hazard_curves (fit self df).1 !! key =
    let agg_df := make_agg_df (smoothing_window self) df in
    if decide (key = "training_data"%string) then Some (Frame agg_df)
    else if decide (key = "chargeoff_hazard"%string) then
      Some (Rates (dict_zip (agg_month_on_book <$> agg_df)
                            (chargeoff_hazard_rate_smoothed <$> agg_df)))
    else if decide (key = "payment_hazard"%string) then
      Some (Rates (dict_zip (agg_month_on_book <$> agg_df)
                            (payment_hazard_rate_smoothed <$> agg_df)))
    else None.
Proof.
  simpl. repeat case_decide; subst; simplify_map_eq; done.
Qed.

Lemma get_hazard_rate_unfitted (w : Z) (month : Z) (hazard_type : string) :
  get_hazard_rate (__init__ w) month hazard_type = Raise NotFitted.
Proof. done. Qed.

Lemma get_hazard_rate_invalid_kind (self : t) (df : FlowTable) (month : Z)
    (hazard_type : string) :
  hazard_type ≠ "payment"%string → hazard_type ≠ "chargeoff"%string →
  get_hazard_rate (fit self df).1 month hazard_type
  = Raise (InvalidKind hazard_type).
Proof.
  intros Hp Hc. unfold get_hazard_rate.
  rewrite bool_decide_eq_false_2 by apply fit_curves_nonempty.
  rewrite fit_curves_lookup. cbv zeta.
  rewrite decide_False by apply hazard_key_not_training_data.
  rewrite decide_False
    by (intros H; by apply (append_suffix_inj _ "chargeoff" "_hazard") in H).
  rewrite decide_False
    by (intros H; by apply (append_suffix_inj _ "payment" "_hazard") in H).
  done.
Qed.

(** After [fit] the two recognised kinds reach their rate dictionary. *)
Lemma get_hazard_rate_fitted_payment (self : t) (df : FlowTable) (month : Z) :
  get_hazard_rate (fit self df).1 month "payment"
  = let agg_df := make_agg_df (smoothing_window self) df in
    rate_at (dict_zip (agg_month_on_book <$> agg_df)
                      (payment_hazard_rate_smoothed <$> agg_df)) month.
Proof.
  unfold get_hazard_rate.
  rewrite bool_decide_eq_false_2 by apply fit_curves_nonempty.
  by rewrite fit_curves_lookup.
Qed.

Lemma get_hazard_rate_fitted_chargeoff (self : t) (df : FlowTable) (month : Z) :
  get_hazard_rate (fit self df).1 month "chargeoff"
  = let agg_df := make_agg_df (smoothing_window self) df in
    rate_at (dict_zip (agg_month_on_book <$> agg_df)
                      (chargeoff_hazard_rate_smoothed <$> agg_df)) month.
Proof.
  unfold get_hazard_rate.
  rewrite bool_decide_eq_false_2 by apply fit_curves_nonempty.
  by rewrite fit_curves_lookup.
Qed.

End estimator_facts.

(** C3.  [forecast] on a pipeline that is not trained raises the
    not-trained error whatever the known actuals, origination amount and
    horizon are; [get_hazard_rate] on an estimator on which [fit] was never
    called raises the not-fitted error at every age and kind; and after
    [fit], [get_hazard_rate] with a kind other than "payment" and
    "chargeoff" raises the invalid-kind error.  A raised call has no
    output. *)
Theorem out_of_order_calls_raise :
  (∀ np_sqrt self known_actuals origination_amount max_month,
     SurvivalCreditModel.is_trained self = false →
     SurvivalCreditModel.forecast np_sqrt self known_actuals
       origination_amount max_month = Raise NotTrained)
  ∧ (∀ w month hazard_type,
       HazardRateEstimator.get_hazard_rate (HazardRateEstimator.__init__ w)
         month hazard_type = Raise NotFitted)
  ∧ (∀ self df month hazard_type,
       hazard_type ≠ "payment"%string → hazard_type ≠ "chargeoff"%string →
       HazardRateEstimator.get_hazard_rate
         (HazardRateEstimator.fit self df).1 month hazard_type
       = Raise (InvalidKind hazard_type)).
Proof.
  split; [|split].
  - intros np_sqrt self ka oa mm Hu. unfold SurvivalCreditModel.forecast.
    by rewrite Hu.
  - apply get_hazard_rate_unfitted.
  - apply get_hazard_rate_invalid_kind.
Qed.

Lemma out_of_order_calls_raise_witness :
  SurvivalCreditModel.forecast (λ x, x) (SurvivalCreditModel.__init__ 3)
    {| df_columns := all_columns; df_rows := two_months |} (of_Z 1000) 60
  = Raise NotTrained
  ∧ HazardRateEstimator.get_hazard_rate (HazardRateEstimator.__init__ 3)
      0 "payment" = Raise NotFitted
  ∧ HazardRateEstimator.get_hazard_rate
      (HazardRateEstimator.fit (HazardRateEstimator.__init__ 3)
         two_segments).1 0 "prepayment"
    = Raise (InvalidKind "prepayment").
Proof.
  destruct out_of_order_calls_raise as (Hforecast & Hunfitted & Hkind).
  split; [|split].
  - apply Hforecast. reflexivity.
  - apply Hunfitted.
  - apply Hkind; discriminate.
Defined.

Section rate_at_facts.
Import HazardRateEstimator.

Lemma py_min_is (l : list Z) (m : Z) :
  m ∈ l → (∀ x, x ∈ l → m ≤ x) → py_min l = Ok m.
Proof.
  intros Hin Hle. destruct l as [|x l]; [by apply elem_of_nil in Hin|].
  destruct (series_min_spec (x :: l) (foldl Z.min x l) eq_refl) as [Hin' Hle'].
  simpl. f_equal. apply Z.le_antisymm; [by apply Hle'|by apply Hle].
Qed.

Lemma py_max_is (l : list Z) (m : Z) :
  m ∈ l → (∀ x, x ∈ l → x ≤ m) → py_max l = Ok m.
Proof.
  intros Hin Hle. destruct l as [|x l]; [by apply elem_of_nil in Hin|].
  destruct (series_max_spec (x :: l) (foldl Z.max x l) eq_refl) as [Hin' Hle'].
  simpl. f_equal. apply Z.le_antisymm; [by apply Hle|by apply Hle'].
Qed.

(** [sorted(rates.keys())] lists exactly the known ages. *)
Lemma elem_of_available_months (rates : gmap Z num) (k : Z) :
  k ∈ merge_sort Z.le (elements (dom rates)) ↔ is_Some (rates !! k).
Proof. by rewrite merge_sort_Permutation, elem_of_elements, elem_of_dom. Qed.

Lemma available_months_min (rates : gmap Z num) (lo : Z) :
  min_age rates lo →
  py_min (merge_sort Z.le (elements (dom rates))) = Ok lo.
Proof.
  intros [Hin Hle]. apply py_min_is.
  - by apply elem_of_available_months.
  - intros x Hx. by apply Hle, elem_of_available_months.
Qed.

Lemma available_months_max (rates : gmap Z num) (hi : Z) :
  max_age rates hi →
  py_max (merge_sort Z.le (elements (dom rates))) = Ok hi.
Proof.
  intros [Hin Hle]. apply py_max_is.
  - by apply elem_of_available_months.
  - intros x Hx. by apply Hle, elem_of_available_months.
Qed.

(** A dictionary that has a key has a least and a greatest one. *)
Lemma min_age_exists (rates : gmap Z num) (k : Z) :
  is_Some (rates !! k) → ∃ lo, min_age rates lo.
Proof.
  intros Hk. apply elem_of_available_months in Hk.
  destruct (merge_sort Z.le (elements (dom rates))) as [|x l] eqn:Hl;
    [by apply elem_of_nil in Hk|].
  destruct (series_min_spec (x :: l) _ eq_refl) as [Hin Hle].
  exists (foldl Z.min x l). split.
  - apply elem_of_available_months. by rewrite Hl.
  - intros y Hy. apply Hle. rewrite <- Hl. by apply elem_of_available_months.
Qed.

Lemma max_age_exists (rates : gmap Z num) (k : Z) :
  is_Some (rates !! k) → ∃ hi, max_age rates hi.
Proof.
  intros Hk. apply elem_of_available_months in Hk.
  destruct (merge_sort Z.le (elements (dom rates))) as [|x l] eqn:Hl;
    [by apply elem_of_nil in Hk|].
  destruct (series_max_spec (x :: l) _ eq_refl) as [Hin Hle].
  exists (foldl Z.max x l). split.
  - apply elem_of_available_months. by rewrite Hl.
  - intros y Hy. apply Hle. rewrite <- Hl. by apply elem_of_available_months.
Qed.

Lemma available_months_cons (rates : gmap Z num) (k : Z) :
  is_Some (rates !! k) →
  ∃ x l, merge_sort Z.le (elements (dom rates)) = x :: l.
Proof.
  intros Hk. apply elem_of_available_months in Hk.
  destruct (merge_sort Z.le (elements (dom rates))) as [|x l];
    [by apply elem_of_nil in Hk|eauto].
Qed.

Lemma rate_at_known (rates : gmap Z num) (age : Z) (r : num) :
  rates !! age = Some r → rate_at rates age = Ok r.
Proof. intros H. unfold rate_at. by rewrite H. Qed.

Lemma rate_at_empty (age : Z) : rate_at ∅ age = Ok zero.
Proof. done. Qed.

Lemma rate_at_below (rates : gmap Z num) (age lo : Z) (r : num) :
  min_age rates lo → rates !! lo = Some r → age < lo →
  rate_at rates age = Ok r.
Proof.
  intros Hmin Hr Hlt. unfold rate_at.
  destruct (rates !! age) as [x|] eqn:Hage.
  { destruct Hmin as [_ Hle]. specialize (Hle age (mk_is_Some _ _ Hage)). lia. }
  destruct (available_months_cons rates lo) as (x & l & Hl); [by eexists|].
  destruct (max_age_exists rates lo) as [hi Hmax]; [by eexists|].
  rewrite (available_months_min _ _ Hmin), (available_months_max _ _ Hmax).
  rewrite Hl. simpl. rewrite bool_decide_eq_true_2 by done.
  unfold getitem. by rewrite Hr.
Qed.

Lemma rate_at_above (rates : gmap Z num) (age hi : Z) (r : num) :
  max_age rates hi → rates !! hi = Some r → hi < age →
  rate_at rates age = Ok r.
Proof.
  intros Hmax Hr Hlt. unfold rate_at.
  destruct (rates !! age) as [x|] eqn:Hage.
  { destruct Hmax as [_ Hle]. specialize (Hle age (mk_is_Some _ _ Hage)). lia. }
  destruct (available_months_cons rates hi) as (x & l & Hl); [by eexists|].
  destruct (min_age_exists rates hi) as [lo Hmin]; [by eexists|].
  rewrite (available_months_min _ _ Hmin), (available_months_max _ _ Hmax).
  rewrite Hl. simpl.
  assert (lo ≤ hi) by (destruct Hmin as [_ Hle]; apply Hle; by eexists).
  rewrite bool_decide_eq_false_2 by lia.
  rewrite bool_decide_eq_true_2 by done.
  unfold getitem. by rewrite Hr.
Qed.

(** Between two neighbouring known ages the rate is interpolated. *)
Lemma rate_at_between (rates : gmap Z num) (age lo hi : Z) (r_lo r_hi : num) :
  rates !! lo = Some r_lo → rates !! hi = Some r_hi →
  lo < age < hi →
  (∀ k, lo < k < hi → rates !! k = None) →
  rate_at rates age
  = Ok (let weight := div (of_Z (age - lo)) (of_Z (hi - lo)) in
        add (mul r_lo (sub one weight)) (mul r_hi weight)).
Proof.
  intros Hlo Hhi Hage Hgap. unfold rate_at.
  rewrite (Hgap age Hage).
  destruct (available_months_cons rates lo) as (x & l & Hl); [by eexists|].
  destruct (min_age_exists rates lo) as [mn Hmin]; [by eexists|].
  destruct (max_age_exists rates lo) as [mx Hmax]; [by eexists|].
  rewrite (available_months_min _ _ Hmin), (available_months_max _ _ Hmax).
  rewrite Hl. simpl. rewrite <- Hl.
  assert (mn ≤ lo) by (destruct Hmin as [_ Hm]; apply Hm; by eexists).
  assert (hi ≤ mx) by (destruct Hmax as [_ Hm]; apply Hm; by eexists).
  rewrite !bool_decide_eq_false_2 by lia.
  assert (Hkey : ∀ k, is_Some (rates !! k) → k ≤ lo ∨ hi ≤ k).
  { intros k [v Hk]. destruct (decide (k ≤ lo)); [by left|right].
    destruct (decide (hi ≤ k)); [done|].
    rewrite Hgap in Hk by lia. done. }
  rewrite (py_max_is _ lo); cycle 1.
  { apply list_elem_of_filter. split; [lia|].
    apply elem_of_available_months. by eexists. }
  { intros k [Hk1 Hk2]%list_elem_of_filter.
    apply elem_of_available_months, Hkey in Hk2. lia. }
  simpl.
  rewrite (py_min_is _ hi); cycle 1.
  { apply list_elem_of_filter. split; [lia|].
    apply elem_of_available_months. by eexists. }
  { intros k [Hk1 Hk2]%list_elem_of_filter.
    apply elem_of_available_months, Hkey in Hk2. lia. }
  simpl. rewrite bool_decide_eq_false_2 by lia.
  unfold py_div. rewrite bool_decide_eq_false_2; cycle 1.
  { unfold of_Z, zero. intros H'.
    assert (Hz : Qc_of_Z (hi - lo) = 0%Qc) by congruence.
    rewrite <- Z2Qc_inj_0 in Hz. apply Z2Qc_inj in Hz. lia. }
  simpl. unfold getitem. by rewrite Hlo, Hhi.
Qed.

Lemma midpoint_weight (age lo hi : Z) :
  lo < hi → 2 * age = lo + hi →
  div (of_Z (age - lo)) (of_Z (hi - lo)) = half.
Proof.
  intros Hlt Hmid. unfold div, of_Z, half, lit.
  assert (hi - lo = 2 * (age - lo)) as -> by lia.
  assert (Hne : Qc_of_Z (age - lo) ≠ 0%Qc).
  { rewrite <- Z2Qc_inj_0. intros H'%Z2Qc_inj. lia. }
  rewrite Z2Qc_inj_mul.
  rewrite decide_False; cycle 1.
  { intros H'. apply Qcmult_integral in H' as [H'|H']; [|done].
    by rewrite <- Z2Qc_inj_0 in H'; apply Z2Qc_inj in H'. }
  f_equal.
  assert (Q2Qc (1 # 2) = (1 / Qc_of_Z 2)%Qc) as -> by (by apply Qc_is_canon).
  assert (Qc_of_Z 2 ≠ 0%Qc) by (by compute).
  by field.
Qed.

(** With weight one half the interpolation is the average of the two
    rates. *)
Lemma interpolate_half (r_lo r_hi : num) :
  add (mul r_lo (sub one half)) (mul r_hi half)
  = div (add r_lo r_hi) (of_Z 2).
Proof.
  assert (Hh : sub one half = half) by compute_done.
  rewrite Hh.
  assert (Hs : sign (Q2Qc (1 # 2)) = Gt) by done.
  assert (Hs2 : sign (Qc_of_Z 2) = Gt) by done.
  assert (H2 : Qc_of_Z 2 ≠ 0%Qc) by (by compute).
  destruct r_lo as [a| | |], r_hi as [b| | |];
    unfold half, lit, of_Z; simpl; rewrite ?Hs, ?Hs2; simpl;
    rewrite ?decide_False by done; try done.
  f_equal. assert (Q2Qc (1 # 2) = (1 / Qc_of_Z 2)%Qc) as ->
    by (by apply Qc_is_canon).
  field. done.
Qed.

End rate_at_facts.

Section curve_queries.
Import HazardRateEstimator.

Lemma get_hazard_rate_stored (self : t) (kind : string) (rates : gmap Z num)
    (age : Z) :
  stores_curve self kind rates →
  get_hazard_rate self age kind = rate_at rates age.
Proof.
  unfold stores_curve, get_hazard_rate. intros Hc.
  rewrite bool_decide_eq_false_2; [by rewrite Hc|].
  intros Hempty. by rewrite Hempty, lookup_empty in Hc.
Qed.

Lemma fit_stores_payment_curve (self : t) (df : FlowTable) :
  stores_curve (fit self df).1 "payment"
    (let agg_df := make_agg_df (smoothing_window self) df in
     dict_zip (agg_month_on_book <$> agg_df)
              (payment_hazard_rate_smoothed <$> agg_df)).
Proof. unfold stores_curve. by rewrite fit_curves_lookup. Qed.

Lemma fit_stores_chargeoff_curve (self : t) (df : FlowTable) :
  stores_curve (fit self df).1 "chargeoff"
    (let agg_df := make_agg_df (smoothing_window self) df in
     dict_zip (agg_month_on_book <$> agg_df)
              (chargeoff_hazard_rate_smoothed <$> agg_df)).
Proof. unfold stores_curve. by rewrite fit_curves_lookup. Qed.

(** The least and greatest known ages can be read off the sorted keys. *)
Lemma min_age_computed (rates : gmap Z num) (lo : Z) :
  py_min (merge_sort Z.le (elements (dom rates))) = Ok lo → min_age rates lo.
Proof.
  destruct (merge_sort Z.le (elements (dom rates))) as [|x l] eqn:Hl; [done|].
  intros [= <-].
  destruct (series_min_spec (x :: l) _ eq_refl) as [Hin Hle].
  split.
  - apply elem_of_available_months. by rewrite Hl.
  - intros k Hk. apply Hle. rewrite <- Hl. by apply elem_of_available_months.
Qed.

Lemma max_age_computed (rates : gmap Z num) (hi : Z) :
  py_max (merge_sort Z.le (elements (dom rates))) = Ok hi → max_age rates hi.
Proof.
  destruct (merge_sort Z.le (elements (dom rates))) as [|x l] eqn:Hl; [done|].
  intros [= <-].
  destruct (series_max_spec (x :: l) _ eq_refl) as [Hin Hle].
  split.
  - apply elem_of_available_months. by rewrite Hl.
  - intros k Hk. apply Hle. rewrite <- Hl. by apply elem_of_available_months.
Qed.

End curve_queries.

(** C4.  For an estimator that holds the rate dictionary [rates] for [kind]
    (as a fitted estimator does for both kinds), [get_hazard_rate] returns:
    the stored rate at a known age; the rate of the least known age below
    it and of the greatest known age above it; between two neighbouring
    known ages [lo < age < hi] the interpolation
    [r_lo * (1 - w) + r_hi * w] with [w = (age - lo) / (hi - lo)], which at
    the midpoint is the average of the two rates; and [0] at every age when
    the dictionary is empty. *)
Theorem get_hazard_rate_lookup_interpolation
    (self : HazardRateEstimator.t) (kind : string) (rates : gmap Z num) :
  stores_curve self kind rates →
  (∀ age r, rates !! age = Some r →
     HazardRateEstimator.get_hazard_rate self age kind = Ok r)
  ∧ (∀ age lo r, min_age rates lo → rates !! lo = Some r → age < lo →
     HazardRateEstimator.get_hazard_rate self age kind = Ok r)
  ∧ (∀ age hi r, max_age rates hi → rates !! hi = Some r → hi < age →
     HazardRateEstimator.get_hazard_rate self age kind = Ok r)
  ∧ (∀ age lo hi r_lo r_hi,
       rates !! lo = Some r_lo → rates !! hi = Some r_hi →
       lo < age < hi → (∀ k, lo < k < hi → rates !! k = None) →
       HazardRateEstimator.get_hazard_rate self age kind
       = Ok (let w := div (of_Z (age - lo)) (of_Z (hi - lo)) in
             add (mul r_lo (sub one w)) (mul r_hi w))
       ∧ (2 * age = lo + hi →
          HazardRateEstimator.get_hazard_rate self age kind
          = Ok (div (add r_lo r_hi) (of_Z 2))))
  ∧ (rates = ∅ →
     ∀ age, HazardRateEstimator.get_hazard_rate self age kind = Ok zero).
Proof.
  intros Hc. repeat split.
  - intros age r Hr. rewrite (get_hazard_rate_stored _ _ _ _ Hc).
    by apply rate_at_known.
  - intros age lo r Hmin Hr Hlt. rewrite (get_hazard_rate_stored _ _ _ _ Hc).
    by apply (rate_at_below rates age lo).
  - intros age hi r Hmax Hr Hlt. rewrite (get_hazard_rate_stored _ _ _ _ Hc).
    by apply (rate_at_above rates age hi).
  - rewrite (get_hazard_rate_stored _ _ _ _ Hc). by apply rate_at_between.
  - intros Hmid. rewrite (get_hazard_rate_stored _ _ _ _ Hc).
    rewrite (rate_at_between rates age lo hi r_lo r_hi) by done.
    cbv zeta. rewrite midpoint_weight by lia. by rewrite interpolate_half.
  - intros -> age. rewrite (get_hazard_rate_stored _ _ _ _ Hc).
    apply rate_at_empty.
Qed.

Lemma get_hazard_rate_lookup_interpolation_witness :
  let est := (HazardRateEstimator.fit (HazardRateEstimator.__init__ 1)
                two_segments).1 in
  HazardRateEstimator.get_hazard_rate est 1 "payment" = Ok (lit 1 25)
  ∧ HazardRateEstimator.get_hazard_rate est (-1) "payment" = Ok (lit 1 20)
  ∧ HazardRateEstimator.get_hazard_rate est 5 "payment" = Ok (lit 1 50)
  ∧ HazardRateEstimator.get_hazard_rate est 2 "payment"
    = Ok (div (add (lit 1 25) (lit 1 50)) (of_Z 2)).
Proof.
  intros est.
  assert (Hc : stores_curve est "payment" two_segments_payment_curve)
    by (unfold stores_curve; apply (bool_decide_unpack _); vm_compute;
        exact I).
  destruct (get_hazard_rate_lookup_interpolation est "payment"
              two_segments_payment_curve Hc) as (Hk & Hlo & Hhi & Hmid & _).
  split; [|split; [|split]].
  - apply Hk. reflexivity.
  - apply (Hlo (-1) 0); [by apply min_age_computed|reflexivity|lia].
  - apply (Hhi 5 3); [by apply max_age_computed|reflexivity|lia].
  - apply (Hmid 2 1 3); [reflexivity|reflexivity|lia| |lia].
    intros k Hk'. assert (k = 2) as -> by lia. reflexivity.
Defined.

(** ** Properties of [fit] *)

Section fit_facts.
Import HazardRateEstimator.

Lemma unique_spec {A} `{EqDecision A} (l : list A) :
  NoDup (unique l) ∧ ∀ x, x ∈ unique l ↔ x ∈ l.
Proof.
  unfold unique.
  assert (Hgen : ∀ acc, NoDup acc →
    NoDup (foldl (λ acc x, if decide (x ∈ acc) then acc else acc ++ [x]) acc l)
    ∧ ∀ x, x ∈ foldl (λ acc x, if decide (x ∈ acc) then acc else acc ++ [x])
                 acc l ↔ x ∈ acc ∨ x ∈ l).
  { induction l as [|y l IH]; intros acc Hacc; simpl.
    - split; [done|]. intros x. rewrite elem_of_nil. tauto.
    - destruct (decide (y ∈ acc)) as [Hy|Hy].
      + destruct (IH acc Hacc) as [Hnd Hel]. split; [done|].
        intros x. rewrite Hel, elem_of_cons.
        split; [tauto|]. intros [?|[->|?]]; tauto.
      + destruct (IH (acc ++ [y])) as [Hnd Hel].
        { apply NoDup_app. repeat split; [done| |apply NoDup_singleton].
          intros x Hx Hx'. apply list_elem_of_singleton in Hx'. by subst. }
        split; [done|]. intros x.
        rewrite Hel, elem_of_app, list_elem_of_singleton, elem_of_cons. tauto. }
  destruct (Hgen [] (NoDup_nil_2)) as [Hnd Hel]. split; [done|].
  intros x. rewrite Hel, elem_of_nil. tauto.
Qed.

(** The known ages are the ages that occur in the table, each once, in
    ascending order. *)
Lemma ages_spec (df : FlowTable) :
  NoDup (ages df) ∧ Sorted Z.le (ages df)
  ∧ ∀ k, k ∈ ages df ↔ ∃ r, r ∈ df ∧ month_on_book r = k.
Proof.
  unfold ages. destruct (unique_spec (month_on_book <$> df)) as [Hnd Hel].
  repeat split.
  - by rewrite merge_sort_Permutation.
  - apply (Sorted_merge_sort Z.le).
  - rewrite merge_sort_Permutation, Hel.
    intros (r & -> & Hr)%list_elem_of_fmap. eauto.
  - rewrite merge_sort_Permutation, Hel.
    intros (r & Hr & <-). by apply list_elem_of_fmap_2.
Qed.

Lemma length_smooth (w : Z) (l : list num) : length (smooth w l) = length l.
Proof.
  unfold smooth, rolling_mean. case_bool_decide; [|done]. apply length_imap.
Qed.

Lemma groupby_sum_ages (df : FlowTable) : (groupby_sum df).*1 = ages df.
Proof.
  unfold groupby_sum, ages. rewrite <- list_fmap_compose.
  apply list_fmap_id.
Qed.

Lemma groupby_sum_payment_rates (df : FlowTable) :
  (λ a, raw_rate a.2.1.2 a.2.1.1) <$> groupby_sum df = raw_rates payments df.
Proof.
  unfold groupby_sum, raw_rates, ages. by rewrite <- list_fmap_compose.
Qed.

Lemma groupby_sum_chargeoff_rates (df : FlowTable) :
  (λ a, raw_rate a.2.2 a.2.1.1) <$> groupby_sum df = raw_rates chargeoffs df.
Proof.
  unfold groupby_sum, raw_rates, ages. by rewrite <- list_fmap_compose.
Qed.

Lemma length_raw_rates (flow : FlowRecord → num) (df : FlowTable) :
  length (raw_rates flow df) = length (ages df).
Proof. unfold raw_rates. apply length_fmap. Qed.

(** The columns of the aggregate table. *)
Lemma make_agg_df_columns (w : Z) (df : FlowTable) :
  agg_month_on_book <$> make_agg_df w df = ages df
  ∧ payment_hazard_rate <$> make_agg_df w df = raw_rates payments df
  ∧ chargeoff_hazard_rate <$> make_agg_df w df = raw_rates chargeoffs df
  ∧ payment_hazard_rate_smoothed <$> make_agg_df w df
    = smooth w (raw_rates payments df)
  ∧ chargeoff_hazard_rate_smoothed <$> make_agg_df w df
    = smooth w (raw_rates chargeoffs df).
Proof.
  unfold make_agg_df.
  rewrite groupby_sum_payment_rates, groupby_sum_chargeoff_rates.
  pose proof (length_raw_rates payments df) as Hp.
  pose proof (length_raw_rates chargeoffs df) as Hc.
  pose proof (length_smooth w (raw_rates payments df)) as Hsp.
  pose proof (length_smooth w (raw_rates chargeoffs df)) as Hsc.
  assert (Hg : length (groupby_sum df) = length (ages df))
    by (by rewrite <- groupby_sum_ages, length_fmap).
  set (agg := groupby_sum df) in *.
  set (p := raw_rates payments df) in *.
  set (c := raw_rates chargeoffs df) in *.
  set (ps := smooth w p) in *. set (cs := smooth w c) in *.
  assert (H1 : length (zip agg p) = length agg)
    by (rewrite length_zip; lia).
  assert (H2 : length (zip (zip agg p) c) = length agg)
    by (rewrite length_zip; lia).
  assert (H3 : length (zip (zip (zip agg p) c) ps) = length agg)
    by (rewrite length_zip; lia).
  set (z5 := zip (zip (zip (zip agg p) c) ps) cs).
  assert (Hproj : ∀ {X} (f g : _ → X),
            (∀ x, f x = g x) → f <$> z5 = g <$> z5).
  { intros X f g Hfg. apply list_fmap_ext. auto. }
  rewrite <- !list_fmap_compose.
  repeat split.
  - rewrite <- groupby_sum_ages. fold agg.
    transitivity ((((((z5.*1).*1).*1).*1).*1)).
    { rewrite <- !list_fmap_compose. apply Hproj.
      by intros [[[[[a1 a2] rp] rc] sp] sc]. }
    unfold z5. rewrite !fst_zip by lia. done.
  - transitivity ((((z5.*1).*1).*1).*2).
    { rewrite <- !list_fmap_compose. apply Hproj.
      by intros [[[[[a1 a2] rp] rc] sp] sc]. }
    unfold z5. rewrite !fst_zip by lia. rewrite snd_zip by lia. done.
  - transitivity (((z5.*1).*1).*2).
    { rewrite <- !list_fmap_compose. apply Hproj.
      by intros [[[[[a1 a2] rp] rc] sp] sc]. }
    unfold z5. rewrite !fst_zip by lia. rewrite snd_zip by lia. done.
  - transitivity ((z5.*1).*2).
    { rewrite <- !list_fmap_compose. apply Hproj.
      by intros [[[[[a1 a2] rp] rc] sp] sc]. }
    unfold z5. rewrite !fst_zip by lia. rewrite snd_zip by lia. done.
  - transitivity (z5.*2).
    { apply Hproj. by intros [[[[[a1 a2] rp] rc] sp] sc]. }
    unfold z5. rewrite snd_zip by lia. done.
Qed.

End fit_facts.

Section smoothing_facts.
Import HazardRateEstimator.

Lemma foldl_insert_lookup_notin (l : list (Z * num)) (d : gmap Z num) (k : Z) :
  k ∉ l.*1 → foldl (λ d kv, <[kv.1 := kv.2]> d) d l !! k = d !! k.
Proof.
  revert d. induction l as [|[k' v'] l IH]; intros d Hk; simpl; [done|].
  rewrite fmap_cons, not_elem_of_cons in Hk. destruct Hk as [Hne Hk].
  rewrite IH by done. simpl. by rewrite lookup_insert_ne.
Qed.

Lemma foldl_insert_lookup (l : list (Z * num)) (d : gmap Z num) (i : nat)
    (k : Z) (v : num) :
  NoDup l.*1 → l !! i = Some (k, v) →
  foldl (λ d kv, <[kv.1 := kv.2]> d) d l !! k = Some v.
Proof.
  revert d i. induction l as [|[k' v'] l IH]; intros d i Hnd Hi; [done|].
  rewrite fmap_cons in Hnd. apply NoDup_cons in Hnd as [Hk' Hnd].
  destruct i as [|i]; simpl in *.
  - injection Hi as -> ->. rewrite foldl_insert_lookup_notin by done.
    apply lookup_insert_eq.
  - by apply (IH _ i).
Qed.

(** [dict(zip(keys, values))] on distinct keys maps each key to the value at
    its position. *)
Lemma dict_zip_lookup (ks : list Z) (vs : list num) (i : nat) (k : Z) (v : num) :
  NoDup ks → length ks = length vs →
  ks !! i = Some k → vs !! i = Some v → dict_zip ks vs !! k = Some v.
Proof.
  intros Hnd Hlen Hk Hv. unfold dict_zip.
  apply (foldl_insert_lookup _ _ i).
  - rewrite fst_zip by lia. done.
  - by apply lookup_zip_Some.
Qed.

Lemma dict_zip_lookup_None (ks : list Z) (vs : list num) (k : Z) :
  k ∉ ks → dict_zip ks vs !! k = None.
Proof.
  intros Hk. unfold dict_zip. rewrite foldl_insert_lookup_notin; [done|].
  intros Hin. apply Hk.
  apply list_elem_of_fmap in Hin as ([k' v'] & -> & Hin).
  apply list_elem_of_lookup in Hin as [i Hi].
  apply lookup_zip_Some in Hi as [Hi _]. by eapply list_elem_of_lookup_2.
Qed.

Lemma is_nan_fillna0 (x : num) : is_nan (fillna0 x) = false.
Proof. by destruct x. Qed.

(** On values none of which is missing, [Series.mean()] is the plain
    average. *)
Lemma mean_average (l : list num) :
  Forall (λ x, is_nan x = false) l → l ≠ [] → mean l = average l.
Proof.
  intros Hall Hne. unfold mean, average.
  assert (filter (λ x, is_nan x = false) l = l) as ->.
  { clear Hne. induction Hall as [|x l Hx Hall IH]; [done|].
    rewrite filter_cons, decide_True by done. by rewrite IH. }
  by destruct l.
Qed.

Lemma raw_rates_not_nan (flow : FlowRecord → num) (df : FlowTable) :
  Forall (λ x, is_nan x = false) (raw_rates flow df).
Proof.
  unfold raw_rates. apply Forall_fmap, Forall_forall.
  intros k _. apply is_nan_fillna0.
Qed.

Lemma half_split (w : Z) : w - 1 - (w - 1) `div` 2 = w `div` 2.
Proof.
  pose proof (Z.div_mod (w - 1) 2 ltac:(lia)).
  pose proof (Z.mod_pos_bound (w - 1) 2 ltac:(lia)).
  pose proof (Z.div_mod w 2 ltac:(lia)).
  pose proof (Z.mod_pos_bound w 2 ltac:(lia)).
  lia.
Qed.

(** For a position of the series and a width of at least one, the bounds
    pandas computes are those of the centered window. *)
Lemma window_bounds_centered (w n i : Z) :
  1 ≤ w → 0 ≤ i < n →
  window_bounds w n i = (window_start w i, window_end w n i)
  ∧ window_start w i ≤ i < window_end w n i
  ∧ 0 ≤ window_start w i ∧ window_end w n i ≤ n
  ∧ 1 ≤ window_end w n i - window_start w i ≤ w
  ∧ (w `div` 2 ≤ i → i + (w - 1) `div` 2 < n →
     window_end w n i - window_start w i = w).
Proof.
  intros Hw Hi. unfold window_bounds, window_start, window_end, clip.
  pose proof (half_split w) as Hh.
  assert (0 ≤ (w - 1) `div` 2) by (apply Z.div_pos; lia).
  assert (0 ≤ w `div` 2) by (apply Z.div_pos; lia).
  repeat split; try lia.
  f_equal; lia.
Qed.

Lemma length_slice {A} (s e : Z) (l : list A) :
  0 ≤ s → s ≤ e → e ≤ Z.of_nat (length l) →
  Z.of_nat (length (slice s e l)) = e - s.
Proof.
  intros Hs Hse He. unfold slice. rewrite length_take, length_drop. lia.
Qed.

Lemma slice_fmap {A B} (f : A → B) (s e : Z) (l : list A) :
  slice s e (f <$> l) = f <$> slice s e l.
Proof. unfold slice. by rewrite <- fmap_drop, <- fmap_take. Qed.

(** The smoothed series, position by position: an infinite value of the
    window counts as missing. *)
Lemma smooth_lookup (w : Z) (xs : list num) (i : nat) :
  (i < length xs)%nat →
  smooth w xs !! i
  = if bool_decide (1 < w)
    then Some (mean (inf_to_nan <$> window w xs (Z.of_nat i)))
    else xs !! i.
Proof.
  intros Hi. unfold smooth. case_bool_decide as Hw; [|done].
  unfold rolling_mean. cbv zeta. rewrite list_lookup_imap.
  destruct (window_bounds_centered w (Z.of_nat (length xs)) (Z.of_nat i))
    as [-> _]; [lia|lia|].
  rewrite slice_fmap.
  by destruct (lookup_lt_is_Some_2 xs i Hi) as [x ->].
Qed.

(** A value that is neither missing nor infinite. *)
Lemma inf_to_nan_finite (l : list num) :
  Forall (λ x, ∃ q, x = Fin q) l → inf_to_nan <$> l = l.
Proof.
  induction 1 as [|x l [q ->] _ IH]; [done|].
  rewrite fmap_cons, IH. done.
Qed.

End smoothing_facts.

Section fitted_curves.
Import HazardRateEstimator.

Lemma fit_stores_fitted_rates (self : t) (df : FlowTable) :
  stores_curve (fit self df).1 "payment"
    (fitted_rates payments (smoothing_window self) df)
  ∧ stores_curve (fit self df).1 "chargeoff"
      (fitted_rates chargeoffs (smoothing_window self) df).
Proof.
  pose proof (fit_stores_payment_curve self df) as Hp.
  pose proof (fit_stores_chargeoff_curve self df) as Hc.
  cbv zeta in Hp, Hc.
  destruct (make_agg_df_columns (smoothing_window self) df)
    as (Ha & _ & _ & Hsp & Hsc).
  rewrite Ha, Hsp in Hp. rewrite Ha, Hsc in Hc. done.
Qed.

(** The stored rate of the age at position [i] is the smoothed raw rate at
    that position. *)
Lemma fitted_rates_lookup (flow : FlowRecord → num) (w : Z) (df : FlowTable)
    (i : nat) (age : Z) :
  ages df !! i = Some age →
  fitted_rates flow w df !! age = smooth w (raw_rates flow df) !! i.
Proof.
  intros Hage. unfold fitted_rates.
  destruct (ages_spec df) as (Hnd & _ & _).
  assert (Hlen : length (ages df) = length (smooth w (raw_rates flow df)))
    by (by rewrite length_smooth, length_raw_rates).
  assert (Hi : (i < length (smooth w (raw_rates flow df)))%nat).
  { rewrite <- Hlen. by eapply lookup_lt_Some. }
  destruct (lookup_lt_is_Some_2 _ _ Hi) as [v Hv]. rewrite Hv.
  by apply (dict_zip_lookup _ _ i).
Qed.

(** The known ages of a stored curve are the ages of the table. *)
Lemma fitted_rates_known (flow : FlowRecord → num) (w : Z) (df : FlowTable)
    (age : Z) :
  is_Some (fitted_rates flow w df !! age) ↔ age ∈ ages df.
Proof.
  split.
  - intros Hsome. destruct (decide (age ∈ ages df)) as [|Hn]; [done|].
    unfold fitted_rates in Hsome. rewrite dict_zip_lookup_None in Hsome by done.
    by destruct Hsome.
  - intros [i Hi]%list_elem_of_lookup.
    rewrite (fitted_rates_lookup _ _ _ i) by done.
    apply lookup_lt_is_Some_2.
    rewrite length_smooth, length_raw_rates. by eapply lookup_lt_Some.
Qed.

End fitted_curves.

(** C2.  [fit] on one row of age 0 with balance 0 and payments 100 (no
    smoothing): the balance of the age sums to zero, the raw payment rate is
    the quotient 100 / 0, an infinity that [fillna(0)] leaves in place, and
    the stored curve returns it. *)
Theorem fit_zero_balance_rate_is_infinite :
  age_sum outstanding_balance zero_balance_training 0 = zero
  ∧ raw_rates payments zero_balance_training = [PInf]
  ∧ HazardRateEstimator.get_hazard_rate
      (HazardRateEstimator.fit (HazardRateEstimator.__init__ 1)
         zero_balance_training).1 0 "payment" = Ok PInf.
Proof. repeat split; compute_done. Qed.

(** The part of C2 that holds: ages are grouped across segments, and the
    raw rate of an age is its summed flow over its summed balance, zero when
    both sums are zero. *)
Lemma fit_raw_rates (self : HazardRateEstimator.t) (df : FlowTable) :
  let agg_df :=
    HazardRateEstimator.make_agg_df (HazardRateEstimator.smoothing_window self)
      df in
  agg_month_on_book <$> agg_df = ages df
  ∧ payment_hazard_rate <$> agg_df
    = (λ k, fillna0 (div (age_sum payments df k)
                         (age_sum outstanding_balance df k))) <$> ages df
  ∧ chargeoff_hazard_rate <$> agg_df
    = (λ k, fillna0 (div (age_sum chargeoffs df k)
                         (age_sum outstanding_balance df k))) <$> ages df
  ∧ fillna0 (div zero zero) = zero.
Proof.
  cbv zeta.
  destruct (make_agg_df_columns (HazardRateEstimator.smoothing_window self) df)
    as (Ha & Hp & Hc & _).
  by rewrite Ha, Hp, Hc.
Qed.

(** The scenario of C2: balances summing to 2000 and payments to 100 at age
    0 give the raw payment rate 0.05, and with window 1 the stored curve
    holds the same value. *)
Example fit_two_segments_age_0 :
  age_sum outstanding_balance two_segments 0 = of_Z 2000
  ∧ age_sum payments two_segments 0 = of_Z 100
  ∧ raw_rates payments two_segments !! 0%nat = Some (lit 5 100)
  ∧ HazardRateEstimator.get_hazard_rate
      (HazardRateEstimator.fit (HazardRateEstimator.__init__ 1)
         two_segments).1 0 "payment" = Ok (lit 5 100).
Proof. repeat split; compute_done. Qed.

(** The stored rate of the age at position [i], for both ways [fit] fills
    the smoothed column: under a window [w > 1] the mean of the raw rates of
    the centered window that are not infinite, otherwise the raw rate. *)
Lemma fitted_rates_window (flow : FlowRecord → num) (w : Z) (df : FlowTable)
    (i : nat) (age : Z) :
  ages df !! i = Some age →
  let n := Z.of_nat (length (ages df)) in
  let win := window w (raw_rates flow df) (Z.of_nat i) in
  (1 < w →
     fitted_rates flow w df !! age = Some (mean (inf_to_nan <$> win))
     ∧ (Forall (λ x, ∃ q, x = Fin q) win →
        fitted_rates flow w df !! age = Some (average win))
     ∧ Z.of_nat (length win)
       = window_end w n (Z.of_nat i) - window_start w (Z.of_nat i)
     ∧ window_start w (Z.of_nat i) ≤ Z.of_nat i < window_end w n (Z.of_nat i)
     ∧ 1 ≤ window_end w n (Z.of_nat i) - window_start w (Z.of_nat i) ≤ w
     ∧ (w `div` 2 ≤ Z.of_nat i → Z.of_nat i + (w - 1) `div` 2 < n →
        window_end w n (Z.of_nat i) - window_start w (Z.of_nat i) = w))
  ∧ (w ≤ 1 → fitted_rates flow w df !! age = raw_rates flow df !! i).
Proof.
  intros Hage n win.
  pose proof (lookup_lt_Some _ _ _ Hage) as Hi.
  rewrite !(fitted_rates_lookup _ _ _ i) by done.
  rewrite !smooth_lookup by (by rewrite length_raw_rates).
  split.
  - intros Hw. rewrite !bool_decide_eq_true_2 by done.
    destruct (window_bounds_centered w n (Z.of_nat i))
      as (_ & Hin & Hs & He & Hsize & Hfull); [lia|lia|].
    assert (Hlen : Z.of_nat (length win)
      = window_end w n (Z.of_nat i) - window_start w (Z.of_nat i)).
    { unfold win, window. rewrite length_raw_rates. fold n.
      apply length_slice; [lia|lia|]. rewrite length_raw_rates. by fold n. }
    fold win. split; [done|]. split; [|repeat split; try done; lia].
    intros Hfin. rewrite inf_to_nan_finite by done. f_equal.
    apply mean_average.
    + eapply Forall_impl; [exact Hfin|]. by intros x [q ->].
    + intros Hnil. rewrite Hnil in Hlen. simpl in Hlen. lia.
  - intros Hw. by rewrite !bool_decide_eq_false_2 by lia.
Qed.

(** C7.  [fit] with window 3 on a table whose first age has balance 0 and
    payments 100, followed by ages of rates 0.05 and 0.03: the raw payment
    rates are +inf, 0.05 and 0.03 (the rate of the zero balance is the
    infinity that [fillna(0)] leaves in place), and the rolling mean takes
    the infinite rate for a missing one.  The curve stores 0.05 at age 0 and
    0.04 at age 1: not the average of the raw rates of the window, which is
    infinite with the rates as computed, and 0.025 at age 0 with the rate 0
    that the zero balance should have. *)
Theorem fit_rolling_mean_skips_zero_balance_age :
  raw_rates payments zero_balance_first = [PInf; lit 5 100; lit 3 100]
  ∧ window 3 (raw_rates payments zero_balance_first) 0 = [PInf; lit 5 100]
  ∧ window 3 (raw_rates payments zero_balance_first) 1
    = [PInf; lit 5 100; lit 3 100]
  ∧ HazardRateEstimator.get_hazard_rate
      (HazardRateEstimator.fit (HazardRateEstimator.__init__ 3)
         zero_balance_first).1 0 "payment" = Ok (lit 5 100)
  ∧ HazardRateEstimator.get_hazard_rate
      (HazardRateEstimator.fit (HazardRateEstimator.__init__ 3)
         zero_balance_first).1 1 "payment" = Ok (lit 4 100)
  ∧ average (window 3 (raw_rates payments zero_balance_first) 0) = PInf
  ∧ average [zero; lit 5 100] = lit 25 1000.
Proof. repeat split; compute_done. Qed.

(** A window that holds nothing but an infinite rate has no sample left:
    with window 3, the single row of balance 0 and payments 100 stores a
    missing rate. *)
Example fit_infinite_rate_alone_is_missing :
  HazardRateEstimator.get_hazard_rate
    (HazardRateEstimator.fit (HazardRateEstimator.__init__ 3)
       zero_balance_training).1 0 "payment" = Ok NaN.
Proof. compute_done. Qed.

(** C8.  Calling [fit] again on the same table leaves the estimator and the
    curves it returns as the first call made them. *)
Theorem fit_twice_same_curves (self : HazardRateEstimator.t) (df : FlowTable) :
  HazardRateEstimator.fit (HazardRateEstimator.fit self df).1 df
  = HazardRateEstimator.fit self df.
Proof. unfold HazardRateEstimator.fit. simpl. reflexivity. Qed.

(** The curves do not depend on what the estimator held before. *)
Lemma fit_forgets_previous_curves (self self' : HazardRateEstimator.t)
    (df : FlowTable) :
  HazardRateEstimator.smoothing_window self
  = HazardRateEstimator.smoothing_window self' →
  HazardRateEstimator.fit self df = HazardRateEstimator.fit self' df.
Proof. unfold HazardRateEstimator.fit. by intros ->. Qed.

Section rate_total.
Import HazardRateEstimator.

Lemma py_max_total (l : list Z) (x : Z) :
  x ∈ l → ∃ m, py_max l = Ok m ∧ m ∈ l ∧ ∀ y, y ∈ l → y ≤ m.
Proof.
  intros Hx. destruct l as [|a l]; [by apply elem_of_nil in Hx|].
  destruct (series_max_spec (a :: l) _ eq_refl) as [Hin Hle].
  exists (foldl Z.max a l). done.
Qed.

Lemma py_min_total (l : list Z) (x : Z) :
  x ∈ l → ∃ m, py_min l = Ok m ∧ m ∈ l ∧ ∀ y, y ∈ l → m ≤ y.
Proof.
  intros Hx. destruct l as [|a l]; [by apply elem_of_nil in Hx|].
  destruct (series_min_spec (a :: l) _ eq_refl) as [Hin Hle].
  exists (foldl Z.min a l). done.
Qed.

(** The five ways a rate dictionary answers; no branch of the lookup can
    raise. *)
Lemma rate_at_cases (rates : gmap Z num) (age : Z) :
  (∃ r, rates !! age = Some r ∧ rate_at rates age = Ok r)
  ∨ (rates = ∅ ∧ rate_at rates age = Ok zero)
  ∨ (∃ lo r, min_age rates lo ∧ rates !! lo = Some r ∧ age < lo
             ∧ rate_at rates age = Ok r)
  ∨ (∃ hi r, max_age rates hi ∧ rates !! hi = Some r ∧ hi < age
             ∧ rate_at rates age = Ok r)
  ∨ (∃ lo hi r_lo r_hi,
       rates !! lo = Some r_lo ∧ rates !! hi = Some r_hi ∧ lo < age < hi
       ∧ rate_at rates age
         = Ok (let weight := div (of_Z (age - lo)) (of_Z (hi - lo)) in
               add (mul r_lo (sub one weight)) (mul r_hi weight))).
Proof.
  destruct (rates !! age) as [r|] eqn:Hage.
  { left. exists r. split; [done|]. by apply rate_at_known. }
  destruct (decide (rates = ∅)) as [->|Hne].
  { right; left. split; [done|]. apply rate_at_empty. }
  apply map_choose in Hne as (k & v & Hk).
  destruct (min_age_exists rates k) as [mn Hmin]; [by eexists|].
  destruct (max_age_exists rates k) as [mx Hmax]; [by eexists|].
  destruct (decide (age < mn)) as [Hlo|Hlo].
  { right; right; left. pose proof Hmin as [[r Hr] Hle]. exists mn, r.
    repeat split; try done. by apply (rate_at_below rates age mn). }
  destruct (decide (mx < age)) as [Hhi|Hhi].
  { right; right; right; left. pose proof Hmax as [[r Hr] Hle]. exists mx, r.
    repeat split; try done. by apply (rate_at_above rates age mx). }
  right; right; right; right.
  set (keys := merge_sort Z.le (elements (dom rates))).
  destruct (py_max_total (filter (λ m, m ≤ age) keys) mn)
    as (lo & _ & [Hlo1 Hlo2]%list_elem_of_filter & Hlo3).
  { apply list_elem_of_filter. split; [lia|].
    apply elem_of_available_months, Hmin. }
  destruct (py_min_total (filter (λ m, age ≤ m) keys) mx)
    as (hi & _ & [Hhi1 Hhi2]%list_elem_of_filter & Hhi3).
  { apply list_elem_of_filter. split; [lia|].
    apply elem_of_available_months, Hmax. }
  apply elem_of_available_months in Hlo2 as [r_lo Hrlo].
  apply elem_of_available_months in Hhi2 as [r_hi Hrhi].
  assert (lo ≠ age) by (intros ->; by rewrite Hage in Hrlo).
  assert (hi ≠ age) by (intros ->; by rewrite Hage in Hrhi).
  exists lo, hi, r_lo, r_hi. split; [done|]. split; [done|]. split; [lia|].
  apply (rate_at_between rates age lo hi r_lo r_hi); [done|done|lia|].
  intros j Hj. destruct (rates !! j) as [x|] eqn:Hjx; [|done].
  assert (Hjk : j ∈ keys) by (apply elem_of_available_months; by eexists).
  destruct (decide (j ≤ age)).
  - pose proof (Hlo3 j ltac:(by apply list_elem_of_filter)). lia.
  - pose proof (Hhi3 j ltac:(apply list_elem_of_filter; split; [lia|done])).
    lia.
Qed.

Lemma rate_at_total (rates : gmap Z num) (age : Z) :
  ∃ r, rate_at rates age = Ok r.
Proof.
  destruct (rate_at_cases rates age)
    as [(r & _ & H)|[(_ & H)|[(lo & r & _ & _ & _ & H)
       |[(hi & r & _ & _ & _ & H)|(lo & hi & r_lo & r_hi & _ & _ & _ & H)]]]];
    eauto.
Qed.

Lemma add_nonneg (x y : num) :
  leb zero x = true → leb zero y = true → leb zero (add x y) = true.
Proof.
  destruct x as [a| | |], y as [b| | |]; simpl; try done.
  rewrite !bool_decide_eq_true. apply Qcplus_nonneg_nonneg.
Qed.

Lemma mul_nonneg_pos (x : num) (q : Qc) :
  leb zero x = true → (0 < q)%Qc → leb zero (mul x (Fin q)) = true.
Proof.
  destruct x as [a| | |]; simpl; try done.
  - rewrite !bool_decide_eq_true. intros Ha Hq.
    apply Qcmult_nonneg_nonneg; auto using Qclt_le_weak.
  - intros _ Hq. unfold sign. by rewrite (proj1 (Qcgt_alt q 0)).
Qed.

Lemma Qc_of_Z_pos (z : Z) : 0 < z → (0 < Qc_of_Z z)%Qc.
Proof. intros Hz. rewrite <- Z2Qc_inj_0. by apply (proj1 (Z2Qc_inj_lt 0 z)). Qed.

(** The interpolation weight lies strictly between 0 and 1. *)
Lemma weight_between (age lo hi : Z) :
  lo < age < hi →
  ∃ w, div (of_Z (age - lo)) (of_Z (hi - lo)) = Fin w
       ∧ (0 < w)%Qc ∧ (0 < 1 - w)%Qc.
Proof.
  intros Hage. unfold div, of_Z.
  assert (Hpos : (0 < Qc_of_Z (hi - lo))%Qc) by (apply Qc_of_Z_pos; lia).
  rewrite decide_False by (by apply not_symmetry, Qclt_not_eq).
  eexists. split; [reflexivity|].
  assert (Hinv : (0 < / Qc_of_Z (hi - lo))%Qc) by (by apply Qcinv_pos).
  split.
  - apply Qcmult_pos_pos; [|done]. apply Qc_of_Z_pos. lia.
  - replace (1 - Qc_of_Z (age - lo) / Qc_of_Z (hi - lo))%Qc
      with (Qc_of_Z (hi - age) / Qc_of_Z (hi - lo))%Qc.
    + apply Qcmult_pos_pos; [|done]. apply Qc_of_Z_pos. lia.
    + replace (hi - age) with ((hi - lo) - (age - lo)) by lia.
      rewrite Z2Qc_inj_sub. field. by apply not_symmetry, Qclt_not_eq.
Qed.

(** A dictionary of non-negative rates answers with non-negative rates. *)
Lemma rate_at_nonneg (rates : gmap Z num) (age : Z) (r : num) :
  map_Forall (λ _ x, leb zero x = true) rates →
  rate_at rates age = Ok r → leb zero r = true.
Proof.
  intros Hall Hr.
  destruct (rate_at_cases rates age)
    as [(x & Hx & H)|[(_ & H)|[(lo & x & _ & Hx & _ & H)
       |[(hi & x & _ & Hx & _ & H)
        |(lo & hi & r_lo & r_hi & Hlo & Hhi & Hage & H)]]]];
    rewrite H in Hr.
  - assert (r = x) as -> by congruence. by eapply Hall.
  - by assert (r = zero) as -> by congruence.
  - assert (r = x) as -> by congruence. by eapply Hall.
  - assert (r = x) as -> by congruence. by eapply Hall.
  - destruct (weight_between age lo hi Hage) as (w & Hw & Hw0 & Hw1).
    cbv zeta in Hr. rewrite Hw in Hr.
    assert (r = add (mul r_lo (sub one (Fin w))) (mul r_hi (Fin w))) as ->
      by congruence.
    apply add_nonneg.
    + change (sub one (Fin w)) with (Fin (1 + - w)%Qc).
      apply mul_nonneg_pos; [by eapply Hall|done].
    + apply mul_nonneg_pos; [by eapply Hall|done].
Qed.

(** An estimator that holds both rate dictionaries answers every query for
    the two kinds. *)
Lemma get_hazard_rate_total (self : t) (kind : string) (rates : gmap Z num)
    (age : Z) :
  stores_curve self kind rates → ∃ r, get_hazard_rate self age kind = Ok r.
Proof.
  intros Hc. rewrite (get_hazard_rate_stored _ _ _ _ Hc).
  apply rate_at_total.
Qed.

End rate_total.

(** ** Properties of [validate_known_actuals] *)

Section compare_facts.
Import HazardRateEstimator CurveTransferEngine.

Lemma bind_Ok {A B} (a : A) (f : A → result B) : (Ok a ≫= f) = f a.
Proof. done. Qed.

Lemma bind_Raise {A B} (e : exn) (f : A → result B) :
  (Raise e ≫= f) = Raise e.
Proof. done. Qed.

Lemma py_div_nonzero (x y : num) : y ≠ zero → py_div x y = Ok (div x y).
Proof. intros Hy. unfold py_div. by rewrite bool_decide_eq_false_2. Qed.

Lemma compare_row_ok (est : t) (r : FlowRecord) :
  trained est → outstanding_balance r ≠ zero →
  ∃ c, compare_row est r = Ok (c, row_warnings c) ∧ compares est r c.
Proof.
  intros (rp & rc & Hp & Hc) Hbal. unfold compare_row.
  destruct (get_hazard_rate_total est _ _ (month_on_book r) Hp) as [ep Hep].
  destruct (get_hazard_rate_total est _ _ (month_on_book r) Hc) as [ec Hec].
  rewrite Hep, Hec, !bind_Ok, !py_div_nonzero, !bind_Ok by done.
  eexists (Build_Comparison _ _ _ _ _ _ _).
  split; [reflexivity|]. by repeat split.
Qed.

Lemma compare_row_zero_balance (est : t) (r : FlowRecord) :
  trained est → outstanding_balance r = zero →
  compare_row est r = Raise ZeroDivisionError.
Proof.
  intros (rp & rc & Hp & Hc) Hbal. unfold compare_row.
  destruct (get_hazard_rate_total est _ _ (month_on_book r) Hp) as [ep Hep].
  destruct (get_hazard_rate_total est _ _ (month_on_book r) Hc) as [ec Hec].
  rewrite Hep, Hec, Hbal, !bind_Ok. done.
Qed.

Lemma compare_rows_ok (est : t) (df : FlowTable) :
  trained est → (∀ r, r ∈ df → outstanding_balance r ≠ zero) →
  ∃ cs, compare_rows est df = Ok (cs, mjoin (row_warnings <$> cs))
        ∧ Forall2 (compares est) df cs.
Proof.
  intros Htr. induction df as [|r df IH]; intros Hbal.
  - exists []. split; [done|constructor].
  - destruct (compare_row_ok est r Htr) as (c & Hc & Hcmp);
      [apply Hbal; by left|].
    destruct IH as (cs & Hcs & Hall); [intros x Hx; apply Hbal; by right|].
    exists (c :: cs). split; [|by constructor].
    cbn [compare_rows]. rewrite Hc, bind_Ok, Hcs, bind_Ok. done.
Qed.

End compare_facts.

(** X15.  For a trained estimator and a table none of
    whose rows has a zero balance, [validate_known_actuals] returns: one
    comparison entry per row, in order, with the expected rates of the
    estimator at the row's age, the actual rates amount over balance and the
    variances actual minus expected; the warnings of exactly the entries
    whose payment variance exceeds 0.05 or whose chargeoff variance exceeds
    0.02 in absolute value; and, unless the table is empty, the summary of
    the means of the variances and the roots of the means of their squares,
    taken as pandas takes a mean: over the variances that are not NaN, which
    is the plain average over all rows when none is.  The empty table gives
    no entry, no warning and the empty summary. *)
Theorem validate_known_actuals_nonzero_balances
    (np_sqrt : num → num) (est : HazardRateEstimator.t) (df : FlowTable) :
  trained est → (∀ r, r ∈ df → outstanding_balance r ≠ zero) →
  ∃ cv, CurveTransferEngine.validate_known_actuals np_sqrt est df = Ok cv
    ∧ Forall2 (compares est) df (detailed_comparison cv)
    ∧ cv_warnings cv = mjoin (row_warnings <$> detailed_comparison cv)
    ∧ (df = [] → summary_stats cv = None)
    ∧ (df ≠ [] →
       let pv := payment_variance <$> detailed_comparison cv in
       let cv' := chargeoff_variance <$> detailed_comparison cv in
       summary_stats cv
       = Some {| mean_payment_variance := mean pv;
                 mean_chargeoff_variance := mean cv';
                 rmse_payment :=
                   np_sqrt (mean (CurveTransferEngine.square <$> pv));
                 rmse_chargeoff :=
                   np_sqrt (mean (CurveTransferEngine.square <$> cv')) |}
       ∧ (Forall (λ x, is_nan x = false) pv →
          mean pv = average pv
          ∧ mean (CurveTransferEngine.square <$> pv)
            = average (CurveTransferEngine.square <$> pv))
       ∧ (Forall (λ x, is_nan x = false) cv' →
          mean cv' = average cv'
          ∧ mean (CurveTransferEngine.square <$> cv')
            = average (CurveTransferEngine.square <$> cv'))).
Proof.
  intros Htr Hbal.
  destruct (compare_rows_ok est df Htr Hbal) as (cs & Hcs & Hall).
  unfold CurveTransferEngine.validate_known_actuals.
  rewrite Hcs, bind_Ok.
  eexists. split; [reflexivity|]. cbn [detailed_comparison cv_warnings
    summary_stats fst snd].
  split; [done|]. split; [done|]. split.
  - intros ->. by apply Forall2_nil_inv_l in Hall as ->.
  - intros Hne. destruct Hall as [|r c df' cs' Hc Hall]; [done|].
    split; [done|].
    assert (Hsq : ∀ l, Forall (λ x, is_nan x = false) l →
              Forall (λ x, is_nan x = false) (CurveTransferEngine.square <$> l)).
    { intros l Hl. apply Forall_fmap. eapply Forall_impl; [exact Hl|].
      intros [q| | |]; done. }
    split; intros Hnan; (split; (apply mean_average; [auto|done])).
Qed.

Lemma validate_known_actuals_nonzero_balances_witness :
  let est := (HazardRateEstimator.fit (HazardRateEstimator.__init__ 1)
                two_segments).1 in
  ∃ cv, CurveTransferEngine.validate_known_actuals (λ x, x) est two_months
        = Ok cv
    ∧ Forall2 (compares est) two_months (detailed_comparison cv)
    ∧ cv_warnings cv = mjoin (row_warnings <$> detailed_comparison cv).
Proof.
  intros est.
  destruct (validate_known_actuals_nonzero_balances (λ x, x) est two_months)
    as (cv & Hcv & Hrows & Hwarn & _).
  - destruct (fit_stores_fitted_rates (HazardRateEstimator.__init__ 1)
                two_segments) as [Hp Hc].
    eexists _, _. split; [exact Hp|exact Hc].
  - apply Forall_forall. apply (bool_decide_unpack _). vm_compute. exact I.
  - exists cv. split; [exact Hcv|]. split; [exact Hrows|exact Hwarn].
Defined.

(** C9.  On a known-actuals table with a paid-off month (balance 0,
    payments 0, chargeoffs 0) [validate_known_actuals] raises
    [ZeroDivisionError] on a trained estimator: the cells of a row are
    Python numbers and the quotient by the zero balance raises, so no
    comparison is returned.  The same table passes [validate_data] with no
    error, and [format_curves_output] computes the same quotient on the same
    row without raising (it is missing there). *)
Theorem validate_known_actuals_zero_balance_raises :
  CurveTransferEngine.validate_known_actuals (λ x, x)
    (HazardRateEstimator.fit (HazardRateEstimator.__init__ 1) two_segments).1
    paid_off_actuals
  = Raise ZeroDivisionError
  ∧ valid (DataValidator.validate_data
             {| df_columns := all_columns; df_rows := paid_off_actuals |})
    = true
  ∧ errors (DataValidator.validate_data
              {| df_columns := all_columns; df_rows := paid_off_actuals |})
    = []
  ∧ o_payment_hazard_rate
      <$> OutputFormatter.format_curves_output (actual <$> paid_off_actuals)
            (of_Z 1000)
    = [one; NaN].
Proof. repeat split; compute_done. Qed.

(** The same table passes the validator, so the trained pipeline's
    [forecast] raises on it as well. *)
Example forecast_zero_balance_raises :
  match SurvivalCreditModel.train (SurvivalCreditModel.__init__ 1)
          {| df_columns := all_columns; df_rows := two_segments |} with
  | Ok (model, _) =>
      SurvivalCreditModel.forecast (λ x, x) model
        {| df_columns := all_columns; df_rows := paid_off_actuals |}
        (of_Z 1000) 12
      = Raise ZeroDivisionError
  | Raise _ => False
  end.
Proof. vm_compute. reflexivity. Qed.

Example validate_known_actuals_two_months :
  cv_warnings <$> CurveTransferEngine.validate_known_actuals (λ x, x)
    (HazardRateEstimator.fit (HazardRateEstimator.__init__ 1) two_segments).1
    two_months
  = Ok [LargePaymentVariance 0 (lit 1 10); LargeChargeoffVariance 1 (lit 4 100)].
Proof. compute_done. Qed.

Example validate_known_actuals_empty (np_sqrt : num → num)
    (est : HazardRateEstimator.t) :
  CurveTransferEngine.validate_known_actuals np_sqrt est []
  = Ok {| detailed_comparison := []; summary_stats := None; cv_warnings := [] |}.
Proof. reflexivity. Qed.

Section balance_decay.
Import ForecastGenerator.

Lemma sign_pos (q : Qc) : (0 < q)%Qc → sign q = Gt.
Proof.
  intros Hq. unfold sign. apply Qcgt_alt. done.
Qed.

Lemma sign_nonneg (q : Qc) : (0 ≤ q)%Qc → sign q ≠ Lt.
Proof.
  intros Hq Hs. unfold sign in Hs. apply Qclt_alt in Hs.
  by apply Qcle_not_lt in Hq.
Qed.

Lemma above_floor_pos (q : Qc) : leb (Fin q) floor = false → (0 < q)%Qc.
Proof.
  simpl. intros Hq%bool_decide_eq_false. apply Qcnot_le_lt in Hq.
  eapply Qclt_trans; [|exact Hq]. reflexivity.
Qed.

(** A non-negative rate takes nothing from an infinite balance that would
    leave a number. *)
Lemma mul_inf_nonneg (p : num) :
  leb zero p = true → mul PInf p = PInf ∨ mul PInf p = NaN.
Proof.
  destruct p as [q| | |]; simpl; try done; [|by left].
  intros Hq%bool_decide_eq_true.
  pose proof (sign_nonneg q Hq). destruct (sign q); [by right|done|by left].
Qed.

(** One step of the recurrence: with non-negative rates, a balance that is
    carried to the next row is not above the balance it came from. *)
Lemma decay_step (b p c : num) :
  leb zero p = true → leb zero c = true →
  leb b floor = false →
  leb (max0 (sub (sub b (mul b p)) (mul b c))) floor = false →
  leb (max0 (sub (sub b (mul b p)) (mul b c))) b = true.
Proof.
  intros Hp Hc Hb. unfold max0.
  destruct (gtb _ zero) eqn:Hpos; [intros _|done].
  destruct b as [bq| | |].
  - pose proof (above_floor_pos bq Hb) as Hbq.
    destruct p as [pq| | |]; try done; cycle 1.
    { destruct c as [cq| | |]; try done; simpl in Hpos;
        rewrite !(sign_pos bq Hbq) in Hpos; simpl in Hpos; done. }
    destruct c as [cq| | |]; try done; cycle 1.
    { simpl in Hpos. rewrite (sign_pos bq Hbq) in Hpos. done. }
    simpl in *. apply bool_decide_eq_true.
    apply bool_decide_eq_true in Hp, Hc.
    apply Qcle_minus_iff.
    replace (bq + - (bq + - (bq * pq) + - (bq * cq)))%Qc
      with (bq * pq + bq * cq)%Qc by ring.
    apply Qcplus_nonneg_nonneg; apply Qcmult_nonneg_nonneg;
      auto using Qclt_le_weak.
  - destruct (mul_inf_nonneg p Hp) as [Hm|Hm]; rewrite Hm in Hpos;
      simpl in Hpos; done.
  - done.
  - done.
Qed.

Lemma above_floor_not_negative (b : num) :
  leb b floor = false → ltb b zero = false.
Proof.
  destruct b as [q| | |]; try done.
  intros Hq%above_floor_pos. simpl. apply bool_decide_eq_false.
  by apply Qcle_not_lt, Qclt_le_weak.
Qed.

End balance_decay.

(** ** Properties of [generate_forecast] *)

Section sort_facts.
Context {A : Type} (key : A → Z).

Let R : relation A := λ a b, key a ≤ key b.

Lemma insert_by_perm (x : A) (l : list A) : insert_by key x l ≡ₚ x :: l.
Proof.
  induction l as [|y l IH]; simpl; [done|].
  case_decide; [done|]. rewrite IH. apply Permutation_swap.
Qed.

Lemma sort_values_perm (l : list A) : sort_values key l ≡ₚ l.
Proof.
  induction l as [|x l IH]; simpl; [done|].
  by rewrite insert_by_perm, IH.
Qed.

Lemma insert_by_sorted (x : A) (l : list A) :
  StronglySorted R l → StronglySorted R (insert_by key x l).
Proof.
  induction 1 as [|y l Hl IH Hy]; simpl.
  - repeat constructor.
  - case_decide as Hxy.
    + constructor; [by constructor|]. constructor; [done|].
      eapply Forall_impl; [exact Hy|]. unfold R. intros z Hz. lia.
    + constructor; [done|]. rewrite insert_by_perm.
      constructor; [unfold R; lia|done].
Qed.

Lemma sort_values_sorted (l : list A) : StronglySorted R (sort_values key l).
Proof.
  induction l as [|x l IH]; simpl; [constructor|].
  by apply insert_by_sorted.
Qed.

Lemma sort_values_of_sorted (l : list A) :
  StronglySorted R l → sort_values key l = l.
Proof.
  induction 1 as [|y l Hl IH Hy]; simpl; [done|]. rewrite IH.
  destruct l as [|z l]; simpl; [done|].
  apply Forall_cons in Hy as [Hyz _]. by rewrite decide_True.
Qed.

Lemma insert_by_app_above (x : A) (l g : list A) :
  Forall (λ y, key x ≤ key y) g →
  insert_by key x (l ++ g) = insert_by key x l ++ g.
Proof.
  intros Hg. induction l as [|y l IH]; simpl.
  - destruct g as [|z g]; [done|]. simpl.
    apply Forall_cons in Hg as [Hz _]. by rewrite decide_True.
  - case_decide; [done|]. by rewrite IH.
Qed.

(** Rows that are already in order and come after all others stay in place
    at the end. *)
Lemma sort_values_app_above (l g : list A) :
  StronglySorted R g →
  (∀ x y, x ∈ l → y ∈ g → key x ≤ key y) →
  sort_values key (l ++ g) = sort_values key l ++ g.
Proof.
  intros Hg Hlg. induction l as [|x l IH]; simpl.
  - by apply sort_values_of_sorted.
  - rewrite IH by (intros a b Ha Hb; apply Hlg; [by right|done]).
    apply insert_by_app_above, Forall_forall.
    intros y Hy. apply Hlg; [by left|done].
Qed.

End sort_facts.

Section forecast_facts.
Import HazardRateEstimator ForecastGenerator.

Lemma final_balance_cons (b : num) (r : ForecastRecord)
    (gen : list ForecastRecord) :
  final_balance b (r :: gen) = final_balance (ending_balance r) gen.
Proof.
  unfold final_balance. destruct gen as [|r' gen]; [done|].
  rewrite last_cons_cons.
  destruct (last (r' :: gen)) eqn:Hlast; [done|].
  by apply last_None in Hlast.
Qed.

(** What the loop returns: generated rows at the leading ages of the range,
    chained from the starting balance, that end either with the range or at
    the floor. *)
Lemma forecast_loop_ok (est : t) (seg : string) (months : list Z) (b : num)
    (gen : list ForecastRecord) :
  forecast_loop est seg months b = Ok gen →
  Forall (generated_row est seg) gen
  ∧ f_month_on_book <$> gen = take (length gen) months
  ∧ (length gen ≤ length months)%nat
  ∧ chained b gen
  ∧ ((length gen < length months)%nat →
     leb (final_balance b gen) floor = true).
Proof.
  revert b gen. induction months as [|month months IH]; intros b gen.
  { intros [= <-]. repeat split; try done. simpl. lia. }
  cbn [forecast_loop].
  destruct (leb b floor) eqn:Hb.
  { intros [= <-]. repeat split; try done. simpl. lia. }
  destruct (get_hazard_rate est month "payment") as [p|e] eqn:Hrp; [|done].
  destruct (get_hazard_rate est month "chargeoff") as [c|e] eqn:Hrc; [|done].
  rewrite !bind_Ok.
  destruct (forecast_loop est seg months _) as [gen'|e] eqn:Hgen'; [|done].
  rewrite bind_Ok. intros [= <-].
  destruct (IH _ _ Hgen') as (Hrows & Hages & Hlen & Hchain & Hstop).
  split; [|split; [|split; [|split]]].
  - constructor; [|done]. repeat split; try done. exists p, c. done.
  - cbn [length take]. rewrite fmap_cons. f_equal. exact Hages.
  - simpl. lia.
  - split; [done|]. exact Hchain.
  - intros Hlt. rewrite final_balance_cons. apply Hstop. simpl in Hlt. lia.
Qed.

(** On a trained estimator the loop returns. *)
Lemma forecast_loop_total (est : t) (seg : string) (months : list Z) (b : num) :
  trained est → ∃ gen, forecast_loop est seg months b = Ok gen.
Proof.
  intros (rp & rc & Hp & Hc). revert b.
  induction months as [|month months IH]; intros b; [by eexists|].
  cbn [forecast_loop]. destruct (leb b floor); [by eexists|].
  destruct (get_hazard_rate_total est _ _ month Hp) as [p ->].
  destruct (get_hazard_rate_total est _ _ month Hc) as [c ->].
  rewrite !bind_Ok.
  destruct (IH (max0 (sub (sub b (mul b p)) (mul b c)))) as [gen ->].
  by eexists.
Qed.


End forecast_facts.

Section generate_forecast_facts.
Import HazardRateEstimator ForecastGenerator.

Lemma take_seqZ (a m : Z) (n : nat) :
  (n ≤ Z.to_nat m)%nat → take n (seqZ a m) = seqZ a (Z.of_nat n).
Proof.
  intros Hn. apply list_eq. intros i.
  destruct (decide (i < n)%nat) as [Hi|Hi].
  - rewrite lookup_take_lt by done. rewrite !lookup_seqZ_lt by lia. done.
  - rewrite lookup_take_ge by lia. rewrite lookup_seqZ_ge by lia. done.
Qed.

(** Rows whose ages run through consecutive integers are in ascending
    order. *)
Lemma consecutive_ages_sorted (gen : list ForecastRecord) (a : Z) :
  f_month_on_book <$> gen = seqZ a (Z.of_nat (length gen)) →
  StronglySorted age_le gen.
Proof.
  revert a. induction gen as [|r gen IH]; intros a Hages; [constructor|].
  rewrite seqZ_cons in Hages by (simpl; lia).
  injection Hages as Hr Hgen.
  assert (Hgen' :
    f_month_on_book <$> gen = seqZ (Z.succ a) (Z.of_nat (length gen))).
  { etrans; [exact Hgen|]. f_equal. lia. }
  constructor; [by apply (IH (Z.succ a))|].
  apply Forall_forall. intros r' Hr'. unfold age_le.
  assert (Hin : f_month_on_book r' ∈ seqZ (Z.succ a) (Z.of_nat (length gen)))
    by (rewrite <- Hgen'; by apply list_elem_of_fmap_2).
  apply elem_of_seqZ in Hin. lia.
Qed.

Lemma first_row_of_max (ka : FlowTable) (last : Z) :
  series_max (month_on_book <$> ka) = Some last →
  ∃ last_row rest,
    filter (λ r, month_on_book r = last) ka = last_row :: rest
    ∧ last_row ∈ ka ∧ month_on_book last_row = last.
Proof.
  intros [Hin _]%series_max_spec.
  apply list_elem_of_fmap in Hin as (r & -> & Hr).
  destruct (filter (λ r', month_on_book r' = month_on_book r) ka)
    as [|last_row rest] eqn:Hf.
  - assert (Hr' : r ∈ filter (λ r', month_on_book r' = month_on_book r) ka)
      by (by apply list_elem_of_filter).
    rewrite Hf in Hr'. by apply elem_of_nil in Hr'.
  - exists last_row, rest. split; [done|].
    assert (Hl : last_row ∈ filter (λ r', month_on_book r' = month_on_book r) ka)
      by (rewrite Hf; by left).
    apply list_elem_of_filter in Hl as [Hl1 Hl2]. done.
Qed.

(** What [generate_forecast] returns: the known actuals in age order, then
    the rows of the loop. *)
Lemma generate_forecast_inv (est : t) (ka : FlowTable) (mm : Z)
    (out : list ForecastRecord) :
  generate_forecast est ka mm = Ok out →
  ∃ last last_row gen,
    series_max (month_on_book <$> ka) = Some last
    ∧ head (filter (λ r, month_on_book r = last) ka) = Some last_row
    ∧ forecast_loop est (segment_id last_row)
        (range (last + 1) (mm + 1))
        (DataValidator.implied_next_balance last_row) = Ok gen
    ∧ out = sort_values f_month_on_book (actual <$> ka) ++ gen
    ∧ f_month_on_book <$> gen
      = range (last + 1) (last + 1 + Z.of_nat (length gen))
    ∧ Z.of_nat (length gen) ≤ Z.max 0 (mm - last)
    ∧ StronglySorted age_le out.
Proof.
  unfold generate_forecast.
  destruct (series_max (month_on_book <$> ka)) as [last|] eqn:Hmax; [|done].
  destruct (first_row_of_max ka last Hmax)
    as (last_row & rest & Hf & Hin & Hlast).
  rewrite Hf.
  destruct (forecast_loop est (segment_id last_row) _ _) as [gen|e] eqn:Hgen;
    [|done].
  rewrite bind_Ok. intros [= <-].
  destruct (forecast_loop_ok _ _ _ _ _ Hgen)
    as (Hrows & Hages & Hlen & Hchain & Hstop).
  unfold range in Hlen, Hages. rewrite length_seqZ in Hlen.
  rewrite take_seqZ in Hages by lia.
  assert (Hsorted : StronglySorted age_le gen)
    by (by apply (consecutive_ages_sorted gen (last + 1))).
  assert (Hcross : ∀ x y, x ∈ actual <$> ka → y ∈ gen →
            f_month_on_book x ≤ f_month_on_book y).
  { intros x y Hx Hy.
    apply list_elem_of_fmap in Hx as (r & -> & Hr).
    apply (list_elem_of_fmap_2 f_month_on_book) in Hy.
    rewrite Hages in Hy. apply elem_of_seqZ in Hy.
    apply series_max_spec in Hmax as [_ Hle].
    pose proof (Hle (month_on_book r) ltac:(by apply list_elem_of_fmap_2)).
    simpl. lia. }
  exists last, last_row, gen.
  split; [done|]. split; [by rewrite Hf|]. split; [done|].
  rewrite sort_values_app_above by done.
  split; [done|]. split; [unfold range; rewrite Hages; f_equal; lia|].
  split; [lia|].
  apply StronglySorted_app_2; [|apply sort_values_sorted|done].
  intros x y Hx Hy. apply Hcross; [|done].
  by rewrite sort_values_perm in Hx.
Qed.

(** On a trained estimator and a table that has a row [generate_forecast]
    returns. *)
Lemma generate_forecast_total (est : t) (ka : FlowTable) (mm : Z) :
  trained est → ka ≠ [] → ∃ out, generate_forecast est ka mm = Ok out.
Proof.
  intros Htr Hne. unfold generate_forecast.
  destruct (series_max (month_on_book <$> ka)) as [last|] eqn:Hmax;
    [|by destruct ka].
  destruct (first_row_of_max ka last Hmax) as (last_row & rest & -> & _).
  destruct (forecast_loop_total est (segment_id last_row)
              (range (last + 1) (mm + 1))
              (sub (sub (outstanding_balance last_row) (payments last_row))
                   (chargeoffs last_row)) Htr) as [gen ->].
  by eexists.
Qed.

Lemma generate_forecast_empty (est : t) (mm : Z) :
  generate_forecast est [] mm = Raise IndexError.
Proof. done. Qed.

Lemma filter_all {A} (P : A → Prop) `{∀ x, Decision (P x)} (l : list A) :
  Forall P l → filter P l = l.
Proof.
  induction 1 as [|x l Hx Hl IH]; [done|].
  rewrite filter_cons_True by done. by rewrite IH.
Qed.

Lemma filter_none {A} (P : A → Prop) `{∀ x, Decision (P x)} (l : list A) :
  Forall (λ x, ¬ P x) l → filter P l = [].
Proof.
  induction 1 as [|x l Hx Hl IH]; [done|].
  by rewrite filter_cons_False.
Qed.

(** The rows flagged [Forecast] are the rows of the loop. *)
Lemma forecast_part_output (ka : FlowTable) (est : t) (seg : string)
    (gen : list ForecastRecord) :
  Forall (generated_row est seg) gen →
  forecast_part (sort_values f_month_on_book (actual <$> ka) ++ gen) = gen.
Proof.
  intros Hgen. unfold forecast_part. rewrite filter_app.
  rewrite filter_none; cycle 1.
  { rewrite sort_values_perm. apply Forall_fmap, Forall_forall.
    by intros r _. }
  simpl. apply filter_all. eapply Forall_impl; [exact Hgen|].
  by intros r (Hflag & _).
Qed.

(** With non-negative rates the balances of the generated rows do not
    increase from a row to the next. *)
Lemma chained_non_increasing (est : t) (seg : string) (b : num)
    (gen : list ForecastRecord) :
  nonnegative_rates est →
  Forall (generated_row est seg) gen → chained b gen →
  Sorted (λ r r', leb (f_outstanding_balance r') (f_outstanding_balance r)
                  = true) gen.
Proof.
  intros Hnn Hrows. revert b.
  induction Hrows as [|r gen Hr Hrows IH]; intros b Hchain; [constructor|].
  destruct Hchain as [Hb Hchain]. constructor; [by eapply IH|].
  destruct gen as [|r' gen]; constructor.
  destruct Hchain as [Hb' _].
  apply Forall_cons in Hrows as [Hr' _].
  destruct Hr as (_ & _ & Hfloor & p & c & Hp & Hc & Hpay & Hco).
  destruct Hr' as (_ & _ & Hfloor' & _).
  rewrite Hb' in Hfloor' |- *. unfold ending_balance in *.
  rewrite Hpay, Hco in Hfloor' |- *.
  apply decay_step; eauto.
Qed.

End generate_forecast_facts.

Section forecast_claims.
Import HazardRateEstimator ForecastGenerator.

(** An estimator whose stored rates are all non-negative returns only
    non-negative rates. *)
Lemma stored_nonnegative_rates (est : t) :
  (∀ key rates, hazard_curves est !! key = Some (Rates rates) →
                map_Forall (λ _ x, leb zero x = true) rates) →
  nonnegative_rates est.
Proof.
  intros Hall age kind r. unfold get_hazard_rate.
  case_bool_decide; [done|].
  destruct (hazard_curves est !! _) as [[rates|agg]|] eqn:Hk; try done.
  apply rate_at_nonneg. by eapply Hall.
Qed.

Lemma two_segments_nonnegative_rates :
  nonnegative_rates (fit (__init__ 1) two_segments).1.
Proof.
  apply stored_nonnegative_rates. intros key rates.
  rewrite fit_curves_lookup. cbv zeta.
  repeat case_decide; try done; intros [= <-];
    apply (bool_decide_unpack _); vm_compute; exact I.
Qed.

End forecast_claims.



(** With a little more than a cent left, one row is generated and the next
    balance is below the floor: the horizon no longer matters. *)
Example generate_forecast_nearly_paid :
  let est := (HazardRateEstimator.fit (HazardRateEstimator.__init__ 1)
                two_segments).1 in
  (fmap (M := list) f_month_on_book)
    <$> ForecastGenerator.generate_forecast est nearly_paid 60 = Ok [0; 1]
  ∧ ForecastGenerator.generate_forecast est nearly_paid 600
    = ForecastGenerator.generate_forecast est nearly_paid 60.
Proof. split; compute_done. Qed.

(** C5, as the code has it.  In what [generate_forecast] returns, every row
    flagged [Forecast] was emitted with a balance that is not at or below
    the floor of a cent, so none is negative; and when the rates of the
    estimator are non-negative, the balances of the [Forecast] rows do not
    increase from a row to the next. *)
Theorem forecast_rows_balances
    (est : HazardRateEstimator.t) (ka : FlowTable) (mm : Z)
    (out : list ForecastRecord) :
  ForecastGenerator.generate_forecast est ka mm = Ok out →
  Forall (λ r, leb (f_outstanding_balance r) ForecastGenerator.floor = false
               ∧ ltb (f_outstanding_balance r) zero = false)
         (forecast_part out)
  ∧ (nonnegative_rates est →
     Sorted (λ r r', leb (f_outstanding_balance r') (f_outstanding_balance r)
                     = true)
            (forecast_part out)).
Proof.
  intros Hout.
  destruct (generate_forecast_inv est ka mm out Hout)
    as (last & last_row & gen & _ & _ & Hloop & -> & _).
  destruct (forecast_loop_ok _ _ _ _ _ Hloop)
    as (Hrows & _ & _ & Hchain & _).
  rewrite (forecast_part_output ka est (segment_id last_row)) by done.
  split.
  - eapply Forall_impl; [exact Hrows|].
    intros r (_ & _ & Hfloor & _). split; [done|].
    by apply above_floor_not_negative.
  - intros Hnn. by eapply chained_non_increasing.
Qed.

Lemma forecast_rows_balances_witness :
  let est := (HazardRateEstimator.fit (HazardRateEstimator.__init__ 1)
                two_segments).1 in
  ∃ out,
    ForecastGenerator.generate_forecast est two_months 6 = Ok out
    ∧ Forall (λ r, leb (f_outstanding_balance r) ForecastGenerator.floor = false
                   ∧ ltb (f_outstanding_balance r) zero = false)
             (forecast_part out)
    ∧ Sorted (λ r r', leb (f_outstanding_balance r') (f_outstanding_balance r)
                      = true)
             (forecast_part out).
Proof.
  intros est.
  destruct (ForecastGenerator.generate_forecast est two_months 6)
    as [out|e] eqn:Hout; [|exfalso; vm_compute in Hout; discriminate Hout].
  exists out. split; [reflexivity|].
  destruct (forecast_rows_balances est two_months 6 out Hout) as [Hpos Hdec].
  split; [exact Hpos|]. apply Hdec, two_segments_nonnegative_rates.
Defined.

(** The claim of C5 fails on the known actuals themselves, which are
    returned as they are: here the first balance is negative and the second
    is larger than the first. *)
Lemma generate_forecast_keeps_actual_balances :
  (fmap (M := list) f_outstanding_balance)
    <$> ForecastGenerator.generate_forecast
          (HazardRateEstimator.fit (HazardRateEstimator.__init__ 1)
             two_segments).1 credit_then_draw 2
  = Ok [of_Z (-50); of_Z 100; of_Z 90].
Proof. compute_done. Qed.

(** ** Non-negative training data give non-negative curves *)

Section nonnegative_curves.
Import HazardRateEstimator.

Lemma nonneg_not_nan (x : num) : leb zero x = true → is_nan x = false.
Proof. by destruct x. Qed.

Lemma foldl_add_nonneg (l : list num) (a : num) :
  leb zero a = true → Forall (λ x, leb zero x = true) l →
  leb zero (foldl add a l) = true.
Proof.
  intros Ha Hl. revert a Ha.
  induction Hl as [|x l Hx Hl IH]; intros a Ha; simpl; [done|].
  apply IH. by apply add_nonneg.
Qed.

Lemma sum_nonneg (l : list num) :
  Forall (λ x, leb zero x = true) l → leb zero (Num.sum l) = true.
Proof.
  intros Hl. unfold Num.sum. apply foldl_add_nonneg; [done|].
  apply Forall_forall. intros x [_ Hx]%list_elem_of_filter.
  by eapply Forall_forall in Hl.
Qed.

(** A quotient of non-negative numbers, with a missing quotient replaced by
    zero, is non-negative: [x / 0] is [+inf] for [x > 0]. *)
Lemma raw_rate_nonneg (x y : num) :
  leb zero x = true → leb zero y = true → leb zero (raw_rate x y) = true.
Proof.
  unfold raw_rate.
  destruct x as [a| | |], y as [b| | |]; simpl; try done.
  - rewrite !bool_decide_eq_true. intros Ha Hb.
    case_decide as Hb0.
    + pose proof (sign_nonneg a Ha). by destruct (sign a).
    + simpl. apply bool_decide_eq_true.
      apply Qcmult_nonneg_nonneg; [done|].
      apply Qclt_le_weak, Qcinv_pos.
      destruct (Qcle_lt_or_eq _ _ Hb) as [|Heq]; [done|]. by destruct Hb0.
  - rewrite bool_decide_eq_true. intros _ Hb.
    pose proof (sign_nonneg b Hb). by destruct (sign b).
Qed.

Lemma mean_nonneg (l : list num) :
  l ≠ [] → Forall (λ x, leb zero x = true) l → leb zero (mean l) = true.
Proof.
  intros Hne Hl. rewrite mean_average; [|by eapply Forall_impl;
    [exact Hl|apply nonneg_not_nan]|done].
  unfold average.
  pose proof (foldl_add_nonneg l zero eq_refl Hl) as Hsum.
  assert (Hn : (0 < Qc_of_Z (Z.of_nat (length l)))%Qc).
  { apply Qc_of_Z_pos. destruct l; [done|simpl; lia]. }
  unfold of_nat, of_Z.
  destruct (foldl add zero l) as [a| | |]; simpl in *; try done.
  - rewrite decide_False by (by apply not_symmetry, Qclt_not_eq).
    simpl. apply bool_decide_eq_true. apply bool_decide_eq_true in Hsum.
    apply Qcmult_nonneg_nonneg; [done|]. by apply Qclt_le_weak, Qcinv_pos.
  - by rewrite (sign_pos _ Hn).
Qed.

Lemma fin_nonneg_leb (x : num) : fin_nonneg x → leb zero x = true.
Proof. intros (q & -> & Hq). by apply bool_decide_eq_true. Qed.

Lemma foldl_add_fin (l : list num) (a : Qc) :
  Forall fin_nonneg l → ∃ q, foldl add (Fin a) l = Fin q ∧ (a ≤ q)%Qc.
Proof.
  intros Hl. revert a.
  induction Hl as [|x l (q & -> & Hq) _ IH]; intros a; simpl.
  - exists a. split; [done|apply Qcle_refl].
  - destruct (IH (a + q)%Qc) as (s & Hs & Hle). exists s. split; [done|].
    eapply Qcle_trans; [|exact Hle].
    rewrite <- (Qcplus_0_r a) at 1.
    apply Qcplus_le_compat; [apply Qcle_refl|done].
Qed.

Lemma filter_not_nan_fin (l : list num) :
  Forall fin_nonneg l → filter (λ x, is_nan x = false) l = l.
Proof.
  intros Hl. apply filter_all.
  eapply Forall_impl; [exact Hl|]. by intros x (q & -> & _).
Qed.

(** A sum of finite values that are not negative is one of them, and it is
    positive when its first value is. *)
Lemma sum_fin_nonneg (l : list num) :
  Forall fin_nonneg l → fin_nonneg (Num.sum l).
Proof.
  intros Hl. unfold Num.sum. rewrite filter_not_nan_fin by done.
  destruct (foldl_add_fin l 0%Qc Hl) as (q & Hq & Hle). by exists q.
Qed.

Lemma sum_fin_pos (l : list num) (b : Qc) (l' : list num) :
  l = Fin b :: l' → (0 < b)%Qc → Forall fin_nonneg l' →
  ∃ q, Num.sum l = Fin q ∧ (0 < q)%Qc.
Proof.
  intros -> Hb Hl. unfold Num.sum.
  rewrite filter_cons_True by done. rewrite filter_not_nan_fin by done.
  simpl. destruct (foldl_add_fin l' (0 + b)%Qc Hl) as (q & Hq & Hle).
  exists q. split; [done|]. eapply Qclt_le_trans; [|exact Hle].
  by rewrite Qcplus_0_l.
Qed.

(** Smoothing keeps finite values that are not negative so. *)
Lemma smooth_nonneg (w : Z) (xs : list num) :
  Forall fin_nonneg xs →
  Forall (λ x, leb zero x = true) (smooth w xs).
Proof.
  intros Hxs. apply Forall_lookup. intros i x Hi.
  pose proof (lookup_lt_Some _ _ _ Hi) as Hlt. rewrite length_smooth in Hlt.
  rewrite smooth_lookup in Hi by done.
  case_bool_decide as Hw.
  - injection Hi as <-.
    destruct (window_bounds_centered w (Z.of_nat (length xs)) (Z.of_nat i))
      as (_ & _ & Hs & He & Hsize & _); [lia|lia|].
    assert (Hwin : Forall fin_nonneg (window w xs (Z.of_nat i)))
      by (unfold window, slice; by apply Forall_take, Forall_drop).
    rewrite inf_to_nan_finite
      by (eapply Forall_impl; [exact Hwin|]; intros y (q & -> & _); by exists q).
    apply mean_nonneg.
    + intros Hnil.
      pose proof (length_slice (window_start w (Z.of_nat i))
                    (window_end w (Z.of_nat (length xs)) (Z.of_nat i)) xs
                    ltac:(lia) ltac:(lia) ltac:(lia)) as Hlen.
      unfold window in Hnil. rewrite Hnil in Hlen. simpl in Hlen. lia.
    + eapply Forall_impl; [exact Hwin|]. apply fin_nonneg_leb.
  - eapply Forall_lookup in Hxs; [|exact Hi]. by apply fin_nonneg_leb.
Qed.

Lemma foldl_insert_value (l : list (Z * num)) (d : gmap Z num) (k : Z)
    (v : num) :
  foldl (λ d kv, <[kv.1 := kv.2]> d) d l !! k = Some v →
  d !! k = Some v ∨ (k, v) ∈ l.
Proof.
  revert d. induction l as [|[k' v'] l IH]; intros d; simpl; [by left|].
  intros [Hd|Hin]%IH; [|right; by right].
  simpl in Hd. destruct (decide (k' = k)) as [->|Hne].
  - rewrite lookup_insert_eq in Hd. injection Hd as ->. right. by left.
  - rewrite lookup_insert_ne in Hd by done. by left.
Qed.

(** Every value of [dict(zip(keys, values))] is one of the values. *)
Lemma dict_zip_value (ks : list Z) (vs : list num) (k : Z) (v : num) :
  dict_zip ks vs !! k = Some v → v ∈ vs.
Proof.
  unfold dict_zip. intros [Hd|Hin]%foldl_insert_value; [done|].
  by apply elem_of_zip_r in Hin.
Qed.

(** On rows of finite amounts with a positive balance, the raw rate of every
    age of the table is finite and not negative. *)
Lemma raw_rates_nonneg (flow : FlowRecord → num) (df : FlowTable) :
  Forall (λ r, fin_nonneg (flow r)
               ∧ ∃ b, outstanding_balance r = Fin b ∧ (0 < b)%Qc) df →
  Forall fin_nonneg (raw_rates flow df).
Proof.
  intros Hdf. unfold raw_rates. apply Forall_fmap, Forall_forall.
  intros k Hk. simpl.
  destruct (ages_spec df) as (_ & _ & Hages).
  apply Hages in Hk as (r0 & Hr0 & Hk0).
  assert (Hgroup : Forall (λ r, fin_nonneg (flow r)
                     ∧ ∃ b, outstanding_balance r = Fin b ∧ (0 < b)%Qc)
                     (filter (λ r, month_on_book r = k) df)).
  { apply Forall_forall. intros r [_ Hr]%list_elem_of_filter.
    by eapply Forall_forall in Hdf. }
  assert (Hne : r0 ∈ filter (λ r, month_on_book r = k) df)
    by (by apply list_elem_of_filter).
  unfold age_sum.
  destruct (filter (λ r, month_on_book r = k) df) as [|r g] eqn:Hg;
    [by apply elem_of_nil in Hne|].
  apply Forall_cons in Hgroup as [[Hflow (b & Hb & Hbpos)] Hgroup'].
  destruct (sum_fin_nonneg (flow <$> r :: g)) as (a & -> & Ha).
  { rewrite fmap_cons. apply Forall_cons. split; [done|].
    apply Forall_fmap, Forall_forall. intros x Hx.
    eapply Forall_forall in Hgroup'; [|exact Hx]. simpl. tauto. }
  destruct (sum_fin_pos (outstanding_balance <$> r :: g) b
              (outstanding_balance <$> g)) as (q & -> & Hq).
  { by rewrite fmap_cons, Hb. }
  { done. }
  { apply Forall_fmap, Forall_forall. intros x Hx.
    eapply Forall_forall in Hgroup'; [|exact Hx].
    destruct Hgroup' as [_ (b' & Hb' & Hpos)]. exists b'. simpl.
    split; [done|]. by apply Qclt_le_weak. }
  simpl. rewrite decide_False by (by apply not_symmetry, Qclt_not_eq).
  simpl. eexists. split; [done|].
  apply Qcmult_nonneg_nonneg; [done|]. by apply Qclt_le_weak, Qcinv_pos.
Qed.

(** Fitted on a table of finite rows whose payments and chargeoffs are not
    negative and whose balances are positive, the estimator returns
    non-negative rates at every age. *)
Lemma fit_nonnegative_rates (self : t) (df : FlowTable) :
  Forall sound_row df → nonnegative_rates (fit self df).1.
Proof.
  intros Hdf. apply stored_nonnegative_rates. intros key rates.
  rewrite fit_curves_lookup. cbv zeta.
  destruct (make_agg_df_columns (smoothing_window self) df)
    as (Ha & _ & _ & Hsp & Hsc).
  rewrite Ha, Hsp, Hsc.
  repeat case_decide; try done; intros [= <-]; intros k v Hkv;
    apply dict_zip_value in Hkv; revert v Hkv;
    apply Forall_forall, smooth_nonneg, raw_rates_nonneg;
    (eapply Forall_impl; [exact Hdf|]); intros r Hr;
    unfold sound_row in Hr;
    destruct (payments r) as [a| | |]; try done;
    destruct (chargeoffs r) as [c| | |]; try done;
    destruct (outstanding_balance r) as [b| | |]; try done;
    (split; [eexists; split; [done|tauto]|eexists; split; [done|tauto]]).
Qed.

End nonnegative_curves.

(** A curve fitted on negative payments has a negative rate, and the
    generated balances grow. *)
Example negative_rate_grows_balance :
  (fmap (M := list) f_outstanding_balance)
    <$> ForecastGenerator.generate_forecast
          (HazardRateEstimator.fit (HazardRateEstimator.__init__ 1)
             [row "A" 0 (of_Z 1000) (of_Z (-100)) (of_Z 0)]).1
          [row "N" 0 (of_Z 100) (of_Z 0) (of_Z 0)] 2
  = Ok [of_Z 100; of_Z 100; of_Z 110].
Proof. compute_done. Qed.

(** ** More on the validator *)

Section validator_more.
Import DataValidator.

Lemma foldl_append_warnings {S} (g : S → option message) (segs : list S)
    (r : ValidationResult) :
  warnings (foldl (λ res s, match g s with
                            | Some w => append_warning w res
                            | None => res
                            end) r segs)
  = warnings r ++ omap g segs.
Proof.
  revert r. induction segs as [|s segs IH]; intros r; simpl.
  - by rewrite app_nil_r.
  - rewrite IH. destruct (g s) as [w|]; simpl; [|done].
    by rewrite <- app_assoc.
Qed.

Lemma foldl_ext_in {A B} (f g : A → B → A) (l : list B) (a : A) :
  (∀ a b, f a b = g a b) → foldl f a l = foldl g a l.
Proof.
  intros Hfg. revert a. induction l as [|b l IH]; intros a; simpl; [done|].
  by rewrite Hfg, IH.
Qed.

Lemma business_logic_warnings_eq (df : DataFrame) (r : ValidationResult) :
  warnings (_check_business_logic df r)
  = warnings r ++ omap (flow_warning df) (segments df).
Proof.
  unfold _check_business_logic. rewrite <- foldl_append_warnings.
  f_equal. apply foldl_ext_in. intros a s. unfold flow_warning, segment_rows.
  by destruct (first_inconsistency _).
Qed.

Lemma completeness_warnings_eq (df : DataFrame) (r : ValidationResult) :
  warnings (_check_completeness df r)
  = warnings r ++ omap (gap_warning df) (segments df).
Proof.
  unfold _check_completeness. rewrite <- foldl_append_warnings.
  f_equal. apply foldl_ext_in. intros a s.
  unfold gap_warning, missing_months, when.
  destruct (series_min _) as [lo|]; [|done].
  destruct (series_max _) as [hi|]; [|done].
  destruct (filter _ (range lo (hi + 1))) as [|m ms]; [done|].
  by rewrite bool_decide_eq_true_2.
Qed.

(** The warnings of the range checks are among three. *)
Lemma data_quality_warnings (df : DataFrame) :
  Forall (λ w, w = NonPositiveBalance ∨ w = PaymentRateOver
               ∨ w = ChargeoffRateOver)
    (warnings (_check_data_quality df
                 {| valid := true; errors := []; warnings := [] |})).
Proof.
  set (P := λ w, w = NonPositiveBalance ∨ w = PaymentRateOver
                 ∨ w = ChargeoffRateOver).
  assert (Hwarn : ∀ (c : bool) m x,
            P m → Forall P (warnings x) →
            Forall P (warnings (when c (append_warning m) x))).
  { intros [] m x Hm Hx; [|done]. simpl. apply Forall_app.
    split; [done|]. by constructor. }
  assert (Herr : ∀ (c : bool) m x,
            Forall P (warnings x) →
            Forall P (warnings (when c (append_error m) x))).
  { by intros [] m x Hx. }
  unfold _check_data_quality. cbv zeta.
  apply Hwarn; [unfold P; tauto|].
  apply Hwarn; [unfold P; tauto|].
  apply Herr, Herr, Hwarn; [unfold P; tauto|].
  apply Herr. constructor.
Qed.

(** The warnings of a frame that has the required columns: those of the
    range checks, then one per segment whose balance flow breaks, then one
    per segment that skips ages. *)
Lemma validate_data_warnings (df : DataFrame) :
  REQUIRED_COLUMNS ⊆ df_columns df →
  ∃ quality,
    warnings (validate_data df)
    = quality ++ omap (flow_warning df) (segments df)
      ++ omap (gap_warning df) (segments df)
    ∧ Forall (λ w, w = NonPositiveBalance ∨ w = PaymentRateOver
                   ∨ w = ChargeoffRateOver) quality.
Proof.
  intros Hcols. unfold validate_data.
  rewrite required_columns_present by done.
  rewrite bool_decide_eq_false_2 by (by intros []).
  rewrite completeness_warnings_eq, business_logic_warnings_eq.
  eexists. split; [by rewrite <- app_assoc|]. apply data_quality_warnings.
Qed.

(** The inner loop finds the first pair of neighbours that is off
    balance. *)
Lemma first_inconsistency_spec (l : list FlowRecord) (m : Z) :
  first_inconsistency l = Some m ↔ first_break l m.
Proof.
  revert m. induction l as [|r l IH]; intros m.
  { split; [done|]. by intros (i & r & r' & Hi & _). }
  destruct l as [|r' l].
  { split; [done|]. intros (i & r1 & r2 & Hi & Hi' & _). by destruct i. }
  cbn [first_inconsistency].
  destruct (gtb _ _) eqn:Hoff.
  - split.
    + intros [= <-]. exists 0%nat, r, r'. repeat split; try done. lia.
    + intros (i & r1 & r2 & Hi & Hi' & Hm & Hoff' & Hfirst).
      destruct i as [|i].
      * simpl in Hi. by injection Hi as <-; subst.
      * destruct (Hfirst 0%nat r r' ltac:(lia) eq_refl eq_refl). exact Hoff.
  - rewrite IH. split.
    + intros (i & r1 & r2 & Hi & Hi' & Hm & Hoff' & Hfirst).
      exists (S i), r1, r2. repeat split; try done.
      intros j ra rb Hj Ha Hb. destruct j as [|j].
      * simpl in Ha, Hb. injection Ha as <-. injection Hb as <-.
        unfold off_balance. by rewrite Hoff.
      * apply (Hfirst j ra rb); [lia|done|done].
    + intros (i & r1 & r2 & Hi & Hi' & Hm & Hoff' & Hfirst).
      destruct i as [|i].
      * simpl in Hi, Hi'. injection Hi as <-. injection Hi' as <-.
        unfold off_balance in Hoff'. by rewrite Hoff in Hoff'.
      * exists i, r1, r2. repeat split; try done.
        intros j ra rb Hj Ha Hb. apply (Hfirst (S j) ra rb); [lia|done|done].
Qed.

Lemma segments_spec (df : DataFrame) :
  NoDup (segments df)
  ∧ ∀ s, s ∈ segments df ↔ ∃ r, r ∈ df_rows df ∧ segment_id r = s.
Proof.
  unfold segments.
  destruct (unique_spec (segment_id <$> df_rows df)) as [Hnd Hel].
  split; [done|]. intros s. rewrite Hel, list_elem_of_fmap. naive_solver.
Qed.

Lemma missing_columns_nil (df : DataFrame) :
  filter (λ c, c ∉ df_columns df) REQUIRED_COLUMNS = []
  ↔ REQUIRED_COLUMNS ⊆ df_columns df.
Proof.
  split; [|apply required_columns_present].
  intros Hnil c Hc. destruct (decide (c ∈ df_columns df)) as [|Hn]; [done|].
  assert (Hin : c ∈ filter (λ c, c ∉ df_columns df) REQUIRED_COLUMNS)
    by (by apply list_elem_of_filter).
  rewrite Hnil in Hin. by apply elem_of_nil in Hin.
Qed.

Lemma segment_months_spec (df : DataFrame) (s : string) (x : Z) :
  x ∈ merge_sort Z.le (unique (month_on_book <$> rows_of_segment s df))
  ↔ ∃ r, r ∈ rows_of_segment s df ∧ month_on_book r = x.
Proof.
  rewrite merge_sort_Permutation.
  destruct (unique_spec (month_on_book <$> rows_of_segment s df)) as [_ ->].
  rewrite list_elem_of_fmap. naive_solver.
Qed.

(** The listed months are the ages the segment skips. *)
Lemma missing_months_spec (df : DataFrame) (s : string) (m : Z) :
  m ∈ missing_months df s ↔ skipped_age s df m.
Proof.
  unfold missing_months, skipped_age.
  set (months := merge_sort Z.le
                   (unique (month_on_book <$> rows_of_segment s df))).
  assert (Hmonths : ∀ x, x ∈ months
            ↔ ∃ r, r ∈ rows_of_segment s df ∧ month_on_book r = x)
    by apply segment_months_spec.
  destruct (series_min months) as [lo|] eqn:Hmin.
  - destruct (series_max months) as [hi|] eqn:Hmax;
      [|by destruct months].
    apply series_min_spec in Hmin as [Hlo Hlo'].
    apply series_max_spec in Hmax as [Hhi Hhi'].
    unfold range. rewrite list_elem_of_filter, elem_of_seqZ. split.
    + intros [Hnot Hrange]. split.
      * apply Hmonths in Hlo as (r & Hr & Hrl).
        apply Hmonths in Hhi as (r' & Hr' & Hrh).
        exists r, r'. split; [done|]. split; [done|].
        assert (m ≠ lo) by (intros ->; apply Hnot, Hmonths; eauto).
        assert (m ≠ hi) by (intros ->; apply Hnot, Hmonths; eauto).
        lia.
      * intros r Hr Heq. apply Hnot, Hmonths. eauto.
    + intros [(r & r' & Hr & Hr' & Hbetween) Hnone]. split.
      * intros (x & Hx & Heq)%Hmonths. by apply (Hnone x).
      * pose proof (Hlo' (month_on_book r) ltac:(apply Hmonths; eauto)).
        pose proof (Hhi' (month_on_book r') ltac:(apply Hmonths; eauto)).
        lia.
  - clearbody months. destruct months as [|x months']; [|done].
    split; [by intros ?%elem_of_nil|].
    intros [(r & r' & Hr & _) _].
    assert (Hin : month_on_book r ∈ @nil Z) by (apply Hmonths; eauto).
    by apply elem_of_nil in Hin.
Qed.

Lemma missing_months_NoDup (df : DataFrame) (s : string) :
  NoDup (missing_months df s).
Proof.
  unfold missing_months. repeat case_match; try apply NoDup_nil_2.
  apply NoDup_filter, NoDup_seqZ.
Qed.

Lemma validate_data_valid_iff_columns_aux (df : DataFrame) :
  valid (validate_data df) = true → REQUIRED_COLUMNS ⊆ df_columns df.
Proof.
  intros Hvalid. apply missing_columns_nil.
  unfold validate_data in Hvalid.
  case_bool_decide as Hmiss; [done|].
  destruct (filter _ REQUIRED_COLUMNS); [done|]. by destruct Hmiss.
Qed.

Lemma validate_data_without_columns (df : DataFrame) :
  ¬ REQUIRED_COLUMNS ⊆ df_columns df →
  validate_data df
  = {| valid := false;
       errors := [MissingColumns
                    (filter (λ c, c ∉ df_columns df) REQUIRED_COLUMNS)];
       warnings := [] |}
  ∧ filter (λ c, c ∉ df_columns df) REQUIRED_COLUMNS ≠ [].
Proof.
  intros Hcols.
  assert (Hne : filter (λ c, c ∉ df_columns df) REQUIRED_COLUMNS ≠ [])
    by (by rewrite missing_columns_nil).
  split; [|done]. unfold validate_data. by rewrite bool_decide_eq_true_2.
Qed.

Lemma NoDup_fmap_inj {A B} (f : A → B) (l : list A) (x y : A) :
  NoDup (f <$> l) → x ∈ l → y ∈ l → f x = f y → x = y.
Proof.
  intros Hnd [i Hi]%list_elem_of_lookup [j Hj]%list_elem_of_lookup Hxy.
  assert (Hfi : (f <$> l) !! i = Some (f x)) by (by rewrite list_lookup_fmap, Hi).
  assert (Hfj : (f <$> l) !! j = Some (f x))
    by (by rewrite list_lookup_fmap, Hj, Hxy).
  pose proof (NoDup_lookup _ _ _ _ Hnd Hfi Hfj) as ->. congruence.
Qed.

(** When no two elements have the same key, the sorted order is unique:
    every sorting method returns what [sort_values] returns. *)
Lemma sort_values_unique {A} (key : A → Z) (l l' : list A) :
  NoDup (key <$> l) → l' ≡ₚ l →
  StronglySorted (λ a b, key a ≤ key b) l' → l' = sort_values key l.
Proof.
  intros Hnd Hperm Hsorted.
  apply (StronglySorted_unique_strong (λ a b, key a ≤ key b)); [|done| |].
  - intros x1 x2 Hx1 Hx2 H12 H21.
    apply (NoDup_fmap_inj key l); [done| | |lia].
    + by rewrite <- Hperm.
    + by rewrite <- (sort_values_perm key l).
  - apply sort_values_sorted.
  - by rewrite sort_values_perm.
Qed.

Lemma NoDup_fmap_filter {A B} (f : A → B) (P : A → Prop)
    `{∀ x, Decision (P x)} (l : list A) :
  NoDup (f <$> l) → NoDup (f <$> filter P l).
Proof.
  induction l as [|x l IH]; [done|].
  rewrite fmap_cons, NoDup_cons. intros [Hx Hnd].
  rewrite filter_cons. case_decide; [|by apply IH].
  rewrite fmap_cons. apply NoDup_cons. split; [|by apply IH].
  intros (y & Hy & [_ Hin]%list_elem_of_filter)%list_elem_of_fmap.
  apply Hx. rewrite Hy. by apply list_elem_of_fmap_2.
Qed.

(** A frame whose rows all have different ages has one row per age in
    every segment. *)
Lemma distinct_ages_one_row_per_age (df : DataFrame) :
  NoDup (month_on_book <$> df_rows df) → one_row_per_age df.
Proof. intros Hnd s. by apply NoDup_fmap_filter. Qed.

Lemma ascending_rows_unique (s : string) (df : DataFrame) (l : list FlowRecord) :
  one_row_per_age df → ascending_rows s df l ↔ l = segment_rows s df.
Proof.
  intros Hone. split.
  - intros [Hperm Hsorted]. by apply sort_values_unique.
  - intros ->. split; [apply sort_values_perm|apply sort_values_sorted].
Qed.

End validator_more.

(** X1.  [validate_data] answers [valid = True] exactly on the frames that
    have the five required columns: nothing in the rows can clear the
    flag. *)
Theorem validate_data_valid_iff_columns (df : DataFrame) :
  valid (DataValidator.validate_data df) = true
  ↔ DataValidator.REQUIRED_COLUMNS ⊆ df_columns df.
Proof.
  split.
  - intros Hvalid. apply missing_columns_nil.
    unfold DataValidator.validate_data in Hvalid.
    case_bool_decide as Hmiss; [done|].
    destruct (filter _ DataValidator.REQUIRED_COLUMNS); [done|].
    by destruct Hmiss.
  - intros Hcols. by destruct (validate_data_with_columns df Hcols).
Qed.

(** X2.  On a frame that lacks a required column [validate_data] returns at
    once: the result is invalid, its only error names the required columns
    that are absent, and there is no warning, whatever the rows hold. *)
Theorem validate_data_missing_columns (df : DataFrame) :
  ¬ DataValidator.REQUIRED_COLUMNS ⊆ df_columns df →
  ∃ missing,
    DataValidator.validate_data df
    = {| valid := false; errors := [MissingColumns missing]; warnings := [] |}
    ∧ missing ≠ []
    ∧ ∀ c, c ∈ missing
           ↔ c ∈ DataValidator.REQUIRED_COLUMNS ∧ c ∉ df_columns df.
Proof.
  intros Hcols.
  exists (filter (λ c, c ∉ df_columns df) DataValidator.REQUIRED_COLUMNS).
  assert (Hne : filter (λ c, c ∉ df_columns df) DataValidator.REQUIRED_COLUMNS
                ≠ []) by (by rewrite missing_columns_nil).
  split; [|split; [done|]].
  - unfold DataValidator.validate_data. by rewrite bool_decide_eq_true_2.
  - intros c. rewrite list_elem_of_filter. tauto.
Qed.

Lemma validate_data_missing_columns_witness :
  ∃ missing,
    DataValidator.validate_data
      {| df_columns := ["segment_id"; "month_on_book"; "payments"]%string;
         df_rows := [row "test" 0 (of_Z 1000) (of_Z (-100)) (of_Z 10)] |}
    = {| valid := false; errors := [MissingColumns missing]; warnings := [] |}
    ∧ missing ≠ []
    ∧ ∀ c, c ∈ missing
           ↔ c ∈ DataValidator.REQUIRED_COLUMNS
             ∧ c ∉ ["segment_id"; "month_on_book"; "payments"]%string.
Proof.
  apply (validate_data_missing_columns
    {| df_columns := ["segment_id"; "month_on_book"; "payments"]%string;
       df_rows := [row "test" 0 (of_Z 1000) (of_Z (-100)) (of_Z 10)] |}).
  intros Hsub.
  assert (Hin : "chargeoffs"%string
                ∈ ["segment_id"; "month_on_book"; "payments"]%string).
  { apply Hsub. apply (bool_decide_unpack _). vm_compute. exact I. }
  apply (bool_decide_pack _) in Hin. vm_compute in Hin. exact Hin.
Defined.

(** X3.  The balance-flow check reports a segment at most once, and at its
    first break: on a frame that has the required columns and in which no
    segment has two rows of the same age, the warning for segment [s] at
    month [m] is present exactly when [s] is a segment of the frame and,
    with the rows of [s] in ascending age, the first pair of neighbouring
    rows whose balances are more than a cent apart starts at age [m]; no
    two such warnings coincide or name the same segment.  (Among rows of
    the same age the order pandas sorts them into is not fixed, and which
    neighbours are compared depends on it.) *)
Theorem balance_flow_warning_first_break (df : DataFrame) :
  DataValidator.REQUIRED_COLUMNS ⊆ df_columns df →
  one_row_per_age df →
  (∀ s m,
     BalanceFlowInconsistency s m ∈ warnings (DataValidator.validate_data df)
     ↔ s ∈ segments df
       ∧ ∃ l, ascending_rows s df l ∧ first_break l m)
  ∧ (∀ s m m',
       BalanceFlowInconsistency s m ∈ warnings (DataValidator.validate_data df) →
       BalanceFlowInconsistency s m' ∈ warnings (DataValidator.validate_data df) →
       m = m')
  ∧ NoDup (filter is_flow_warning (warnings (DataValidator.validate_data df))).
Proof.
  intros Hcols Hone.
  destruct (validate_data_warnings df Hcols) as (quality & Hw & Hq).
  assert (Hmem : ∀ s m,
    BalanceFlowInconsistency s m ∈ warnings (DataValidator.validate_data df)
    ↔ s ∈ segments df
      ∧ DataValidator.first_inconsistency (segment_rows s df) = Some m).
  { intros s m. rewrite Hw, !elem_of_app, !list_elem_of_omap. split.
    - intros [Hin|[(s' & Hs' & Hf)|(s' & Hs' & Hg)]].
      + eapply Forall_forall in Hq; [|exact Hin]. naive_solver.
      + unfold flow_warning in Hf.
        destruct (DataValidator.first_inconsistency _) as [m'|] eqn:Hfi;
          [|done].
        by simplify_eq/=.
      + unfold gap_warning in Hg. by destruct (missing_months df s').
    - intros [Hs Hfi]. right; left. exists s. split; [done|].
      unfold flow_warning. by rewrite Hfi. }
  split; [|split].
  - intros s m. rewrite Hmem, first_inconsistency_spec. split.
    + intros [Hs Hbreak]. split; [done|]. exists (segment_rows s df).
      split; [by apply ascending_rows_unique|done].
    + intros (Hs & l & Hl & Hbreak). split; [done|].
      by apply (ascending_rows_unique s df l Hone) in Hl as <-.
  - intros s m m' [_ H1]%Hmem [_ H2]%Hmem. congruence.
  - rewrite Hw, !filter_app.
    rewrite (filter_none is_flow_warning quality); cycle 1.
    { eapply Forall_impl; [exact Hq|]. intros w [-> | [-> | ->]]; simpl; tauto. }
    rewrite (filter_none is_flow_warning (omap (gap_warning df) _)); cycle 1.
    { apply Forall_forall. intros w (s & _ & Hg)%list_elem_of_omap.
      unfold gap_warning in Hg. destruct (missing_months df s); [done|].
      simplify_eq/=. tauto. }
    rewrite app_nil_r. simpl.
    rewrite filter_all; cycle 1.
    { apply Forall_forall. intros w (s & _ & Hf)%list_elem_of_omap.
      unfold flow_warning in Hf.
      destruct (DataValidator.first_inconsistency _); [|done].
      by simplify_eq/=. }
    destruct (segments_spec df) as [Hnd _]. clear Hw Hmem.
    induction Hnd as [|s segs Hs Hnd IH]; [constructor|].
    simpl. unfold flow_warning at 1.
    destruct (DataValidator.first_inconsistency _) as [m|]; simpl; [|done].
    constructor; [|done].
    intros (s' & Hs' & Hf)%list_elem_of_omap. unfold flow_warning in Hf.
    destruct (DataValidator.first_inconsistency _); [|done].
    by simplify_eq/=.
Qed.

Lemma balance_flow_warning_first_break_witness :
  "X"%string ∈ segments gappy_frame
  ∧ ∃ l, ascending_rows "X" gappy_frame l ∧ first_break l 1.
Proof.
  destruct (balance_flow_warning_first_break gappy_frame) as (Hiff & _ & _).
  - intros c Hc. exact Hc.
  - apply distinct_ages_one_row_per_age.
    apply (bool_decide_unpack _). vm_compute. exact I.
  - apply Hiff. apply (bool_decide_unpack _). vm_compute. exact I.
Defined.

(** X4.  The completeness check reports exactly the ages a segment skips:
    on a frame that has the required columns, the warning for segment [s]
    with the months [ms] is present exactly when [s] is a segment of the
    frame, [ms] is not empty and [ms] lists, each once, the ages strictly
    between two observed ages of [s] that no row of [s] has. *)
Theorem missing_months_warning_lists_skipped_ages (df : DataFrame) :
  DataValidator.REQUIRED_COLUMNS ⊆ df_columns df →
  ∀ s ms,
    MissingMonths s ms ∈ warnings (DataValidator.validate_data df)
    ↔ s ∈ segments df ∧ ms ≠ [] ∧ NoDup ms
      ∧ ms = missing_months df s
      ∧ ∀ m, m ∈ ms ↔ skipped_age s df m.
Proof.
  intros Hcols s ms.
  destruct (validate_data_warnings df Hcols) as (quality & Hw & Hq).
  rewrite Hw, !elem_of_app, !list_elem_of_omap. split.
  - intros [Hin|[(s' & Hs' & Hf)|(s' & Hs' & Hg)]].
    + eapply Forall_forall in Hq; [|exact Hin]. naive_solver.
    + unfold flow_warning in Hf.
      by destruct (DataValidator.first_inconsistency _).
    + unfold gap_warning in Hg.
      destruct (missing_months df s') as [|m0 ms0] eqn:Hms; [done|].
      simplify_eq/=. rewrite <- Hms.
      split; [done|]. split; [by rewrite Hms|].
      split; [apply missing_months_NoDup|]. split; [done|].
      intros m. apply missing_months_spec.
  - intros (Hs & Hne & _ & -> & _). right; right. exists s. split; [done|].
    unfold gap_warning. by destruct (missing_months df s).
Qed.

Lemma missing_months_warning_lists_skipped_ages_witness :
  "X"%string ∈ segments gappy_frame
  ∧ [2] = missing_months gappy_frame "X"
  ∧ skipped_age "X" gappy_frame 2.
Proof.
  destruct (missing_months_warning_lists_skipped_ages gappy_frame
              ltac:(intros c Hc; exact Hc) "X" [2]) as [Hfwd _].
  destruct Hfwd as (Hseg & _ & _ & Hms & Hskip).
  - apply (bool_decide_unpack _). vm_compute. exact I.
  - split; [exact Hseg|]. split; [exact Hms|]. apply Hskip. left.
Defined.

(** ** More on the estimator *)

(** X5.  The two curves [fit] stores have an entry at exactly the ages that
    occur in the training table; fitted on an empty table, the estimator is
    fitted all the same and answers 0 at every age. *)
Theorem fit_curves_known_ages (self : HazardRateEstimator.t) (df : FlowTable) :
  (∃ rates_p rates_c,
     stores_curve (HazardRateEstimator.fit self df).1 "payment" rates_p
     ∧ stores_curve (HazardRateEstimator.fit self df).1 "chargeoff" rates_c
     ∧ ∀ age,
         (is_Some (rates_p !! age) ↔ ∃ r, r ∈ df ∧ month_on_book r = age)
         ∧ (is_Some (rates_c !! age) ↔ ∃ r, r ∈ df ∧ month_on_book r = age))
  ∧ ∀ age,
      HazardRateEstimator.get_hazard_rate
        (HazardRateEstimator.fit self []).1 age "payment" = Ok zero
      ∧ HazardRateEstimator.get_hazard_rate
          (HazardRateEstimator.fit self []).1 age "chargeoff" = Ok zero.
Proof.
  split.
  - exists (fitted_rates payments (HazardRateEstimator.smoothing_window self) df),
      (fitted_rates chargeoffs (HazardRateEstimator.smoothing_window self) df).
    destruct (fit_stores_fitted_rates self df) as [Hp Hc].
    split; [done|]. split; [done|]. intros age.
    destruct (ages_spec df) as (_ & _ & Hages).
    rewrite !fitted_rates_known, Hages. done.
  - intros age.
    destruct (fit_stores_fitted_rates self []) as [Hp Hc].
    rewrite (get_hazard_rate_stored _ _ _ age Hp),
      (get_hazard_rate_stored _ _ _ age Hc). done.
Qed.

(** X6.  Fitted on a table of finite rows whose payments and chargeoffs are
    not negative and whose balances are all positive, the estimator answers
    every query for the two kinds, and with a non-negative rate: at known
    ages, beyond them and in between.  (Zero balances are left out: the
    rate of an age whose balances sum to zero and whose payments do not is
    infinite, the rolling mean takes an infinite rate for a missing one,
    and a window that holds nothing else stores NaN.) *)
Theorem fitted_rates_nonnegative (self : HazardRateEstimator.t) (df : FlowTable) :
  Forall sound_row df →
  ∀ age, ∃ p c,
    HazardRateEstimator.get_hazard_rate
      (HazardRateEstimator.fit self df).1 age "payment" = Ok p
    ∧ HazardRateEstimator.get_hazard_rate
        (HazardRateEstimator.fit self df).1 age "chargeoff" = Ok c
    ∧ leb zero p = true ∧ leb zero c = true.
Proof.
  intros Hdf age.
  pose proof (fit_nonnegative_rates self df Hdf) as Hnn.
  destruct (fit_stores_fitted_rates self df) as [Hp Hc].
  destruct (get_hazard_rate_total _ _ _ age Hp) as [p Hrp].
  destruct (get_hazard_rate_total _ _ _ age Hc) as [c Hrc].
  exists p, c. split; [done|]. split; [done|]. split; by eapply Hnn.
Qed.

Lemma fitted_rates_nonnegative_witness :
  ∃ p c,
    HazardRateEstimator.get_hazard_rate
      (HazardRateEstimator.fit (HazardRateEstimator.__init__ 3)
         two_segments).1 2 "payment" = Ok p
    ∧ HazardRateEstimator.get_hazard_rate
        (HazardRateEstimator.fit (HazardRateEstimator.__init__ 3)
           two_segments).1 2 "chargeoff" = Ok c
    ∧ leb zero p = true ∧ leb zero c = true.
Proof.
  apply (fitted_rates_nonnegative (HazardRateEstimator.__init__ 3)
           two_segments).
  apply (bool_decide_unpack _). vm_compute. exact I.
Defined.

(** X16.  The curves [fit] stores map the age at each position [i] of the
    ascending age series to: for a window [w > 1], the mean of the raw
    rates of the centered window around [i] that are not infinite (an
    infinite rate counts as missing), which is the average of the whole
    window when all its rates are finite; the window holds position [i],
    spans [w] adjacent ages inside the series and only the available ones
    (at least one) at its ends; for a window of 1 or less, the raw rate
    itself. *)
Theorem fit_stores_window_mean
    (self : HazardRateEstimator.t) (df : FlowTable) :
  let w := HazardRateEstimator.smoothing_window self in
  let n := Z.of_nat (length (ages df)) in
  ∃ rates_p rates_c,
    stores_curve (HazardRateEstimator.fit self df).1 "payment" rates_p
    ∧ stores_curve (HazardRateEstimator.fit self df).1 "chargeoff" rates_c
    ∧ ∀ (i : nat) (age : Z), ages df !! i = Some age →
        let win_p := window w (raw_rates payments df) (Z.of_nat i) in
        let win_c := window w (raw_rates chargeoffs df) (Z.of_nat i) in
        (1 < w →
           rates_p !! age = Some (mean (inf_to_nan <$> win_p))
           ∧ rates_c !! age = Some (mean (inf_to_nan <$> win_c))
           ∧ (Forall (λ x, ∃ q, x = Fin q) win_p →
              rates_p !! age = Some (average win_p))
           ∧ (Forall (λ x, ∃ q, x = Fin q) win_c →
              rates_c !! age = Some (average win_c))
           ∧ Z.of_nat (length win_p)
             = window_end w n (Z.of_nat i) - window_start w (Z.of_nat i)
           ∧ Z.of_nat (length win_c)
             = window_end w n (Z.of_nat i) - window_start w (Z.of_nat i)
           ∧ window_start w (Z.of_nat i) ≤ Z.of_nat i
               < window_end w n (Z.of_nat i)
           ∧ 1 ≤ window_end w n (Z.of_nat i) - window_start w (Z.of_nat i) ≤ w
           ∧ (w `div` 2 ≤ Z.of_nat i → Z.of_nat i + (w - 1) `div` 2 < n →
              window_end w n (Z.of_nat i) - window_start w (Z.of_nat i) = w))
        ∧ (w ≤ 1 →
           rates_p !! age = raw_rates payments df !! i
           ∧ rates_c !! age = raw_rates chargeoffs df !! i).
Proof.
  intros w n.
  exists (fitted_rates payments w df), (fitted_rates chargeoffs w df).
  destruct (fit_stores_fitted_rates self df) as [Hp Hc].
  split; [done|]. split; [done|].
  intros i age Hage win_p win_c.
  destruct (fitted_rates_window payments w df i age Hage) as [Hsp Hrp].
  destruct (fitted_rates_window chargeoffs w df i age Hage) as [Hsc Hrc].
  split.
  - intros Hw.
    destruct (Hsp Hw) as (Hp1 & Hp2 & Hp3 & Hin & Hsize & Hfull).
    destruct (Hsc Hw) as (Hc1 & Hc2 & Hc3 & _).
    unfold n. repeat split; try done; try lia.
  - intros Hw. split; [by apply Hrp|by apply Hrc].
Qed.

Lemma fit_stores_window_mean_witness :
  (∃ rates_p,
     stores_curve (HazardRateEstimator.fit (HazardRateEstimator.__init__ 3)
                     two_segments).1 "payment" rates_p
     ∧ rates_p !! 0 = Some (lit 9 200)
     ∧ rates_p !! 1 = Some (lit 11 300))
  ∧ (∃ rates_p,
       stores_curve (HazardRateEstimator.fit (HazardRateEstimator.__init__ 1)
                       two_segments).1 "payment" rates_p
       ∧ rates_p !! 3 = Some (lit 1 50)).
Proof.
  split.
  - destruct (fit_stores_window_mean (HazardRateEstimator.__init__ 3)
                two_segments) as (rp & rc & Hp & _ & H).
    exists rp. split; [exact Hp|]. split.
    + destruct (H 0%nat 0 eq_refl) as [Hs _].
      destruct (Hs ltac:(simpl; lia)) as (-> & _).
      apply (bool_decide_unpack _). vm_compute. exact I.
    + destruct (H 1%nat 1 eq_refl) as [Hs _].
      destruct (Hs ltac:(simpl; lia)) as (-> & _).
      apply (bool_decide_unpack _). vm_compute. exact I.
  - destruct (fit_stores_window_mean (HazardRateEstimator.__init__ 1)
                two_segments) as (rp & rc & Hp & _ & H).
    exists rp. split; [exact Hp|].
    destruct (H 2%nat 3 eq_refl) as [_ Hr].
    destruct (Hr ltac:(simpl; lia)) as (-> & _).
    apply (bool_decide_unpack _). vm_compute. exact I.
Defined.

(** ** More on the comparison with known actuals *)

Section compare_more.
Import HazardRateEstimator CurveTransferEngine.

Lemma compare_rows_zero_balance (est : t) (df : FlowTable) :
  trained est → (∃ r, r ∈ df ∧ outstanding_balance r = zero) →
  compare_rows est df = Raise ZeroDivisionError.
Proof.
  intros Htr. induction df as [|r df IH]; intros (x & Hx & Hz).
  { by apply elem_of_nil in Hx. }
  cbn [compare_rows].
  destruct (decide (outstanding_balance r = zero)) as [Hr|Hr].
  { by rewrite (compare_row_zero_balance est r Htr Hr). }
  destruct (compare_row_ok est r Htr Hr) as (c & -> & _).
  rewrite bind_Ok. rewrite IH; [done|].
  apply elem_of_cons in Hx as [->|Hx]; [done|eauto].
Qed.

Lemma get_hazard_rate_empty_curves (est : t) (month : Z) (kind : string) :
  hazard_curves est = ∅ → get_hazard_rate est month kind = Raise NotFitted.
Proof. intros He. unfold get_hazard_rate. by rewrite bool_decide_eq_true_2. Qed.

Lemma filter_unique_key {A} (key : A → Z) (l : list A) (r : A) :
  NoDup (key <$> l) → r ∈ l → filter (λ x, key x = key r) l = [r].
Proof.
  induction l as [|y l IH]; intros Hnd Hr; [by apply elem_of_nil in Hr|].
  rewrite fmap_cons in Hnd. apply NoDup_cons in Hnd as [Hy Hnd].
  apply elem_of_cons in Hr as [->|Hr].
  - rewrite filter_cons_True by done. f_equal.
    apply filter_none, Forall_forall. intros x Hx Heq.
    apply Hy. rewrite <- Heq. by apply list_elem_of_fmap_2.
  - rewrite filter_cons_False; [by apply IH|].
    intros Heq. apply Hy. rewrite Heq. by apply list_elem_of_fmap_2.
Qed.

Lemma sum_singleton_fin (q : Qc) : Num.sum [Fin q] = Fin q.
Proof.
  unfold Num.sum. simpl. f_equal. apply Qcplus_0_l.
Qed.

(** Without smoothing, and when each age has a single row, the stored rate
    at the age of a row is the rate of that row. *)
Lemma fitted_rate_single_row (flow : FlowRecord → num) (w : Z)
    (df : FlowTable) (r : FlowRecord) (a b : Qc) :
  w ≤ 1 → NoDup (month_on_book <$> df) → r ∈ df →
  flow r = Fin a → outstanding_balance r = Fin b → b ≠ 0%Qc →
  fitted_rates flow w df !! month_on_book r = Some (Fin (a / b)%Qc).
Proof.
  intros Hw Hnd Hr Hflow Hbal Hb.
  destruct (ages_spec df) as (_ & _ & Hages).
  assert (Hin : month_on_book r ∈ ages df) by (apply Hages; eauto).
  apply list_elem_of_lookup in Hin as [i Hi].
  rewrite (fitted_rates_lookup _ _ _ i) by done.
  unfold smooth. rewrite bool_decide_eq_false_2 by lia.
  unfold raw_rates. rewrite list_lookup_fmap, Hi. simpl. f_equal.
  unfold age_sum.
  assert (Hf : filter (λ x, month_on_book x = month_on_book r) df = [r])
    by (by apply (filter_unique_key month_on_book)).
  rewrite !Hf. simpl. rewrite Hflow, Hbal, !sum_singleton_fin. simpl.
  by rewrite decide_False.
Qed.

(** A row of the training table compared with the curves fitted on it. *)
Lemma compares_own_row (self : t) (df : FlowTable) (r : FlowRecord)
    (c : Comparison) :
  smoothing_window self ≤ 1 → NoDup (month_on_book <$> df) →
  r ∈ df → finite_row r →
  compares (fit self df).1 r c →
  payment_variance c = zero ∧ chargeoff_variance c = zero
  ∧ row_warnings c = [].
Proof.
  intros Hw Hnd Hr Hfin (_ & Hep & Hec & Hap & Hac & Hpv & Hcv).
  unfold finite_row in Hfin.
  destruct (payments r) as [a| | |] eqn:Hpay; try done.
  destruct (chargeoffs r) as [a'| | |] eqn:Hco; try done.
  destruct (outstanding_balance r) as [b| | |] eqn:Hbal; try done.
  destruct (fit_stores_fitted_rates self df) as [Hp Hc].
  rewrite (get_hazard_rate_stored _ _ _ (month_on_book r) Hp) in Hep.
  rewrite (get_hazard_rate_stored _ _ _ (month_on_book r) Hc) in Hec.
  rewrite (rate_at_known _ _ _
             (fitted_rate_single_row payments _ df r a b Hw Hnd Hr Hpay Hbal Hfin))
    in Hep.
  rewrite (rate_at_known _ _ _
             (fitted_rate_single_row chargeoffs _ df r a' b Hw Hnd Hr Hco Hbal Hfin))
    in Hec.
  assert (He1 : expected_payment_rate c = Fin (a / b)%Qc) by congruence.
  assert (He2 : expected_chargeoff_rate c = Fin (a' / b)%Qc) by congruence.
  assert (Ha1 : actual_payment_rate c = Fin (a / b)%Qc).
  { rewrite Hap. simpl. by rewrite decide_False. }
  assert (Ha2 : actual_chargeoff_rate c = Fin (a' / b)%Qc).
  { rewrite Hac. simpl. by rewrite decide_False. }
  assert (Hz1 : payment_variance c = zero).
  { rewrite Hpv, Ha1, He1. unfold sub, zero. simpl. f_equal.
    apply Qcplus_opp_r. }
  assert (Hz2 : chargeoff_variance c = zero).
  { rewrite Hcv, Ha2, He2. unfold sub, zero. simpl. f_equal.
    apply Qcplus_opp_r. }
  split; [done|]. split; [done|].
  unfold row_warnings. rewrite Hz1, Hz2. reflexivity.
Qed.

End compare_more.

(** X7.  On a trained estimator [validate_known_actuals] fails in one way
    only: it raises the division-by-zero error exactly when some row of the
    table has a zero balance, and returns otherwise. *)
Theorem validate_known_actuals_raises_iff_zero_balance
    (np_sqrt : num → num) (est : HazardRateEstimator.t) (df : FlowTable) :
  trained est →
  (CurveTransferEngine.validate_known_actuals np_sqrt est df
   = Raise ZeroDivisionError
   ↔ ∃ r, r ∈ df ∧ outstanding_balance r = zero)
  ∧ ((∀ r, r ∈ df → outstanding_balance r ≠ zero) →
     ∃ cv, CurveTransferEngine.validate_known_actuals np_sqrt est df = Ok cv
           ∧ length (detailed_comparison cv) = length df).
Proof.
  intros Htr.
  assert (Hok : (∀ r, r ∈ df → outstanding_balance r ≠ zero) →
    ∃ cv, CurveTransferEngine.validate_known_actuals np_sqrt est df = Ok cv
          ∧ length (detailed_comparison cv) = length df).
  { intros Hnz. destruct (compare_rows_ok est df Htr Hnz) as (cs & Hcs & Hall).
    unfold CurveTransferEngine.validate_known_actuals.
    rewrite Hcs, bind_Ok. eexists. split; [reflexivity|]. simpl.
    symmetry. by eapply Forall2_length. }
  split; [|done]. split.
  - intros Hraise.
    destruct (decide (Exists (λ r, outstanding_balance r = zero) df))
      as [Hex|Hnex].
    + apply Exists_exists in Hex as (r & Hr & Hz). eauto.
    + destruct Hok as (cv & Hcv & _); [|congruence].
      intros r Hr Hz. apply Hnex, Exists_exists. eauto.
  - intros Hex. unfold CurveTransferEngine.validate_known_actuals.
    by rewrite (compare_rows_zero_balance est df Htr Hex).
Qed.

Lemma validate_known_actuals_raises_iff_zero_balance_witness :
  CurveTransferEngine.validate_known_actuals (λ x, x)
    (HazardRateEstimator.fit (HazardRateEstimator.__init__ 3) two_segments).1
    paid_off_actuals
  = Raise ZeroDivisionError.
Proof.
  destruct (validate_known_actuals_raises_iff_zero_balance (λ x, x)
    (HazardRateEstimator.fit (HazardRateEstimator.__init__ 3) two_segments).1
    paid_off_actuals) as [[_ Hraise] _].
  - destruct (fit_stores_fitted_rates (HazardRateEstimator.__init__ 3)
                two_segments) as [Hp Hc].
    eexists _, _. split; [exact Hp|exact Hc].
  - apply Hraise. eexists. split; [right; left|].
    apply (bool_decide_unpack _). vm_compute. exact I.
Defined.

(** X8.  On an estimator that was never fitted, [validate_known_actuals]
    raises the not-fitted error on every table that has a row, before it
    looks at any amount, and returns the empty comparison on the empty
    table. *)
Theorem validate_known_actuals_unfitted
    (np_sqrt : num → num) (est : HazardRateEstimator.t) (df : FlowTable) :
  HazardRateEstimator.hazard_curves est = ∅ →
  CurveTransferEngine.validate_known_actuals np_sqrt est df
  = match df with
    | [] => Ok {| detailed_comparison := []; summary_stats := None;
                  cv_warnings := [] |}
    | _ :: _ => Raise NotFitted
    end.
Proof.
  intros He. destruct df as [|r df]; [done|].
  unfold CurveTransferEngine.validate_known_actuals.
  cbn [CurveTransferEngine.compare_rows].
  unfold CurveTransferEngine.compare_row.
  rewrite (get_hazard_rate_empty_curves est (month_on_book r) "payment" He).
  by rewrite !bind_Raise.
Qed.

Lemma validate_known_actuals_unfitted_witness :
  CurveTransferEngine.validate_known_actuals (λ x, x)
    (HazardRateEstimator.__init__ 3) paid_off_actuals
  = Raise NotFitted.
Proof.
  apply (validate_known_actuals_unfitted (λ x, x)
           (HazardRateEstimator.__init__ 3) paid_off_actuals).
  reflexivity.
Defined.

(** X9.  Fitting without smoothing on a table that has one row per age,
    with finite amounts and balances that are not zero, and then comparing
    that same table against the fitted curves gives an entry per row with
    both variances zero, and no warning: the curves reproduce the data they
    were fitted on. *)
Theorem compare_training_table_with_own_curves
    (np_sqrt : num → num) (self : HazardRateEstimator.t) (df : FlowTable) :
  HazardRateEstimator.smoothing_window self ≤ 1 →
  NoDup (month_on_book <$> df) →
  Forall finite_row df →
  ∃ cv,
    CurveTransferEngine.validate_known_actuals np_sqrt
      (HazardRateEstimator.fit self df).1 df = Ok cv
    ∧ length (detailed_comparison cv) = length df
    ∧ Forall (λ c, payment_variance c = zero ∧ chargeoff_variance c = zero)
             (detailed_comparison cv)
    ∧ cv_warnings cv = [].
Proof.
  intros Hw Hnd Hfin.
  set (est := (HazardRateEstimator.fit self df).1).
  destruct (fit_stores_fitted_rates self df) as [Hp Hc]. fold est in Hp, Hc.
  assert (Htr : trained est) by (eexists _, _; eauto).
  assert (Hnz : ∀ r, r ∈ df → outstanding_balance r ≠ zero).
  { intros r Hr Hz. eapply Forall_forall in Hfin; [|exact Hr].
    unfold finite_row in Hfin. rewrite Hz in Hfin.
    by destruct (payments r), (chargeoffs r). }
  destruct (compare_rows_ok est df Htr Hnz) as (cs & Hcs & Hall).
  unfold CurveTransferEngine.validate_known_actuals. rewrite Hcs, bind_Ok.
  eexists. split; [reflexivity|]. cbn [detailed_comparison cv_warnings fst snd].
  split; [symmetry; by eapply Forall2_length|].
  assert (Hrows : Forall (λ c, payment_variance c = zero
                               ∧ chargeoff_variance c = zero
                               ∧ row_warnings c = []) cs).
  { apply Forall_forall. intros c Hcin.
    apply list_elem_of_lookup in Hcin as [i Hi].
    destruct (Forall2_lookup_r _ _ _ _ _ Hall Hi) as (r & Hri & Hcmp).
    apply (compares_own_row self df r c); try done.
    - by eapply list_elem_of_lookup_2.
    - eapply Forall_forall in Hfin; [exact Hfin|].
      by eapply list_elem_of_lookup_2. }
  split.
  - eapply Forall_impl; [exact Hrows|]. naive_solver.
  - clear Hcs Hall. induction Hrows as [|c cs (_ & _ & Hc0) _ IH]; [done|].
    rewrite fmap_cons. simpl. by rewrite Hc0, IH.
Qed.

Lemma compare_training_table_with_own_curves_witness :
  ∃ cv,
    CurveTransferEngine.validate_known_actuals (λ x, x)
      (HazardRateEstimator.fit (HazardRateEstimator.__init__ 1)
         two_months).1 two_months = Ok cv
    ∧ length (detailed_comparison cv) = length two_months
    ∧ Forall (λ c, payment_variance c = zero ∧ chargeoff_variance c = zero)
             (detailed_comparison cv)
    ∧ cv_warnings cv = [].
Proof.
  apply (compare_training_table_with_own_curves (λ x, x)
           (HazardRateEstimator.__init__ 1) two_months).
  - simpl. lia.
  - apply (bool_decide_unpack _). vm_compute. exact I.
  - apply (bool_decide_unpack _). vm_compute. exact I.
Defined.

(** ** More on the forecast and the pipeline *)

Section forecast_more.
Import HazardRateEstimator ForecastGenerator.

Lemma forecast_loop_at_floor (est : t) (seg : string) (months : list Z)
    (b : num) :
  leb b floor = true → forecast_loop est seg months b = Ok [].
Proof. intros Hb. destruct months; [done|]. simpl. by rewrite Hb. Qed.

Lemma generate_forecast_unfold (est : t) (ka : FlowTable) (mm last : Z)
    (last_row : FlowRecord) :
  series_max (month_on_book <$> ka) = Some last →
  head (filter (λ r, month_on_book r = last) ka) = Some last_row →
  generate_forecast est ka mm
  = forecast_loop est (segment_id last_row) (range (last + 1) (mm + 1))
      (DataValidator.implied_next_balance last_row)
    ≫= λ rows, Ok (sort_values f_month_on_book ((actual <$> ka) ++ rows)).
Proof.
  intros Hmax Hhead. unfold generate_forecast. rewrite Hmax.
  destruct (filter _ ka) as [|r0 rest]; [done|]. by injection Hhead as ->.
Qed.

Lemma sorted_actuals (ka : FlowTable) :
  sort_values f_month_on_book (actual <$> ka) ≡ₚ actual <$> ka
  ∧ StronglySorted age_le (sort_values f_month_on_book (actual <$> ka)).
Proof. split; [apply sort_values_perm|apply sort_values_sorted]. Qed.

End forecast_more.

(** X10.  When there is nothing to generate (the horizon is not beyond the
    last known age, or the last known row leaves a cent or less)
    [generate_forecast] returns the known actuals alone, in ascending age
    and flagged [Actual], and it never queries the estimator: this holds
    even on an estimator that was never fitted. *)
Theorem generate_forecast_nothing_to_generate
    (est : HazardRateEstimator.t) (ka : FlowTable) (mm last : Z)
    (last_row : FlowRecord) :
  series_max (month_on_book <$> ka) = Some last →
  head (filter (λ r, month_on_book r = last) ka) = Some last_row →
  mm ≤ last
  ∨ leb (DataValidator.implied_next_balance last_row) ForecastGenerator.floor
    = true →
  ∃ acts,
    ForecastGenerator.generate_forecast est ka mm = Ok acts
    ∧ acts ≡ₚ actual <$> ka
    ∧ StronglySorted age_le acts
    ∧ forecast_part acts = [].
Proof.
  intros Hmax Hhead Hnone.
  exists (sort_values f_month_on_book (actual <$> ka)).
  destruct (sorted_actuals ka) as [Hperm Hsorted].
  split; [|split; [done|split; [done|]]].
  - rewrite (generate_forecast_unfold est ka mm last last_row) by done.
    assert (ForecastGenerator.forecast_loop est (segment_id last_row)
              (range (last + 1) (mm + 1))
              (DataValidator.implied_next_balance last_row) = Ok []) as ->.
    { destruct Hnone as [Hmm|Hfloor].
      - unfold range. by rewrite seqZ_nil by lia.
      - by apply forecast_loop_at_floor. }
    by rewrite bind_Ok, app_nil_r.
  - unfold forecast_part. apply filter_none. rewrite Hperm.
    apply Forall_fmap, Forall_forall. by intros r _.
Qed.

Lemma generate_forecast_nothing_to_generate_witness :
  ∃ acts,
    ForecastGenerator.generate_forecast (HazardRateEstimator.__init__ 3)
      two_months 1 = Ok acts
    ∧ acts ≡ₚ actual <$> two_months
    ∧ StronglySorted age_le acts
    ∧ forecast_part acts = [].
Proof.
  apply (generate_forecast_nothing_to_generate
           (HazardRateEstimator.__init__ 3) two_months 1 1
           (row "N" 1 (of_Z 840) (of_Z 42) (of_Z 42)));
    [reflexivity|reflexivity|left; lia].
Defined.

(** X11.  On an estimator that was never fitted, [generate_forecast] raises
    the not-fitted error as soon as there is a row to generate: the horizon
    is beyond the last known age and the last known row leaves more than a
    cent. *)
Theorem generate_forecast_unfitted
    (est : HazardRateEstimator.t) (ka : FlowTable) (mm last : Z)
    (last_row : FlowRecord) :
  HazardRateEstimator.hazard_curves est = ∅ →
  series_max (month_on_book <$> ka) = Some last →
  head (filter (λ r, month_on_book r = last) ka) = Some last_row →
  last < mm →
  leb (DataValidator.implied_next_balance last_row) ForecastGenerator.floor
  = false →
  ForecastGenerator.generate_forecast est ka mm = Raise NotFitted.
Proof.
  intros He Hmax Hhead Hmm Hfloor.
  rewrite (generate_forecast_unfold est ka mm last last_row) by done.
  unfold range. rewrite seqZ_cons by lia.
  cbn [ForecastGenerator.forecast_loop]. rewrite Hfloor.
  rewrite (get_hazard_rate_empty_curves est (last + 1) "payment" He).
  by rewrite !bind_Raise.
Qed.

Lemma generate_forecast_unfitted_witness :
  ForecastGenerator.generate_forecast (HazardRateEstimator.__init__ 3)
    two_months 12 = Raise NotFitted.
Proof.
  apply (generate_forecast_unfitted (HazardRateEstimator.__init__ 3)
           two_months 12 1 (row "N" 1 (of_Z 840) (of_Z 42) (of_Z 42)));
    [reflexivity|reflexivity|reflexivity|lia|reflexivity].
Defined.

(** X12.  In the formatted output of a forecast, the record of a
    [Forecast] row keeps the row's month and flag, and every figure of it
    comes from the balance of the row and the two rates the estimator
    returns at its month: the amounts are balance times rate, so the ratios
    are balance times rate over the origination amount, and the hazard
    rates the formatter recomputes are balance times rate over the balance
    again (the quotient of the product as computed, not the rate
    itself). *)
Theorem formatted_forecast_rows_from_curve_rates
    (est : HazardRateEstimator.t) (ka : FlowTable) (mm : Z)
    (out : list ForecastRecord) (origination_amount : num) :
  ForecastGenerator.generate_forecast est ka mm = Ok out →
  ∀ (i : nat) r o,
    out !! i = Some r → forecast_flag r = Forecast →
    OutputFormatter.format_curves_output out origination_amount !! i = Some o →
    ∃ p c,
      HazardRateEstimator.get_hazard_rate est (f_month_on_book r) "payment"
      = Ok p
      ∧ HazardRateEstimator.get_hazard_rate est (f_month_on_book r) "chargeoff"
        = Ok c
      ∧ o_month_on_book o = f_month_on_book r
      ∧ o_forecast_flag o = Forecast
      ∧ outstanding_balance_ratio o
        = div (f_outstanding_balance r) origination_amount
      ∧ payments_ratio o
        = div (mul (f_outstanding_balance r) p) origination_amount
      ∧ chargeoffs_ratio o
        = div (mul (f_outstanding_balance r) c) origination_amount
      ∧ o_payment_hazard_rate o
        = div (mul (f_outstanding_balance r) p) (f_outstanding_balance r)
      ∧ o_chargeoff_hazard_rate o
        = div (mul (f_outstanding_balance r) c) (f_outstanding_balance r)
      ∧ leb (f_outstanding_balance r) ForecastGenerator.floor = false.
Proof.
  intros Hout i r o Hr Hflag Ho.
  destruct (generate_forecast_inv est ka mm out Hout)
    as (last & last_row & gen & _ & _ & Hloop & -> & _).
  destruct (forecast_loop_ok _ _ _ _ _ Hloop) as (Hrows & _).
  assert (Hin : r ∈ gen).
  { rewrite <- (forecast_part_output ka est (segment_id last_row) gen) by done.
    apply list_elem_of_filter. split; [done|]. by eapply list_elem_of_lookup_2. }
  eapply Forall_forall in Hrows; [|exact Hin].
  destruct Hrows as (_ & _ & Hfloor & p & c & Hp & Hc & Hpay & Hco).
  unfold OutputFormatter.format_curves_output in Ho.
  rewrite list_lookup_fmap, Hr in Ho. injection Ho as <-. simpl.
  exists p, c. rewrite Hpay, Hco, Hflag. done.
Qed.

Lemma formatted_forecast_rows_from_curve_rates_witness :
  let est := (HazardRateEstimator.fit (HazardRateEstimator.__init__ 1)
                two_segments).1 in
  ∃ out r o,
    ForecastGenerator.generate_forecast est two_months 2 = Ok out
    ∧ out !! 2%nat = Some r
    ∧ OutputFormatter.format_curves_output out (of_Z 1000) !! 2%nat = Some o
    ∧ o_month_on_book o = 2
    ∧ o_forecast_flag o = Forecast
    ∧ payments_ratio o
      = div (mul (f_outstanding_balance r) (lit 3 100)) (of_Z 1000).
Proof.
  intros est.
  destruct (ForecastGenerator.generate_forecast est two_months 2)
    as [out|e] eqn:Hout; [|exfalso; vm_compute in Hout; discriminate Hout].
  assert (Heq : Ok out
    = Ok [actual (row "N" 0 (of_Z 1000) (of_Z 150) (of_Z 10));
          actual (row "N" 1 (of_Z 840) (of_Z 42) (of_Z 42));
          {| f_segment_id := "N"; f_month_on_book := 2;
             f_outstanding_balance := of_Z 756;
             f_payments := mul (of_Z 756) (lit 3 100);
             f_chargeoffs := mul (of_Z 756) (lit 1 100);
             forecast_flag := Forecast |}]).
  { rewrite <- Hout. apply (bool_decide_unpack _). vm_compute. exact I. }
  assert (Hout' : out
    = [actual (row "N" 0 (of_Z 1000) (of_Z 150) (of_Z 10));
       actual (row "N" 1 (of_Z 840) (of_Z 42) (of_Z 42));
       {| f_segment_id := "N"; f_month_on_book := 2;
          f_outstanding_balance := of_Z 756;
          f_payments := mul (of_Z 756) (lit 3 100);
          f_chargeoffs := mul (of_Z 756) (lit 1 100);
          forecast_flag := Forecast |}]) by congruence.
  destruct (OutputFormatter.format_curves_output out (of_Z 1000) !! 2%nat)
    as [o|] eqn:Ho; [|exfalso; rewrite Hout' in Ho; discriminate Ho].
  eexists out, _, o. split; [reflexivity|].
  split; [rewrite Hout'; reflexivity|]. split; [exact Ho|].
  destruct (formatted_forecast_rows_from_curve_rates est two_months 2 out
              (of_Z 1000) Hout 2%nat
              {| f_segment_id := "N"; f_month_on_book := 2;
                 f_outstanding_balance := of_Z 756;
                 f_payments := mul (of_Z 756) (lit 3 100);
                 f_chargeoffs := mul (of_Z 756) (lit 1 100);
                 forecast_flag := Forecast |} o)
    as (p & c & Hp & _ & Hm & Hf & _ & Hpr & _).
  - rewrite Hout'. reflexivity.
  - reflexivity.
  - exact Ho.
  - split; [exact Hm|]. split; [exact Hf|].
    rewrite Hpr. simpl f_outstanding_balance. simpl f_month_on_book in Hp.
    assert (Hp3 : HazardRateEstimator.get_hazard_rate est 2 "payment"
                  = Ok (lit 3 100))
      by (apply (bool_decide_unpack _); vm_compute; exact I).
    rewrite Hp3 in Hp. by injection Hp as <-.
Defined.


Section pipeline_facts.
Import HazardRateEstimator SurvivalCreditModel.

Lemma fit_trained (self : HazardRateEstimator.t) (df : FlowTable) :
  trained (fit self df).1.
Proof.
  destruct (fit_stores_fitted_rates self df) as [Hp Hc].
  eexists _, _. split; [exact Hp|exact Hc].
Qed.

(** What a successful [train] leaves behind. *)
Lemma train_inv (self : SurvivalCreditModel.t) (df : DataFrame)
    (model : SurvivalCreditModel.t) (res : TrainingResults) :
  train self df = Ok (model, res) →
  DataValidator.REQUIRED_COLUMNS ⊆ df_columns df
  ∧ model = {| rate_estimator := (fit (rate_estimator self) (df_rows df)).1;
               is_trained := true |}
  ∧ tr_validation_results res = DataValidator.validate_data df
  ∧ tr_hazard_curves res
    = hazard_curves (fit (rate_estimator self) (df_rows df)).1.
Proof.
  unfold train.
  destruct (valid (DataValidator.validate_data df)) eqn:Hvalid; [|done].
  simpl. intros [= <- <-].
  split; [by apply validate_data_valid_iff_columns_aux|]. done.
Qed.

End pipeline_facts.

(** X13.  [train] lets through every frame that has the five required
    columns, whatever its rows hold (negative payments included): it fits
    the estimator on the rows, marks the pipeline trained and returns the
    validation result and the curves.  On a frame that lacks a required
    column it raises the validation error that names the absent columns. *)
Theorem train_gate_is_the_schema (self : SurvivalCreditModel.t) (df : DataFrame) :
  (DataValidator.REQUIRED_COLUMNS ⊆ df_columns df →
   ∃ res,
     SurvivalCreditModel.train self df
     = Ok ({| SurvivalCreditModel.rate_estimator :=
                (HazardRateEstimator.fit
                   (SurvivalCreditModel.rate_estimator self) (df_rows df)).1;
              SurvivalCreditModel.is_trained := true |}, res)
     ∧ tr_validation_results res = DataValidator.validate_data df
     ∧ trained (HazardRateEstimator.fit
                  (SurvivalCreditModel.rate_estimator self) (df_rows df)).1
     ∧ Some (tr_hazard_curves res)
       = SurvivalCreditModel.get_hazard_curves
           {| SurvivalCreditModel.rate_estimator :=
                (HazardRateEstimator.fit
                   (SurvivalCreditModel.rate_estimator self) (df_rows df)).1;
              SurvivalCreditModel.is_trained := true |})
  ∧ (¬ DataValidator.REQUIRED_COLUMNS ⊆ df_columns df →
     ∃ missing,
       SurvivalCreditModel.train self df
       = Raise (TrainingValidationFailed [MissingColumns missing])
       ∧ missing ≠ []
       ∧ ∀ c, c ∈ missing
              ↔ c ∈ DataValidator.REQUIRED_COLUMNS ∧ c ∉ df_columns df).
Proof.
  split.
  - intros Hcols. unfold SurvivalCreditModel.train.
    destruct (validate_data_with_columns df Hcols) as [-> _]. simpl.
    eexists. split; [reflexivity|]. simpl. split; [done|].
    split; [apply fit_trained|done].
  - intros Hcols.
    destruct (validate_data_without_columns df Hcols) as [Hres Hne].
    eexists. split; [|split; [exact Hne|]].
    + unfold SurvivalCreditModel.train. rewrite Hres. reflexivity.
    + intros c. rewrite list_elem_of_filter. tauto.
Qed.

(** X14.  What [forecast] does on a pipeline that [train] has trained: on
    known actuals that lack a required column it raises the validation
    error; on a frame that has them it raises the division-by-zero error
    when some row has a zero balance and the index error when there is no
    row at all; otherwise it returns one formatted record per forecast
    record, in the same order, with the validation result and the curve
    comparison as diagnostics. *)
Theorem forecast_after_train
    (np_sqrt : num → num) (self model : SurvivalCreditModel.t)
    (training_data : DataFrame) (res : TrainingResults)
    (known_actuals : DataFrame) (origination_amount : num) (max_month : Z) :
  SurvivalCreditModel.train self training_data = Ok (model, res) →
  let est := SurvivalCreditModel.rate_estimator model in
  let run := SurvivalCreditModel.forecast np_sqrt model known_actuals
               origination_amount max_month in
  (¬ DataValidator.REQUIRED_COLUMNS ⊆ df_columns known_actuals →
   ∃ missing, run = Raise (ActualsValidationFailed [MissingColumns missing])
              ∧ missing ≠ [])
  ∧ (DataValidator.REQUIRED_COLUMNS ⊆ df_columns known_actuals →
     (∃ r, r ∈ df_rows known_actuals ∧ outstanding_balance r = zero) →
     run = Raise ZeroDivisionError)
  ∧ (DataValidator.REQUIRED_COLUMNS ⊆ df_columns known_actuals →
     df_rows known_actuals = [] → run = Raise IndexError)
  ∧ (DataValidator.REQUIRED_COLUMNS ⊆ df_columns known_actuals →
     df_rows known_actuals ≠ [] →
     (∀ r, r ∈ df_rows known_actuals → outstanding_balance r ≠ zero) →
     ∃ out cv,
       ForecastGenerator.generate_forecast est (df_rows known_actuals)
         max_month = Ok out
       ∧ CurveTransferEngine.validate_known_actuals np_sqrt est
           (df_rows known_actuals) = Ok cv
       ∧ run = Ok (OutputFormatter.format_curves_output out origination_amount,
                   {| data_validation :=
                        DataValidator.validate_data known_actuals;
                      curve_validation := cv |})
       ∧ o_month_on_book
           <$> OutputFormatter.format_curves_output out origination_amount
         = f_month_on_book <$> out
       ∧ o_forecast_flag
           <$> OutputFormatter.format_curves_output out origination_amount
         = forecast_flag <$> out
       ∧ StronglySorted age_le out).
Proof.
  intros Htrain est run.
  destruct (train_inv self training_data model res Htrain)
    as (_ & Hmodel & _ & _).
  assert (Htr : trained est) by (unfold est; rewrite Hmodel; apply fit_trained).
  assert (Hflag : SurvivalCreditModel.is_trained model = true)
    by (by rewrite Hmodel).
  unfold run, SurvivalCreditModel.forecast. rewrite Hflag. simpl negb.
  cbv iota. fold est.
  split; [|split; [|split]].
  - intros Hcols.
    destruct (validate_data_without_columns known_actuals Hcols)
      as [Hres Hne].
    eexists. split; [|exact Hne]. rewrite Hres. reflexivity.
  - intros Hcols Hzero.
    destruct (validate_data_with_columns known_actuals Hcols) as [-> _].
    simpl negb. cbv iota.
    unfold CurveTransferEngine.validate_known_actuals.
    by rewrite (compare_rows_zero_balance est _ Htr Hzero).
  - intros Hcols Hempty.
    destruct (validate_data_with_columns known_actuals Hcols) as [-> _].
    simpl negb. cbv iota. rewrite Hempty. reflexivity.
  - intros Hcols Hne Hnz.
    destruct (validate_data_with_columns known_actuals Hcols) as [-> _].
    simpl negb. cbv iota.
    destruct (compare_rows_ok est _ Htr Hnz) as (cs & Hcs & _).
    destruct (generate_forecast_total est _ max_month Htr Hne) as [out Hout].
    destruct (generate_forecast_inv est _ _ _ Hout)
      as (last & last_row & gen & _ & _ & _ & _ & _ & _ & Hsorted).
    unfold CurveTransferEngine.validate_known_actuals.
    rewrite Hcs, !bind_Ok, Hout, bind_Ok.
    eexists out, _. split; [done|]. split; [reflexivity|].
    split; [reflexivity|].
    unfold OutputFormatter.format_curves_output.
    rewrite <- !list_fmap_compose. done.
Qed.

Lemma forecast_after_train_witness :
  ∃ model res,
    SurvivalCreditModel.train (SurvivalCreditModel.__init__ 1)
      {| df_columns := all_columns; df_rows := two_segments |}
    = Ok (model, res)
    ∧ SurvivalCreditModel.forecast (λ x, x) model
        {| df_columns := all_columns; df_rows := paid_off_actuals |}
        (of_Z 1000) 12 = Raise ZeroDivisionError
    ∧ SurvivalCreditModel.forecast (λ x, x) model
        {| df_columns := all_columns; df_rows := [] |}
        (of_Z 1000) 12 = Raise IndexError.
Proof.
  destruct (SurvivalCreditModel.train (SurvivalCreditModel.__init__ 1)
              {| df_columns := all_columns; df_rows := two_segments |})
    as [[model res]|e] eqn:Htrain;
    [|exfalso; vm_compute in Htrain; discriminate Htrain].
  exists model, res. split; [reflexivity|].
  split.
  - destruct (forecast_after_train (λ x, x) _ model _ res
                {| df_columns := all_columns; df_rows := paid_off_actuals |}
                (of_Z 1000) 12 Htrain) as (_ & Hzero & _).
    apply Hzero; [intros c Hc; exact Hc|].
    eexists. split; [right; left|].
    apply (bool_decide_unpack _). vm_compute. exact I.
  - destruct (forecast_after_train (λ x, x) _ model _ res
                {| df_columns := all_columns; df_rows := [] |}
                (of_Z 1000) 12 Htrain) as (_ & _ & Hempty & _).
    apply Hempty; [intros c Hc; exact Hc|reflexivity].
Defined.

Lemma train_gate_is_the_schema_witness :
  ∃ res,
    SurvivalCreditModel.train (SurvivalCreditModel.__init__ 3)
      {| df_columns := all_columns; df_rows := two_segments |}
    = Ok ({| SurvivalCreditModel.rate_estimator :=
               (HazardRateEstimator.fit
                  (SurvivalCreditModel.rate_estimator
                     (SurvivalCreditModel.__init__ 3)) two_segments).1;
             SurvivalCreditModel.is_trained := true |}, res)
    ∧ tr_validation_results res
      = DataValidator.validate_data
          {| df_columns := all_columns; df_rows := two_segments |}.
Proof.
  destruct (train_gate_is_the_schema (SurvivalCreditModel.__init__ 3)
              {| df_columns := all_columns; df_rows := two_segments |})
    as [Hok _].
  destruct Hok as (res & Htrain & Hval & _).
  - intros c Hc. exact Hc.
  - exists res. split; [exact Htrain|exact Hval].
Defined.

(** ** More on the range checks *)

Section range_checks.
Import DataValidator.

Lemma existsb_fmap {A B} (p : B → bool) (f : A → B) (l : list A) :
  existsb p (f <$> l) = existsb (λ x, p (f x)) l.
Proof.
  induction l as [|x l IH]; [done|].
  rewrite fmap_cons. cbn [existsb]. by rewrite IH.
Qed.

Lemma data_quality_warnings_eq (df : DataFrame) (r : ValidationResult) :
  warnings (_check_data_quality df r)
  = warnings r ++ quality_warnings (df_rows df).
Proof.
  unfold _check_data_quality, quality_warnings, when. cbv zeta.
  rewrite !existsb_fmap.
  destruct (match series_min (month_on_book <$> df_rows df) with
            | Some m => bool_decide (m < 0) | None => false end);
    repeat match goal with
           | |- context [if existsb ?p ?l then _ else _] =>
               destruct (existsb p l)
           end; simpl; rewrite <- ?app_assoc, ?app_nil_r; done.
Qed.

Lemma validate_data_all_warnings (df : DataFrame) :
  REQUIRED_COLUMNS ⊆ df_columns df →
  warnings (validate_data df)
  = quality_warnings (df_rows df)
    ++ omap (flow_warning df) (segments df)
    ++ omap (gap_warning df) (segments df).
Proof.
  intros Hcols. unfold validate_data.
  rewrite required_columns_present by done.
  rewrite bool_decide_eq_false_2 by (by intros []).
  rewrite completeness_warnings_eq, business_logic_warnings_eq,
    data_quality_warnings_eq.
  by rewrite <- app_assoc.
Qed.

Lemma elem_of_if_singleton {A} (b : bool) (x y : A) :
  x ∈ (if b then [y] else []) ↔ b = true ∧ x = y.
Proof.
  destruct b.
  - rewrite list_elem_of_singleton. naive_solver.
  - split; [by intros ?%elem_of_nil|by intros [? _]].
Qed.

Lemma flow_warning_not_range (df : DataFrame) (segs : list string) (w : message) :
  w ∈ omap (flow_warning df) segs → ∃ s m, w = BalanceFlowInconsistency s m.
Proof.
  intros (s & _ & Hf)%list_elem_of_omap. unfold flow_warning in Hf.
  destruct (first_inconsistency _) as [m|]; [|done].
  exists s, m. by simplify_eq/=.
Qed.

Lemma gap_warning_not_range (df : DataFrame) (segs : list string) (w : message) :
  w ∈ omap (gap_warning df) segs → ∃ s ms, w = MissingMonths s ms.
Proof.
  intros (s & _ & Hg)%list_elem_of_omap. unfold gap_warning in Hg.
  destruct (missing_months df s) as [|m ms]; [done|].
  exists s, (m :: ms). by simplify_eq/=.
Qed.

End range_checks.

(** X17.  The range checks report each condition exactly when it holds: on
    a frame that has the required columns, each of the three range errors
    and each of the three range warnings is in the result exactly when some
    row meets its condition (a negative month, payment or chargeoff; a
    balance that is zero or negative; a payment or chargeoff rate above
    one), and no error is repeated. *)
Theorem range_checks_report_exactly (df : DataFrame) :
  DataValidator.REQUIRED_COLUMNS ⊆ df_columns df →
  let res := DataValidator.validate_data df in
  (NegativeMonth ∈ errors res ↔ ∃ r, r ∈ df_rows df ∧ month_on_book r < 0)
  ∧ (NegativePayments ∈ errors res
     ↔ ∃ r, r ∈ df_rows df ∧ ltb (payments r) zero = true)
  ∧ (NegativeChargeoffs ∈ errors res
     ↔ ∃ r, r ∈ df_rows df ∧ ltb (chargeoffs r) zero = true)
  ∧ NoDup (errors res)
  ∧ (NonPositiveBalance ∈ warnings res
     ↔ ∃ r, r ∈ df_rows df ∧ leb (outstanding_balance r) zero = true)
  ∧ (PaymentRateOver ∈ warnings res
     ↔ ∃ r, r ∈ df_rows df
            ∧ gtb (div (payments r) (outstanding_balance r)) one = true)
  ∧ (ChargeoffRateOver ∈ warnings res
     ↔ ∃ r, r ∈ df_rows df
            ∧ gtb (div (chargeoffs r) (outstanding_balance r)) one = true).
Proof.
  intros Hcols res.
  destruct (validate_data_with_columns df Hcols) as [_ Herr].
  pose proof (validate_data_all_warnings df Hcols) as Hwarn.
  fold res in Herr, Hwarn. rewrite Herr, Hwarn. clear Herr Hwarn res.
  assert (Hother : ∀ w,
    (∀ s m, w ≠ BalanceFlowInconsistency s m) →
    (∀ s ms, w ≠ MissingMonths s ms) →
    w ∈ quality_warnings (df_rows df)
        ++ omap (flow_warning df) (segments df)
        ++ omap (gap_warning df) (segments df)
    ↔ w ∈ quality_warnings (df_rows df)).
  { intros w Hf Hg. rewrite !elem_of_app. split; [|tauto].
    intros [Hw|[Hw|Hw]]; [done| |].
    - apply flow_warning_not_range in Hw as (s & m & ->). by destruct (Hf s m).
    - apply gap_warning_not_range in Hw as (s & ms & ->). by destruct (Hg s ms). }
  rewrite !Hother by done.
  unfold quality_errors, quality_warnings.
  rewrite !elem_of_app, !elem_of_if_singleton, !existsb_elem_of.
  repeat split; try naive_solver.
  - intros [[(r & Hr & Hm) _]|[[_ ?]|[_ ?]]]; [|done..].
    exists r. by apply bool_decide_eq_true in Hm.
  - intros (r & Hr & Hm). left. split; [|done].
    exists r. by rewrite bool_decide_eq_true.
  - repeat match goal with
           | |- context [if existsb ?p ?l then _ else _] =>
               destruct (existsb p l)
           end; simpl; repeat constructor; set_solver.
Qed.

Lemma range_checks_report_exactly_witness :
  NegativePayments
  ∈ errors (DataValidator.validate_data
              {| df_columns := all_columns;
                 df_rows := [row "test" 0 (of_Z 1000) (of_Z (-100)) (of_Z 10)] |})
  ∧ NoDup (errors (DataValidator.validate_data
              {| df_columns := all_columns;
                 df_rows := [row "test" 0 (of_Z 1000) (of_Z (-100)) (of_Z 10)] |})).
Proof.
  destruct (range_checks_report_exactly
              {| df_columns := all_columns;
                 df_rows := [row "test" 0 (of_Z 1000) (of_Z (-100)) (of_Z 10)] |})
    as (_ & Hpay & _ & Hnd & _).
  - intros c Hc. exact Hc.
  - split; [|exact Hnd]. apply Hpay. eexists. split; [left|].
    apply (bool_decide_unpack _). vm_compute. exact I.
Defined.
